(** * Fast Compress (fc-slow.py): a shallow embedding and its properties

    The program is a single Python module.  Its pure functions become Rocq
    functions into an error type; the functions that call [random] thread a
    cursor over a stream of raw draws, and the unbounded retry loops take a
    fuel argument ([OutOfFuel] means "still searching").

    The first part of the file holds the embedding, each function after
    the ones it calls, and the vocabulary of the statements; the second
    part holds the lemmas and theorems, component by component; the
    third part holds further properties of the code: the failures of
    each function, the order of the dictionary and the round trip; the
    fourth part holds the candidates of the cipher search, what the
    parts of BODY stand for, the three passes of [s_decompress] and its
    errors. *)

From Stdlib Require Import ZArith List Bool Lia String Ascii.
From Stdlib Require Import DecimalString DecimalZ.
From stdpp Require Import base list sorting.

Local Open Scope Z_scope.

(* ===================================================================== *)
(** * Part I: the embedding                                               *)
(* ===================================================================== *)

(** ** Python values *)

(** A Python [str] is a sequence of code points; [ord] is the identity and
    [chr] is defined on [0, 0x10FFFF]. *)
Abbreviation pchar := Z (only parsing).
Abbreviation pstr := (list Z) (only parsing).

(** The exceptions the module can raise.  [NotSortedException] is the
    module's own class; the others are built in.

    [Unmodelled] is no exception of Python.  It ends a run that calls
    [int] or [eval] on a text outside the part of these built-ins that
    the embedding covers: for [int], a string with a character beyond
    ASCII; for [eval], any text that is not a list of lists of integer
    literals.  On such a text [eval] runs arbitrary code that sees the
    local variables of [s_decompress] and the module, and the embedding
    does not say what the program does. *)
Inductive exn : Set :=
| ValueError
| IndexError
| KeyError
| ZeroDivisionError
| TypeError
| NotSortedException
| Unmodelled.

Inductive res (A : Type) : Type :=
| Ok (a : A)
| Raise (e : exn).
Arguments Ok {A} a.
Arguments Raise {A} e.

Definition res_bind {A B} (r : res A) (k : A -> res B) : res B :=
  match r with
  | Ok a => k a
  | Raise e => Raise e
  end.

Declare Scope res_scope.
Delimit Scope res_scope with res.
Notation "'let?' x := r 'in' k" := (res_bind r (fun x => k))
  (at level 10, x name, r at level 100, k at level 200) : res_scope.

(** A string literal, as the list of its code points. *)
Definition py (s : string) : pstr :=
  map (fun a => Z.of_N (N_of_ascii a)) (list_ascii_of_string s).

Definition ch (a : ascii) : pchar := Z.of_N (N_of_ascii a).

Definition chr (n : Z) : res pchar :=
  if (0 <=? n) && (n <? 1114112) then Ok n else Raise ValueError.

Definition ord (c : pchar) : Z := c.

(** [a == b] on strings and on nested lists of integers. *)
Fixpoint str_eqb (a b : pstr) : bool :=
  match a, b with
  | [], [] => true
  | x :: a', y :: b' => (x =? y) && str_eqb a' b'
  | _, _ => false
  end.

(** [a < b] on strings: lexicographic on code points. *)
Fixpoint str_ltb (a b : pstr) : bool :=
  match a, b with
  | _, [] => false
  | [], _ :: _ => true
  | x :: a', y :: b' => (x <? y) || ((x =? y) && str_ltb a' b')
  end.

(** [a >= b] on strings. *)
Fixpoint str_geb (a b : pstr) : bool :=
  match a, b with
  | _, [] => true
  | [], _ :: _ => false
  | x :: a', y :: b' => (y <? x) || ((x =? y) && str_geb a' b')
  end.

(** [xs[i]] for a non-negative index. *)
Definition index {A} (xs : list A) (i : nat) : res A :=
  match xs !! i with
  | Some x => Ok x
  | None => Raise IndexError
  end.

(** [i % n] on non-negative integers. *)
Definition py_mod (i n : nat) : res nat :=
  match n with
  | O => Raise ZeroDivisionError
  | _ => Ok (i mod n)%nat
  end.

(** [''.join(parts)] *)
Definition join (parts : list pstr) : pstr := concat parts.

(** [s.split(sep)] for a one-character separator: [n] separators give
    [n + 1] fields. *)
Fixpoint split (sep : pchar) (s : pstr) : list pstr :=
  match s with
  | [] => [[]]
  | c :: s' =>
      if c =? sep then [] :: split sep s'
      else match split sep s' with
           | [] => [[c]]
           | f :: fs => (c :: f) :: fs
           end
  end.

(** [str(n)] for an integer. *)
Definition str_of_int (n : Z) : pstr :=
  py (NilZero.string_of_int (Z.to_int n)).

Definition is_digit (c : pchar) : bool := (48 <=? c) && (c <=? 57).

(** [int(s)] where [s] is a non-empty run of ASCII digits. *)
Definition int_of_digits (s : pstr) : Z :=
  fold_left (fun acc c => 10 * acc + (c - 48)) s 0.

(** ** The random module

    Every call into [random] consumes one raw draw from a stream
    [g : nat -> nat]; the cursor is threaded through.  [OutOfFuel] is the
    outcome of a retry loop that has not yet succeeded. *)

Inductive outcome (A : Type) : Type :=
| Done (a : A) (cur : nat)
| Failed (e : exn)
| OutOfFuel.
Arguments Done {A} a cur.
Arguments Failed {A} e.
Arguments OutOfFuel {A}.

Definition M (A : Type) : Type := (nat -> nat) -> nat -> outcome A.

Definition ret {A} (a : A) : M A := fun _ cur => Done a cur.

Definition bind {A B} (m : M A) (k : A -> M B) : M B :=
  fun g cur =>
    match m g cur with
    | Done a cur' => k a g cur'
    | Failed e => Failed e
    | OutOfFuel => OutOfFuel
    end.

Definition fail {A} (e : exn) : M A := fun _ _ => Failed e.

Definition lift {A} (r : res A) : M A :=
  match r with
  | Ok a => ret a
  | Raise e => fail e
  end.

Definition timeout {A} : M A := fun _ _ => OutOfFuel.

Declare Scope rand_scope.
Delimit Scope rand_scope with rand.
Notation "'let*' x := m 'in' k" := (bind m (fun x => k))
  (at level 10, x name, m at level 100, k at level 200) : rand_scope.

Local Open Scope rand_scope.

Definition draw : M nat := fun g cur => Done (g cur) (S cur).

(** [random.randint(a, b)], for [a <= b]. *)
Definition randint (a b : Z) : M Z :=
  let* r := draw in ret (a + Z.of_nat r mod (b - a + 1)).

(** [random.choice(seq)]: [IndexError] on an empty sequence. *)
Definition choice {A} (l : list A) : M A :=
  match l with
  | [] => fail IndexError
  | _ => let* r := draw in lift (index l (r mod length l)%nat)
  end.

(** [random.random() > 0.8]: the draw is read as the first decimal of the
    variate, so the event holds for two digits out of ten. *)
Definition random_gt_08 : M bool :=
  let* r := draw in ret (8 <=? r mod 10)%nat.

(** [x[i], x[j] = x[j], x[i]] *)
Definition swap {A} (x : list A) (i j : nat) : list A :=
  match x !! i, x !! j with
  | Some a, Some b => <[j:=a]> (<[i:=b]> x)
  | _, _ => x
  end.

(** [random.shuffle(x)]: for [i] from [len(x) - 1] down to [1], swap
    [x[i]] with [x[randbelow(i + 1)]]. *)
Fixpoint shuffle_from {A} (i : nat) (x : list A) : M (list A) :=
  match i with
  | O => ret x
  | S i' => let* r := draw in shuffle_from i' (swap x i (r mod (S i))%nat)
  end.

Definition shuffle {A} (x : list A) : M (list A) :=
  shuffle_from (length x - 1)%nat x.

(** ** StreamCipher *)

(** [s_encrypt]: the loop body at position [i]. *)
Fixpoint s_encrypt_from (i : nat) (plaintext key : pstr) : res pstr :=
  match plaintext with
  | [] => Ok []
  | c :: rest =>
      (let? n := py_mod i (length key) in
       let? e := index key n in
       let? pair :=
         if ord c <? ord e - 32 then
           (let? p := chr (ord e - ord c) in Ok [ch "A"; p])
         else if ord e <? ord c - 32 then
           (let? p := chr (ord c - ord e) in Ok [ch "B"; p])
         else Ok [ch "C"; c] in
       let? tl := s_encrypt_from (S i) rest key in
       Ok (pair ++ tl))%res
  end.

Definition s_encrypt (plaintext key : pstr) : res pstr :=
  s_encrypt_from 0 plaintext key.

(** The characters [chr(n)] contributes to [possibilities]: the failing
    call is swallowed by the bare [except]. *)
Definition chr_cand (n : Z) : list pchar :=
  match chr n with
  | Ok c => [c]
  | Raise _ => []
  end.

Definition possibilities (k c : pchar) : list pchar :=
  chr_cand (ord k - ord c) ++ chr_cand (ord k + ord c) ++ [c].

(** One pass of the [for] loop of [s_decrypt] from stream index [i]. *)
Fixpoint decrypt_attempt (i : nat) (encrypted key : pstr) : M pstr :=
  match encrypted with
  | [] => ret []
  | c :: rest =>
      if (i mod 2 =? 0)%nat then decrypt_attempt (S i) rest key
      else
        let* n := lift (py_mod (i / 2) (length key)) in
        let* k := lift (index key n) in
        let* p := choice (possibilities k c) in
        let* ps := decrypt_attempt (S i) rest key in
        ret (p :: ps)
  end.

(** The [while] loop of [s_decrypt], entered with the current candidate. *)
Fixpoint s_decrypt_loop (fuel : nat) (encrypted key plaintext : pstr)
  : M pstr :=
  match s_encrypt plaintext key with
  | Raise e => fail e
  | Ok again =>
      if str_eqb encrypted again then ret plaintext
      else match fuel with
           | O => timeout
           | S fuel' =>
               let* cand := decrypt_attempt 0 encrypted key in
               s_decrypt_loop fuel' encrypted key cand
           end
  end.

Definition s_decrypt (fuel : nat) (encrypted key : pstr) : M pstr :=
  s_decrypt_loop fuel encrypted key [].

(** ** MatrixAlgebra *)

Definition matrix := list (list Z).

Fixpoint row_eqb (a b : list Z) : bool :=
  match a, b with
  | [], [] => true
  | x :: a', y :: b' => (x =? y) && row_eqb a' b'
  | _, _ => false
  end.

Fixpoint mat_eqb (a b : matrix) : bool :=
  match a, b with
  | [], [] => true
  | r :: a', s :: b' => row_eqb r s && mat_eqb a' b'
  | _, _ => false
  end.

(** [zip( *b)]: the columns of [b], cut at its shortest row. *)
Fixpoint zip_star (b : matrix) : matrix :=
  match b with
  | [] => []
  | [r] => map (fun x => [x]) r
  | r :: b' => zip_with cons r (zip_star b')
  end.

(** [sum(x * y for x, y in zip(r, c))] *)
Definition dot (r c : list Z) : Z :=
  fold_left Z.add (zip_with Z.mul r c) 0.

Definition matmul (a b : matrix) : matrix :=
  map (fun r => map (fun c => dot r c) (zip_star b)) a.

(** [[random.randint(lo, hi) for _ in range(n)]] *)
Fixpoint rand_row (n : nat) (lo hi : Z) : M (list Z) :=
  match n with
  | O => ret []
  | S n' =>
      let* x := randint lo hi in
      let* xs := rand_row n' lo hi in
      ret (x :: xs)
  end.

(** [[[random.randint(lo, hi) for _ in range(cols)] for _ in range(rows)]] *)
Fixpoint rand_matrix (rows cols : nat) (lo hi : Z) : M matrix :=
  match rows with
  | O => ret []
  | S rows' =>
      let* r := rand_row cols lo hi in
      let* rs := rand_matrix rows' cols lo hi in
      ret (r :: rs)
  end.

(** The [for] loop of [matdiv]: [n] candidates at the current [maxv]. *)
Fixpoint matdiv_tries (n : nat) (c b : matrix) (d0 d1 : nat) (maxv : Z)
  : M (option matrix) :=
  match n with
  | O => ret None
  | S n' =>
      let* cand := rand_matrix d1 d0 0 maxv in
      if mat_eqb (matmul cand b) c then ret (Some cand)
      else matdiv_tries n' c b d0 d1 maxv
  end.

(** The [while True] loop of [matdiv]; [maxv] is the value before the
    increment. *)
Fixpoint matdiv_loop (fuel : nat) (c b : matrix) (d0 d1 : nat) (maxv : Z)
  : M matrix :=
  match fuel with
  | O => timeout
  | S fuel' =>
      let maxv := maxv + 1 in
      let n := Z.to_nat (maxv ^ 2 * Z.of_nat d0 * Z.of_nat d1 + 10) in
      let* found := matdiv_tries n c b d0 d1 maxv in
      match found with
      | Some cand => ret cand
      | None => matdiv_loop fuel' c b d0 d1 maxv
      end
  end.

Definition matdiv (fuel : nat) (c b : matrix) : M matrix :=
  match b with
  | [] => fail IndexError
  | b0 :: _ => matdiv_loop fuel c b (length b) (length b0) 0
  end.

(** ** OrderingOracle *)

Section RSort.
Context {A : Type} (lt : A -> A -> bool).

(** The two nested [for] loops: some [j > i] has [clone[j] < clone[i]]. *)
Definition raises_not_sorted (clone : list A) : bool :=
  existsb (fun i =>
    existsb (fun j =>
      (i <? j)%nat &&
      match clone !! j, clone !! i with
      | Some y, Some x => lt y x
      | _, _ => false
      end)
    (seq 0 (length clone)))
  (seq 0 (length clone)).

Fixpoint r_sort_loop (fuel : nat) (clone : list A) : M (list A) :=
  match fuel with
  | O => timeout
  | S fuel' =>
      let* clone := shuffle clone in
      if raises_not_sorted clone then r_sort_loop fuel' clone
      else ret clone
  end.

Definition r_sort (fuel : nat) (lst : list A) : M (list A) :=
  r_sort_loop fuel lst.
End RSort.

(** ** ChecksumTable and Footer Hasher *)

Definition is_byte (x : Z) : Prop := 0 <= x < 256.

(** [range(a, a + n)] as integers. *)
Definition zrange (a : Z) (n : nat) : list Z :=
  map (fun k => a + Z.of_nat k) (seq 0 n).

(** The dictionaries are association lists, newest binding first. *)
Definition dict := list (Z * Z).

Fixpoint dict_get (d : dict) (k : Z) : res Z :=
  match d with
  | [] => Raise KeyError
  | (k', v) :: d' => if k' =? k then Ok v else dict_get d' k
  end.

Definition dict_set (d : dict) (k v : Z) : dict := (k, v) :: d.

(** The body of the table-generation loops for one [byte] and one [i]. *)
Definition table_step (byte : Z) (tbl : list dict) (i : nat) : list dict :=
  let b := Z.lxor byte 85 in
  let result :=
    (b + Z.shiftl b (Z.of_nat i) + Z.shiftr b (Z.of_nat i)) mod 256 in
  match tbl !! i with
  | Some d => <[i := dict_set d byte result]> tbl
  | None => tbl
  end.

Definition table : list dict :=
  Eval vm_compute in
  fold_left
    (fun tbl byte => fold_left (table_step byte) (seq 0 8) tbl)
    (zrange 32 96)
    (replicate 8 []).

(** [plaintext.encode('ascii')] *)
Definition encode_ascii (s : pstr) : res (list Z) :=
  if forallb (fun c => (0 <=? c) && (c <? 128)) s then Ok s
  else Raise ValueError.

(** [hsh[i] = v] on a [bytearray]. *)
Definition bytearray_set (hsh : list Z) (i : nat) (v : Z) : res (list Z) :=
  if (0 <=? v) && (v <? 256) then
    match hsh !! i with
    | Some _ => Ok (<[i := v]> hsh)
    | None => Raise IndexError
    end
  else Raise ValueError.

Fixpoint securehash_loop (i : nat) (plaintext hsh : list Z)
  : res (list Z) :=
  match plaintext with
  | [] => Ok hsh
  | byte :: rest =>
      (let? d := index table (i mod 8)%nat in
       let? t := dict_get d byte in
       let? old := index hsh (i mod 15)%nat in
       let? hsh := bytearray_set hsh (i mod 15)%nat (Z.lxor old t) in
       securehash_loop (S i) rest hsh)%res
  end.

Definition hex_digit (n : Z) : pchar :=
  if n <? 10 then 48 + n else 87 + n.

(** [binascii.hexlify(hsh).decode('ascii')] *)
Definition hexlify (hsh : list Z) : pstr :=
  flat_map (fun b => [hex_digit (b / 16); hex_digit (b mod 16)]) hsh.

Definition s_securehash (plaintext : pstr) : res pstr :=
  (let hsh := replicate 16 0 in
   let? plaintext := encode_ascii plaintext in
   let? hsh := bytearray_set hsh 15 (Z.of_nat (length plaintext)) in
   let? hsh := securehash_loop 0 plaintext hsh in
   Ok (hexlify hsh))%res.

(** ** Text of integers and matrices *)

(** [sep.join(parts)] *)
Fixpoint join_sep (sep : pstr) (parts : list pstr) : pstr :=
  match parts with
  | [] => []
  | [p] => p
  | p :: rest => p ++ sep ++ join_sep sep rest
  end.

(** [repr] of a list of integers and of a list of such lists. *)
Definition repr_row (r : list Z) : pstr :=
  py "[" ++ join_sep (py ", ") (map str_of_int r) ++ py "]".

Definition repr_matrix (m : matrix) : pstr :=
  py "[" ++ join_sep (py ", ") (map repr_row m) ++ py "]".

Definition is_space (c : pchar) : bool :=
  ((9 <=? c) && (c <=? 13)) || (c =? 32).

Fixpoint lstrip (s : pstr) : pstr :=
  match s with
  | c :: s' => if is_space c then lstrip s' else s
  | [] => []
  end.

Definition strip (s : pstr) : pstr := rev (lstrip (rev (lstrip s))).

(** Digits with single underscores between them. *)
Fixpoint digits_ok (after_digit : bool) (s : pstr) : bool :=
  match s with
  | [] => after_digit
  | c :: s' =>
      if is_digit c then digits_ok true s'
      else if (c =? 95) && after_digit then digits_ok false s'
      else false
  end.

(** [int(s)].  On a string of ASCII characters: blanks (tab to carriage
    return, and the space) are stripped, a sign is allowed, digits may be
    grouped by underscores.  On a string with a character beyond ASCII
    Python consults the Unicode tables of digits and blanks, which are
    not embedded, and on more than 4300 digits recent versions of CPython
    refuse the conversion: such a call is [Unmodelled]. *)
Definition int_ascii (s : pstr) : res Z :=
  let s := strip s in
  let '(neg, digits) :=
    match s with
    | c :: s' =>
        if c =? 45 then (true, s')
        else if c =? 43 then (false, s')
        else (false, s)
    | [] => (false, s)
    end in
  if digits_ok false digits then
    let n := int_of_digits (filter (fun c => is_digit c = true) digits) in
    Ok (if neg then - n else n)
  else Raise ValueError.

Definition py_int (s : pstr) : res Z :=
  if forallb (fun c => (0 <=? c) && (c <? 128)) s
     && (length s <=? 4300)%nat
  then int_ascii s
  else Raise Unmodelled.

(** [eval] on the texts that [repr] prints for a list of lists of
    integers, blanks allowed between the symbols: such a text names no
    variable and evaluates to the list it spells.  Every other text is
    [Unmodelled], and so is a text with an integer literal of more than
    4300 digits, which recent versions of CPython refuse. *)
Inductive token : Set :=
| TLBr
| TRBr
| TComma
| TNum (n : Z).

(** [num] is the literal being read: its sign and the digits so far. *)
Definition flush_num (num : option (bool * pstr)) : res (list token) :=
  match num with
  | None => Ok []
  | Some (neg, ds) =>
      match ds with
      | [] => Raise Unmodelled
      | d :: ds' =>
          if ((d =? 48) && negb (forallb (fun c => c =? 48) ds'))
             || (4300 <? length ds)%nat
          then Raise Unmodelled
          else
            let n := int_of_digits ds in
            Ok [TNum (if neg then - n else n)]
      end
  end.

Fixpoint lex (s : pstr) (num : option (bool * pstr)) : res (list token) :=
  match s with
  | [] => flush_num num
  | c :: s' =>
      if is_digit c then
        match num with
        | None => lex s' (Some (false, [c]))
        | Some (neg, ds) => lex s' (Some (neg, ds ++ [c]))
        end
      else
        (let? done := flush_num num in
         let? rest :=
           if c =? 91 then (let? r := lex s' None in Ok (TLBr :: r))
           else if c =? 93 then (let? r := lex s' None in Ok (TRBr :: r))
           else if c =? 44 then (let? r := lex s' None in Ok (TComma :: r))
           else if c =? 32 then lex s' None
           else if c =? 45 then lex s' (Some (true, []))
           else Raise Unmodelled in
         Ok (done ++ rest))%res
  end.

Fixpoint parse_nums (ts : list token) : res (list Z * list token) :=
  match ts with
  | TNum n :: TRBr :: rest => Ok ([n], rest)
  | TNum n :: TComma :: rest =>
      match parse_nums rest with
      | Ok (ns, rest') => Ok (n :: ns, rest')
      | Raise e => Raise e
      end
  | _ => Raise Unmodelled
  end.

Definition parse_row (ts : list token) : res (list Z * list token) :=
  match ts with
  | TLBr :: TRBr :: rest => Ok ([], rest)
  | TLBr :: rest => parse_nums rest
  | _ => Raise Unmodelled
  end.

Fixpoint parse_rows (n : nat) (ts : list token) : res (matrix * list token) :=
  match n with
  | O => Raise Unmodelled
  | S n' =>
      match parse_row ts with
      | Ok (r, TRBr :: rest) => Ok ([r], rest)
      | Ok (r, TComma :: rest) =>
          match parse_rows n' rest with
          | Ok (rs, rest') => Ok (r :: rs, rest')
          | Raise e => Raise e
          end
      | Ok _ => Raise Unmodelled
      | Raise e => Raise e
      end
  end.

Definition eval_matrix (s : pstr) : res matrix :=
  (let? ts := lex s None in
   match ts with
   | [TLBr; TRBr] => Ok []
   | TLBr :: rest =>
       match parse_rows (length rest) rest with
       | Ok (m, []) => Ok m
       | Ok _ => Raise Unmodelled
       | Raise e => Raise e
       end
   | _ => Raise Unmodelled
   end)%res.

(** ** Pipeline: [s_compress] *)

Definition KEYS : list pstr :=
  [py "!wes!"; py "!wesley!"; py "!scott!"; py "!wscott!"; py "!northbank!"].

(** The escaping of one character of the encrypted text. *)
Definition escape (c : pchar) : pstr :=
  if c =? ch "@" then py "@000"
  else if c =? 10 then py "@999"
  else if c =? ch "/" then py "@998"
  else [c].

(** ['0' * (3 - len(str(n))) + str(n)] and
    ['@' + '0' * (3 - len(str(n))) + str(n)] *)
Definition pad3 (n : Z) : pstr :=
  replicate (Z.to_nat (3 - Z.of_nat (length (str_of_int n)))) (ch "0")
  ++ str_of_int n.

Definition ref (n : Z) : pstr := ch "@" :: pad3 n.

Fixpoint res_map {A B} (f : A -> res B) (l : list A) : res (list B) :=
  match l with
  | [] => Ok []
  | x :: l' =>
      (let? y := f x in
       let? ys := res_map f l' in
       Ok (y :: ys))%res
  end.

(** [lst1] after its first row has been overwritten from the token. *)
Definition seed_matrix (tok : pstr) : res matrix :=
  (let? c0 := index tok 0 in
   if c0 =? ch "@" then
     let? row := res_map (fun c => let? d := py_int [c] in Ok (d + 10))
                         (drop 1 tok) in
     Ok [row; [1; 2; 3]; [3; 2; 1]]
   else
     match tok with
     | [c] => Ok [[ord c; 0; 0]; [1; 2; 3]; [3; 2; 1]]
     | _ => Raise TypeError
     end)%res.

(** The local variables of [s_compress] that the scan updates. *)
Record cstate : Type := CState {
  head : list pstr;
  body : list pstr;
  foot : list pstr;
  chunks : Z;
  l_chunks : list (list pstr)
}.

(** The [while i < len(tokens)] loop.  [rest] is [tokens[i:]]; [skip]
    counts the positions that [i += 4] jumps over, so every call with
    [skip = 0] is one evaluation of the loop condition. *)
Fixpoint compress_scan (m_encryptor : matrix) (rest : list pstr)
    (skip : nat) (st : cstate) : M cstate :=
  match rest with
  | [] => ret st
  | tok :: rest' =>
      match skip with
      | S skip' => compress_scan m_encryptor rest' skip' st
      | O =>
          if 997 <=? chunks st then ret st
          else
            let* chunk_time :=
              (if (5 <? length rest)%nat then random_gt_08
               else ret false) in
            if chunk_time then
              let chunk := take 5 rest in
              let n := chunks st + 1 in
              let* h :=
                lift (s_securehash (join (chunk ++ chunk ++ chunk))) in
              compress_scan m_encryptor rest' 4
                {| head := head st ++ [join chunk ++ py "/"];
                   body := body st ++ [ref n];
                   foot := foot st ++ [h];
                   chunks := n;
                   l_chunks := l_chunks st ++ [chunk] |}
            else
              let* matrix_time := random_gt_08 in
              if matrix_time then
                let* lst1 := lift (seed_matrix tok) in
                compress_scan m_encryptor rest' 0
                  {| head := head st;
                     body := body st ++
                       [py "/" ++ repr_matrix (matmul lst1 m_encryptor)
                        ++ py "/"];
                     foot := foot st;
                     chunks := chunks st;
                     l_chunks := l_chunks st |}
              else
                compress_scan m_encryptor rest' 0
                  {| head := head st;
                     body := body st ++ [tok];
                     foot := foot st;
                     chunks := chunks st;
                     l_chunks := l_chunks st |}
      end
  end.

(** Comparison of two chunks (lists of tokens) and of two sort keys
    [(chunk, extraction index)]. *)
Fixpoint chunk_eqb (a b : list pstr) : bool :=
  match a, b with
  | [], [] => true
  | x :: a', y :: b' => str_eqb x y && chunk_eqb a' b'
  | _, _ => false
  end.

Fixpoint chunk_ltb (a b : list pstr) : bool :=
  match a, b with
  | _, [] => false
  | [], _ :: _ => true
  | x :: a', y :: b' =>
      if str_eqb x y then chunk_ltb a' b' else str_ltb x y
  end.

Definition key_ltb (x y : nat * list pstr) : bool :=
  if chunk_eqb (snd x) (snd y) then (fst x <? fst y)%nat
  else chunk_ltb (snd x) (snd y).

(** [sorted(..., key=lambda x: (x[1], x[0]))], as a stable insertion
    sort. *)
Fixpoint insert_sorted (x : nat * list pstr) (l : list (nat * list pstr))
  : list (nat * list pstr) :=
  match l with
  | [] => [x]
  | y :: l' => if key_ltb y x then y :: insert_sorted x l' else x :: y :: l'
  end.

Definition sorted_by_key (l : list (nat * list pstr))
  : list (nat * list pstr) :=
  foldr insert_sorted [] l.

Definition enumerate {A} (l : list A) : list (nat * A) :=
  zip (seq 0 (length l)) l.

(** The body of [for i, part in enumerate(body)]: the new value of
    [body[i]]. *)
Definition renumber (indices : list (nat * list pstr)) (part : pstr)
  : res pstr :=
  (let? c0 := index part 0 in
   if c0 =? ch "@" then
     let? rest := py_int (drop 1 part) in
     Ok (fold_left
           (fun cur cv =>
              match indices !! cv with
              | Some (k, _) =>
                  if Z.of_nat k =? rest - 1 then ref (Z.of_nat cv + 1)
                  else cur
              | None => cur
              end)
           (seq 0 (length indices)) part)
   else Ok part)%res.

(** [s_compress] up to the final join: the lists [head], [body] and
    [foot]. *)
Definition s_compress_parts (plaintext : pstr)
  : M (list pstr * list pstr * list pstr) :=
  let head0 := [py "001"] in
  let* encryption_key := choice KEYS in
  let head1 := head0 ++ [encryption_key ++ py "/"] in
  let* encrypted_plaintext := lift (s_encrypt plaintext encryption_key) in
  let* m_encryptor := rand_matrix 3 3 1 3 in
  let head2 := head1 ++ [repr_matrix m_encryptor ++ py "/"] in
  let tokens := map escape encrypted_plaintext in
  let* st :=
    compress_scan m_encryptor tokens 0
      {| head := head2; body := []; foot := [];
         chunks := 0; l_chunks := [] |} in
  let indices := sorted_by_key (enumerate (l_chunks st)) in
  let* body' := lift (res_map (renumber indices) (body st)) in
  ret (head st, body', foot st).

Definition s_compress (plaintext : pstr) : M pstr :=
  let* parts := s_compress_parts plaintext in
  let '(hd, bd, ft) := parts in
  ret (join_sep [10] [join hd; join bd; join ft]).

(** ** Pipeline: [s_decompress] *)

(** The group of [/(.+?)/] when the pattern matches at the start of [s]:
    [lazy_group] reads the shortest run that reaches a slash. *)
Fixpoint lazy_group (s : pstr) : option pstr :=
  match s with
  | [] => None
  | c :: s' =>
      if c =? ch "/" then Some []
      else if c =? 10 then None
      else match lazy_group s' with
           | Some g => Some (c :: g)
           | None => None
           end
  end.

Definition match_matrix (s : pstr) : option pstr :=
  match s with
  | c0 :: c1 :: s' =>
      if (c0 =? ch "/") && negb (c1 =? 10) then
        match lazy_group s' with
        | Some g => Some (c1 :: g)
        | None => None
        end
      else None
  | _ => None
  end.

Definition matrix_fix (fuel : nat) (mkey : matrix) (group : pstr) : M pstr :=
  let* lst := lift (eval_matrix group) in
  let* soln := matdiv fuel lst mkey in
  let* row0 := lift (index soln 0) in
  let* s01 := lift (index row0 1) in
  if s01 =? 0 then
    let* s00 := lift (index row0 0) in
    let* c := lift (chr s00) in
    ret [c]
  else
    ret (ch "@" :: join (map (fun i => str_of_int (i - 10)) row0)).

(** [re.sub('/(.+?)/', matrix_fix, body)]: [skip] counts the characters
    of the match that is being replaced. *)
Fixpoint sub_matrix (fuel : nat) (mkey : matrix) (skip : nat) (s : pstr)
  : M pstr :=
  match s with
  | [] => ret []
  | c :: s' =>
      match skip with
      | S skip' => sub_matrix fuel mkey skip' s'
      | O =>
          match match_matrix s with
          | Some g =>
              let* r := matrix_fix fuel mkey g in
              let* t := sub_matrix fuel mkey (length g + 1) s' in
              ret (r ++ t)
          | None =>
              let* t := sub_matrix fuel mkey 0 s' in
              ret (c :: t)
          end
      end
  end.

Definition reserved (num : pstr) : bool :=
  str_eqb num (py "000") || str_eqb num (py "998") || str_eqb num (py "999").

Definition replace (chunks : list pstr) (num : pstr) : res pstr :=
  if reserved num then Ok (ch "@" :: num)
  else
    (let? n := py_int num in
     if 0 <=? n - 1 then index chunks (Z.to_nat (n - 1))
     else
       (* a negative index counts from the end of the list *)
       if 0 <=? Z.of_nat (length chunks) + (n - 1)
       then index chunks (Z.to_nat (Z.of_nat (length chunks) + (n - 1)))
       else Raise IndexError)%res.

Definition replace_special (num : pstr) : res pstr :=
  if str_eqb num (py "000") then Ok (py "@")
  else if str_eqb num (py "998") then Ok (py "/")
  else Ok [10].

(** [re.sub('@([0-9]{3})', f, s)] *)
Fixpoint sub_at (f : pstr -> res pstr) (s : pstr) : res pstr :=
  match s with
  | [] => Ok []
  | c :: s' =>
      match s' with
      | d1 :: d2 :: d3 :: s'' =>
          if (c =? ch "@") && is_digit d1 && is_digit d2 && is_digit d3
          then
            (let? r := f [d1; d2; d3] in
             let? t := sub_at f s'' in
             Ok (r ++ t))%res
          else (let? t := sub_at f s' in Ok (c :: t))%res
      | _ => (let? t := sub_at f s' in Ok (c :: t))%res
      end
  end.

Definition s_decompress (fuel : nat) (x : pstr) : M pstr :=
  let* version := lift (py_int (take 3 x)) in
  let x := drop 3 x in
  match split 10 x with
  | [hd; bd; ft] =>
      match split (ch "/") hd with
      | key :: mkey :: entries =>
          let* mkey := lift (eval_matrix mkey) in
          let* sorted_chunks := r_sort str_ltb fuel (removelast entries) in
          let* body1 := sub_matrix fuel mkey 0 bd in
          let* body2 := lift (sub_at (replace sorted_chunks) body1) in
          let* body3 := lift (sub_at replace_special body2) in
          s_decrypt fuel body3 key
      | _ => fail ValueError
      end
  | _ => fail ValueError
  end.

(* ===================================================================== *)
(** * Part I, continued: the vocabulary of the statements                 *)
(* ===================================================================== *)

(** ** StreamCipher *)

(** A code point that a Python string can hold. *)
Definition code_point (c : Z) : Prop := 0 <= c < 1114112.

(** Helper used to state the properties of [s_decrypt]: the bytes of a
    stream at odd indices. *)
Fixpoint odd_indexed {A} (l : list A) : list A :=
  match l with
  | _ :: y :: l' => y :: odd_indexed l'
  | _ => []
  end.

(** C4 as the specification words it: the payload bytes of the stream are
    the even-indexed ones, each inverted against [key[(i/2) % len(key)]]. *)
Definition payload_at_even_indices : Prop :=
  forall (enc key : pstr) g cur (p : pstr) cur',
    decrypt_attempt 0 enc key g cur = Done p cur' ->
    forall (i : nat) (c x : pchar),
      (i mod 2 = 0)%nat ->
      enc !! i = Some c ->
      p !! (i / 2)%nat = Some x ->
      exists k, key !! ((i / 2) mod length key)%nat = Some k /\
                In x (possibilities k c).

(** The draw that makes [random.choice] pick the plaintext character [c]
    back, when [s_encrypt] read it against the key character [e]. *)
Definition inverting_draw (e c : pchar) : nat :=
  if c <? e - 32 then 0%nat
  else if e <? c - 32 then length (chr_cand (e - (c - e)))
  else (length (chr_cand (e - c)) + length (chr_cand (e + c)))%nat.

Definition inverting_draws (s key : pstr) : nat -> nat :=
  fun n =>
    match s !! n, key !! (n mod length key)%nat with
    | Some c, Some e => inverting_draw e c
    | _, _ => 0%nat
    end.

(** ** MatrixAlgebra *)

(** What [matdiv] accepts as a quotient of [c] by [b], where [d0] and [d1]
    are the numbers of rows and of columns of [b]. *)
Definition solves (c b : matrix) (d0 d1 : nat) (cand : matrix) : Prop :=
  matmul cand b = c /\
  length cand = d1 /\
  Forall (fun r => length r = d0 /\ Forall (fun x => 0 <= x) r) cand.

(** Draws that spell the entries of the matrix [a], row after row, over
    and over; [cols] is the length of its rows. *)
Definition quotient_draws (a : matrix) (cols : nat) : nat -> nat :=
  fun n =>
    let p := (n mod (length a * cols))%nat in
    Z.to_nat (nth (p mod cols)%nat (nth (p / cols)%nat a []) 0).

(** ** OrderingOracle *)

(** Draws on which the shuffle of [r_sort] sorts: at each step [i] the
    element swapped into [x[i]] is one that no element of [x[0..i]]
    exceeds. *)
Section SortingDraws.
Context {A : Type} (lt : A -> A -> bool).

Fixpoint argmax_upto (x : list A) (i : nat) : nat :=
  match i with
  | O => O
  | S i' =>
      let j := argmax_upto x i' in
      match x !! j, x !! i with
      | Some a, Some b => if lt a b then i else j
      | _, _ => j
      end
  end.

Fixpoint sorting_draws_from (i : nat) (x : list A) : list nat :=
  match i with
  | O => []
  | S i' =>
      let j := argmax_upto x i in
      j :: sorting_draws_from i' (swap x i j)
  end.

Definition sorting_draws (x : list A) : nat -> nat :=
  fun n => nth n (sorting_draws_from (length x - 1) x) 0%nat.

(** No later element is less than an earlier one, from position [i] on. *)
Definition sorted_above (i : nat) (x : list A) : Prop :=
  forall p q a b,
    (i < p)%nat -> (q < p)%nat -> x !! p = Some a -> x !! q = Some b ->
    lt a b = false.
End SortingDraws.

(** ** ChecksumTable and Footer Hasher *)

(** The entry that the generation loops store for [byte] in [table[i]]. *)
Definition table_entry (i : nat) (byte : Z) : Z :=
  let b := Z.lxor byte 85 in
  (b + Z.shiftl b (Z.of_nat i) + Z.shiftr b (Z.of_nat i)) mod 256.

(** [table[i]] holds that entry for [byte]. *)
Definition table_holds (i : nat) (byte : Z) : bool :=
  match table !! i with
  | Some d =>
      match dict_get d byte with
      | Ok t => t =? table_entry i byte
      | Raise _ => false
      end
  | None => false
  end.

(** The value of a lower-case hexadecimal digit, and of a two-digit
    group, as [int(s, 16)] reads them. *)
Definition hex_value (c : pchar) : option Z :=
  if (48 <=? c) && (c <=? 57) then Some (c - 48)
  else if (97 <=? c) && (c <=? 102) then Some (c - 87)
  else None.

Definition hex_byte (s : pstr) : option Z :=
  match s with
  | [h; l] =>
      match hex_value h, hex_value l with
      | Some a, Some b => Some (16 * a + b)
      | _, _ => None
      end
  | _ => None
  end.

(** ** The artifact of [s_compress] *)

(** The characters that [s_compress] supports: the printable ASCII range
    of the checksum table, and the newline. *)
Definition printable (c : pchar) : Prop := 32 <= c < 128.

Definition supported (c : pchar) : Prop := printable c \/ c = 10.

Definition supported_token (t : pstr) : Prop :=
  exists c, supported c /\ t = escape c.

(** The text that a chunk contributes to HEAD. *)
Definition head_entry (chunk : list pstr) : pstr := join chunk ++ py "/".

(** A body part that starts with '@' is a reserved escape or a reference
    to one of the first [n] dictionary ranks. *)
Definition body_part_ok (n : Z) (part : pstr) : Prop :=
  forall num, part = ch "@" :: num ->
    reserved num = true \/ exists rank, 1 <= rank <= n /\ num = pad3 rank.

Definition is_token (t : pstr) : Prop := exists c, t = escape c.

(** The number [n] prints as three digits that read back as [n] and are
    none of the reserved codes. *)
Definition rank_printable (n : Z) : bool :=
  negb (reserved (pad3 n)) &&
  (length (pad3 n) =? 3)%nat &&
  forallb is_digit (pad3 n) &&
  match py_int (pad3 n) with
  | Ok k => k =? n
  | Raise _ => false
  end.

(** The footer entry of a chunk. *)
Definition hashed (chunk : list pstr) (h : pstr) : Prop :=
  s_securehash (join (chunk ++ chunk ++ chunk)) = Ok h.

(** The chunks were cut at the positions [ps] of the token stream, from
    left to right and without overlap. *)
Definition extracted_at (tokens : list pstr) (ps : list nat)
    (l : list (list pstr)) : Prop :=
  l = map (fun p => take 5 (drop p tokens)) ps /\
  (forall p, In p ps -> (p + 5 < length tokens)%nat) /\
  (forall a b p q, (a < b)%nat -> ps !! a = Some p -> ps !! b = Some q ->
                   (p + 5 <= q)%nat).

(** The invariant of the scan of [s_compress]; [bound] is the position
    from which the next chunk may be cut. *)
Record scan_inv (tokens hd0 : list pstr) (bound : nat) (st : cstate)
  : Prop := ScanInv {
  inv_positions :
    exists ps, extracted_at tokens ps (l_chunks st) /\
               forall p, In p ps -> (p + 5 <= bound)%nat;
  inv_head : head st = hd0 ++ map head_entry (l_chunks st);
  inv_foot : Forall2 hashed (l_chunks st) (foot st);
  inv_chunks : chunks st = Z.of_nat (length (l_chunks st));
  inv_cap : chunks st <= 997;
  inv_body : Forall (body_part_ok (chunks st)) (body st);
  inv_nonempty : Forall (fun part => part <> []) (body st)
}.

(** C2 as the specification words it: the dictionary entries of HEAD
    (everything after the version, the key and the matrix key) form a
    non-decreasing sequence. *)
Definition head_in_sorted_order : Prop :=
  forall (plaintext : pstr) g cur (hd bd ft : list pstr) cur',
    s_compress_parts plaintext g cur = Done (hd, bd, ft) cur' ->
    forall (i j : nat) (x y : pstr),
      (i < j)%nat ->
      drop 3 hd !! i = Some x -> drop 3 hd !! j = Some y ->
      str_geb y x = true.

(** ** The passes and the errors of [s_decompress] *)

(** A group of three ASCII digits reads back through [int] as its decimal
    value, which is at least 1 unless the group is reserved. *)
Definition reads_back (d1 d2 d3 : pchar) : bool :=
  match py_int [d1; d2; d3] with
  | Ok n =>
      (n =? int_of_digits [d1; d2; d3]) &&
      (reserved [d1; d2; d3] || (1 <=? n))
  | Raise _ => false
  end.

(** The exception classes that the module defines itself, and the
    built-in ones. *)
Definition module_defined (e : exn) : bool :=
  match e with
  | NotSortedException => true
  | _ => false
  end.

Definition builtin (e : exn) : Prop :=
  match e with
  | ValueError | IndexError | KeyError | ZeroDivisionError | TypeError => True
  | NotSortedException | Unmodelled => False
  end.

(** The ways in which an artifact can be malformed. *)
Inductive malformed (x : pstr) : Prop :=
| bad_version :
    py_int (take 3 x) = Raise ValueError -> malformed x
| missing_section :
    length (split 10 (drop 3 x)) <> 3%nat -> malformed x
| missing_head_field (hd bd ft : pstr) :
    split 10 (drop 3 x) = [hd; bd; ft] ->
    (length (split (ch "/") hd) < 2)%nat -> malformed x
| bad_reference (hd bd ft pre rest : pstr) :
    split 10 (drop 3 x) = [hd; bd; ft] ->
    bd = pre ++ ch "@" :: rest ->
    forallb is_digit (take 3 rest) && (length (take 3 rest) =? 3)%nat = false ->
    malformed x
| rank_out_of_range (hd bd ft pre rest : pstr) (d1 d2 d3 : pchar) :
    split 10 (drop 3 x) = [hd; bd; ft] ->
    bd = pre ++ ch "@" :: d1 :: d2 :: d3 :: rest ->
    is_digit d1 = true -> is_digit d2 = true -> is_digit d3 = true ->
    reserved [d1; d2; d3] = false ->
    Z.of_nat (length (split (ch "/") hd)) - 3 < int_of_digits [d1; d2; d3] ->
    malformed x.

(** C9 as the specification words it: a malformed artifact makes
    [s_decompress] fail with a decode error of the module's own. *)
Definition malformed_fails_with_format_error : Prop :=
  forall (x : pstr), malformed x ->
    forall fuel g cur,
      exists e, s_decompress fuel x g cur = Failed e /\
                module_defined e = true.

(** ** Draws of the example runs *)

(** Draws for a run of [s_compress] on a six-character text: the first
    key, a matrix key of ones, two chunks cut at the positions 0 and 5,
    and literal tokens after them. *)
Definition two_chunk_draws : nat -> nat :=
  fun n => if (n <? 10)%nat then 0%nat
           else if (n <? 12)%nat then 8%nat else 0%nat.

(** Draws for [s_decompress] on the artifact of the two-chunk run: one
    draw that makes the shuffle of [r_sort] swap the two HEAD entries,
    then the draws that invert the cipher. *)
Definition swap_then_inverting_draws : nat -> nat :=
  fun n =>
    match n with
    | O => 0%nat
    | S k => inverting_draws (py "aa0aaa") (py "!wes!") k
    end.

(** Draws for a run of [s_compress] on a one-character text: the first
    key, the matrix key [[1, 1, 1], [2, 2, 2], [3, 3, 3]], a literal first
    token and a matrix substitution of the second. *)
Definition singular_key_draws : nat -> nat :=
  fun n => nth n [0; 0; 0; 0; 1; 1; 1; 2; 2; 2; 0; 8]%nat 0%nat.

(** Draws for [s_decompress]: every candidate of [matdiv] is
    [[8, 0, 8], [1, 2, 3], [3, 2, 1]] cut down to the current bound. *)
Definition other_quotient_draws : nat -> nat :=
  fun n => nth (n mod 9) [8; 0; 8; 1; 2; 3; 3; 2; 1]%nat 0%nat.

(** ** Vocabulary of the further properties *)

(** Column [j] of a matrix whose rows all reach index [j]. *)
Definition column (j : nat) (b : matrix) : list Z :=
  map (fun r => nth j r 0) b.

(** A character that [str.encode('ascii')] accepts. *)
Definition ascii_char (c : pchar) : Prop := 0 <= c < 128.

(** A matrix key as [s_compress] draws it: three rows of three entries
    between 1 and 3. *)
Definition key_matrix (m : matrix) : Prop :=
  length m = 3%nat /\
  Forall (fun r => length r = 3%nat /\ Forall (fun x => 1 <= x <= 3) r) m.

(** The artifact that [s_compress] joins when the scan cuts no chunk and
    substitutes no matrix: the three HEAD fields, the escaped ciphertext
    as BODY and an empty FOOT. *)
Definition literal_artifact (key : pstr) (m : matrix) (enc : pstr) : pstr :=
  join_sep [10]
    [join [py "001"; key ++ py "/"; repr_matrix m ++ py "/"];
     join (map escape enc);
     join []].

(** The text holds neither a slash nor a newline, the separators of the
    artifact. *)
Definition no_separator (s : pstr) : Prop :=
  Forall (fun c => c <> ch "/" /\ c <> 10) s.

(** What a part of BODY stands for before the renumbering, in terms of
    the dictionary [L] in extraction order: a token stands for itself,
    the reference number [n + 1] for the chunk [L[n]]. *)
Definition covers (L : list (list pstr)) (part : pstr) (seg : list pstr)
  : Prop :=
  (is_token part /\ seg = [part]) \/
  (exists n : nat, L !! n = Some seg /\ part = ref (Z.of_nat n + 1)).

(** Draws for [s_decompress] on an artifact without matrix literals:
    first the draws on which the shuffle of [r_sort] sorts the HEAD
    entries, then the draws that invert the cipher. *)
Definition sorting_then_inverting_draws (entries : list pstr) (s key : pstr)
  : nat -> nat :=
  fun n =>
    if (n <? length entries - 1)%nat then sorting_draws str_ltb entries n
    else inverting_draws s key (n - (length entries - 1)).

(** The number [n] is printed by [str] as digits that the matrix reader
    turns back into [n], before a comma and before a closing bracket. *)
Definition number_reads_back (n : Z) : bool :=
  forallb is_digit (str_of_int n) &&
  match lex (str_of_int n ++ [44]) None, lex (str_of_int n ++ [93]) None with
  | Ok [TNum a; TComma], Ok [TNum b; TRBr] => (a =? n) && (b =? n)
  | _, _ => false
  end.

(** A 3x3 matrix of numbers between 0 and 400: the matrix keys and the
    products that the matrix substitution prints are of this kind. *)
Definition small_matrix (m : matrix) : Prop :=
  length m = 3%nat /\
  Forall (fun r => length r = 3%nat /\ Forall (fun x => 0 <= x <= 400) r) m.

(** The determinant of a 3x3 matrix. *)
Definition det3 (m : matrix) : Z :=
  match m with
  | [[a; b; c]; [d; e; f]; [g; h; i]] =>
      a * (e * i - f * h) - b * (d * i - f * g) + c * (d * h - e * g)
  | _ => 0
  end.

(** The part of BODY that the matrix substitution writes for the token
    [tok] under the matrix key [m]. *)
Definition matrix_part (m : matrix) (tok part : pstr) : Prop :=
  exists lst1,
    seed_matrix tok = Ok lst1 /\
    part = py "/" ++ repr_matrix (matmul lst1 m) ++ py "/".

(** What a part of BODY stands for when the scan may also substitute
    matrices: as [covers], or a matrix part for its token. *)
Definition stands_for (m : matrix) (L : list (list pstr)) (part : pstr)
    (seg : list pstr) : Prop :=
  covers L part seg \/
  (exists tok, supported_token tok /\ seg = [tok] /\ matrix_part m tok part).

(** Draws for a run of [s_compress] that picks the first key, draws the
    matrix key [[1, 1, 2], [1, 2, 1], [2, 1, 1]], whose determinant is
    -4, substitutes a matrix for the first token and copies the
    others. *)
Definition invertible_key_draws : nat -> nat :=
  fun n => nth n [0; 0; 0; 1; 0; 1; 0; 1; 0; 0; 8]%nat 0%nat.

(** ** Vocabulary of the search of [s_decrypt] *)

(** The character that [random.choice(possibilities)] returns on the raw
    draw [r]: the list position [r % len(possibilities)]. *)
Definition pick (k c : pchar) (r : nat) : pchar :=
  nth (r mod length (possibilities k c)) (possibilities k c) c.

(** The number of positions of [possibilities] that hold [x].  The
    choice is uniform over the positions, so [x] is returned with
    probability [weight k c x / len(possibilities)]. *)
Definition weight (k c x : pchar) : nat :=
  length (List.filter (Z.eqb x) (possibilities k c)).

(** C4 as the specification words it, the choice: any two members of the
    candidate set are equally likely. *)
Definition members_chosen_uniformly : Prop :=
  forall k c x y : pchar,
    code_point k -> code_point c ->
    In x (possibilities k c) -> In y (possibilities k c) ->
    weight k c x = weight k c y.

(** ** Vocabulary of the artifact *)

(** An outcome that the embedding vouches for: the run has not left the
    part of [int] and [eval] that is modelled. *)
Definition modelled {A} (o : outcome A) : Prop := o <> Failed Unmodelled.

(** [res] is the dictionary in sorted order: a permutation of the entries
    in which no later entry is less than an earlier one.  [r_sort]
    returns nothing else. *)
Definition sorted_dictionary (entries res : list pstr) : Prop :=
  res ≡ₚ entries /\
  forall (i j : nat) (a b : pstr),
    (i < j)%nat -> res !! i = Some a -> res !! j = Some b ->
    str_ltb b a = false.

(** What a part of BODY stands for while the scan runs, for the
    dictionary [L] in extraction order: a token stands for itself, a
    matrix literal for its token, the reference number [n + 1] for the
    chunk [L[n]]. *)
Definition scan_part (m : matrix) (L : list (list pstr)) (part : pstr)
    (seg : list pstr) : Prop :=
  (is_token part /\ seg = [part]) \/
  (exists tok, seg = [tok] /\ matrix_part m tok part) \/
  (exists n : nat, L !! n = Some seg /\ part = ref (Z.of_nat n + 1)).

(** What a part of the BODY that [s_compress] returns stands for: a
    token for itself, a matrix literal for its token, and a reference
    for a chunk of the dictionary, which it names by the rank of the
    chunk in the sorted dictionary. *)
Definition ranked_part (m : matrix) (L : list (list pstr)) (part : pstr)
    (seg : list pstr) : Prop :=
  (is_token part /\ seg = [part]) \/
  (exists tok, seg = [tok] /\ matrix_part m tok part) \/
  (exists r : nat,
     part = ref (Z.of_nat r + 1) /\
     (r < length L)%nat /\
     In seg L /\
     forall res, sorted_dictionary (map join L) res ->
                 res !! r = Some (join seg)).

(** The same parts, by the number that a reference prints: a rank
    between 1 and the size of the dictionary, in three digits that are
    none of the reserved codes. *)
Definition consistent_part (m : matrix) (L : list (list pstr)) (part : pstr)
    (seg : list pstr) : Prop :=
  (is_token part /\ seg = [part]) \/
  (exists tok, seg = [tok] /\ matrix_part m tok part) \/
  (exists rank : Z,
     part = ch "@" :: pad3 rank /\
     1 <= rank <= Z.of_nat (length L) /\
     In seg L /\
     reserved (pad3 rank) = false /\
     length (pad3 rank) = 3%nat /\
     forallb is_digit (pad3 rank) = true /\
     py_int (pad3 rank) = Ok rank).

(** The text of an artifact, from its fields: a version of three
    characters, the key, the text of the matrix key, the dictionary
    entries, BODY and FOOT. *)
Definition artifact (v key mkey_text : pstr) (entries : list pstr)
    (bd ft : pstr) : pstr :=
  v ++ (key ++ py "/" ++ mkey_text ++ py "/"
        ++ join (map (fun e => e ++ py "/") entries))
    ++ [10] ++ bd ++ [10] ++ ft.

(** The fields are such that [s_decompress] finds them again: the
    version is read by [int], the matrix key by [eval], and no field
    holds a separator of the level above it. *)
Record fields_ok (v key mkey_text : pstr) (entries : list pstr)
    (ft : pstr) (mkey : matrix) : Prop := FieldsOk {
  fields_version : length v = 3%nat /\ exists n, py_int v = Ok n;
  fields_key : no_separator key;
  fields_mkey : no_separator mkey_text /\ eval_matrix mkey_text = Ok mkey;
  fields_entries : Forall no_separator entries;
  fields_foot : Forall (fun c => c <> 10) ft
}.

(** ** Vocabulary of the three passes over BODY *)

(** BODY as the first pass reads it: matrix literals between slashes,
    and the characters between them. *)
Inductive mpiece : Type :=
| MChar (c : pchar)
| MLit (group : pstr).

Definition mpiece_text (p : mpiece) : pstr :=
  match p with
  | MChar c => [c]
  | MLit group => py "/" ++ group ++ py "/"
  end.

Definition mtext (ps : list mpiece) : pstr := concat (map mpiece_text ps).

(** Every literal is one: a first character other than the newline, then
    characters other than the slash and the newline; and no character
    outside the literals opens one: it is no newline, and if it is a
    slash, then no slash closes a literal after it. *)
Fixpoint matrix_view (ps : list mpiece) : bool :=
  match ps with
  | [] => true
  | MChar c :: ps' =>
      negb (c =? 10) &&
      (negb (c =? ch "/") ||
       forallb (fun x => negb (x =? ch "/")) (tail (mtext ps'))) &&
      matrix_view ps'
  | MLit group :: ps' =>
      match group with
      | [] => false
      | c1 :: group' =>
          negb (c1 =? 10) &&
          forallb (fun x => negb (x =? ch "/") && negb (x =? 10)) group'
      end &&
      matrix_view ps'
  end.

(** The first pass: every literal is replaced by what [matrix_fix]
    returns for it, from left to right. *)
Fixpoint fix_all (fuel : nat) (mkey : matrix) (ps : list mpiece) : M pstr :=
  match ps with
  | [] => ret []
  | MChar c :: ps' =>
      let* t := fix_all fuel mkey ps' in
      ret (c :: t)
  | MLit group :: ps' =>
      let* r := matrix_fix fuel mkey group in
      let* t := fix_all fuel mkey ps' in
      ret (r ++ t)
  end.

(** A text as the second and the third pass read it: codes of an '@'
    and three digits, and the characters between them. *)
Inductive piece : Type :=
| PChar (c : pchar)
| PCode (d1 d2 d3 : pchar).

Definition piece_text (p : piece) : pstr :=
  match p with
  | PChar c => [c]
  | PCode d1 d2 d3 => [ch "@"; d1; d2; d3]
  end.

Definition ptext (ps : list piece) : pstr := concat (map piece_text ps).

Definition starts_with_digits (s : pstr) : bool :=
  match s with
  | d1 :: d2 :: d3 :: _ => is_digit d1 && is_digit d2 && is_digit d3
  | _ => false
  end.

(** Every code has three digits, and no '@' outside the codes is
    followed by three digits. *)
Fixpoint code_view (ps : list piece) : bool :=
  match ps with
  | [] => true
  | PChar c :: ps' =>
      negb ((c =? ch "@") && starts_with_digits (ptext ps')) &&
      code_view ps'
  | PCode d1 d2 d3 :: ps' =>
      is_digit d1 && is_digit d2 && is_digit d3 && code_view ps'
  end.

(** [re.sub] calls its function on the digits of every code and copies
    the other characters. *)
Definition apply_code (f : pstr -> res pstr) (p : piece) : res pstr :=
  match p with
  | PChar c => Ok [c]
  | PCode d1 d2 d3 => f [d1; d2; d3]
  end.

(** The second pass on one piece: a reserved code is put back, any other
    code is replaced by the chunk at its rank in the sorted dictionary. *)
Definition resolve (sorted_chunks : list pstr) (p : piece) : res pstr :=
  match p with
  | PChar c => Ok [c]
  | PCode d1 d2 d3 =>
      if reserved [d1; d2; d3] then Ok [ch "@"; d1; d2; d3]
      else index sorted_chunks (Z.to_nat (int_of_digits [d1; d2; d3] - 1))
  end.

(** The third pass on one piece: the codes 000 and 998 become '@' and
    '/', and any other code a newline. *)
Definition unescape (p : piece) : pstr :=
  match p with
  | PChar c => [c]
  | PCode d1 d2 d3 =>
      if str_eqb [d1; d2; d3] (py "000") then py "@"
      else if str_eqb [d1; d2; d3] (py "998") then py "/"
      else [10]
  end.

(** No '@' of the text is followed by three digits. *)
Fixpoint no_reference (s : pstr) : bool :=
  match s with
  | [] => true
  | c :: s' =>
      negb ((c =? ch "@") && starts_with_digits s') && no_reference s'
  end.

(* ===================================================================== *)
(** * Part II: properties                                                 *)
(* ===================================================================== *)

(** ** Reasoning about the two monads *)

Lemma res_bind_Ok {A B} (r : res A) (k : A -> res B) (b : B) :
  res_bind r k = Ok b <-> exists a, r = Ok a /\ k a = Ok b.
Proof.
  destruct r as [a|e]; simpl; split.
  - eauto.
  - intros (a' & Ha & Hk). by inversion Ha.
  - discriminate.
  - intros (a' & Ha & _). discriminate.
Qed.

Lemma bind_Done {A B} (m : M A) (k : A -> M B) g cur b cur' :
  bind m k g cur = Done b cur' <->
  exists a c1, m g cur = Done a c1 /\ k a g c1 = Done b cur'.
Proof.
  unfold bind. destruct (m g cur) as [a c1| |]; split.
  - eauto.
  - intros (a' & c' & Ha & Hk). by inversion Ha.
  - discriminate.
  - intros (? & ? & Ha & _). discriminate.
  - discriminate.
  - intros (? & ? & Ha & _). discriminate.
Qed.

Lemma ret_Done {A} (a b : A) g cur cur' :
  ret a g cur = Done b cur' <-> a = b /\ cur' = cur.
Proof. unfold ret. split; [intros H; by inversion H | intros [-> ->]; done]. Qed.

Lemma lift_Done {A} (r : res A) g cur a cur' :
  lift r g cur = Done a cur' <-> r = Ok a /\ cur' = cur.
Proof.
  destruct r as [x|e]; simpl; unfold ret, fail; split.
  - intros H. by inversion H.
  - intros [H ->]. by inversion H.
  - discriminate.
  - intros [H _]. discriminate.
Qed.

Lemma draw_Done g cur r cur' :
  draw g cur = Done r cur' <-> r = g cur /\ cur' = S cur.
Proof. unfold draw. split; [intros H; by inversion H | intros [-> ->]; done]. Qed.

(** Decompose a successful run into the successful runs of its steps. *)
Ltac inv_run :=
  repeat match goal with
  | H : bind _ _ _ _ = Done _ _ |- _ =>
      apply bind_Done in H; destruct H as (? & ? & ? & H)
  | H : ret _ _ _ = Done _ _ |- _ =>
      apply ret_Done in H; destruct H as [? ?]; subst
  | H : lift _ _ _ = Done _ _ |- _ =>
      apply lift_Done in H; destruct H as [? ?]; subst
  | H : draw _ _ = Done _ _ |- _ =>
      apply draw_Done in H; destruct H as [? ?]; subst
  | H : fail _ _ _ = Done _ _ |- _ => discriminate H
  | H : timeout _ _ = Done _ _ |- _ => discriminate H
  | H : res_bind _ _ = Ok _ |- _ =>
      apply res_bind_Ok in H; destruct H as (? & ? & H)
  | H : Ok _ = Ok _ |- _ => inversion H; clear H; subst
  | H : Raise _ = Ok _ |- _ => discriminate H
  end.

Lemma bind_step {A B} (m : M A) (k : A -> M B) g cur a c1 :
  m g cur = Done a c1 -> bind m k g cur = k a g c1.
Proof. unfold bind. by intros ->. Qed.

Lemma lift_Ok_run {A} (r : res A) (a : A) g cur :
  r = Ok a -> lift r g cur = Done a cur.
Proof. by intros ->. Qed.

Lemma str_eqb_eq (a b : pstr) : str_eqb a b = true <-> a = b.
Proof.
  revert b. induction a as [|x a IH]; intros [|y b]; simpl; try easy.
  rewrite andb_true_iff, Z.eqb_eq, IH. split.
  - by intros [-> ->].
  - intros H. by inversion H.
Qed.

Lemma chr_Ok (n c : Z) : chr n = Ok c <-> c = n /\ code_point n.
Proof.
  unfold chr, code_point.
  destruct (0 <=? n) eqn:H0; destruct (n <? 1114112) eqn:H1; simpl;
    split; try discriminate; try (intros [_ ?]; lia).
  intros H. inversion H. lia.
  by intros [-> _].
Qed.

Lemma py_mod_Ok (i n r : nat) :
  py_mod i n = Ok r <-> n <> 0%nat /\ r = (i mod n)%nat.
Proof.
  unfold py_mod. destruct n; split; try discriminate.
  - by intros [? _].
  - intros H. by inversion H.
  - by intros [_ ->].
Qed.

Lemma index_Ok {A} (xs : list A) (i : nat) (x : A) :
  index xs i = Ok x <-> xs !! i = Some x.
Proof.
  unfold index. destruct (xs !! i); split; try discriminate.
  - intros H. by inversion H.
  - intros H. by inversion H.
Qed.

(** ** StreamCipher *)

Section Cipher.
Implicit Types (s p enc key : pstr) (i : nat).

(** One plaintext character gives two ciphertext characters. *)
Lemma s_encrypt_from_cons i c s key out :
  s_encrypt_from i (c :: s) key = Ok out ->
  exists e tag pay tl,
    key !! (i mod length key)%nat = Some e /\
    out = tag :: pay :: tl /\
    s_encrypt_from (S i) s key = Ok tl /\
    ((tag = ch "A" /\ c < e - 32 /\ pay = e - c) \/
     (tag = ch "B" /\ ~ c < e - 32 /\ e < c - 32 /\ pay = c - e) \/
     (tag = ch "C" /\ ~ c < e - 32 /\ ~ e < c - 32 /\ pay = c)).
Proof.
  simpl. unfold ord. intros H.
  apply res_bind_Ok in H as (n & Hn & H).
  apply py_mod_Ok in Hn as [_ ->].
  apply res_bind_Ok in H as (e & He & H).
  apply index_Ok in He.
  apply res_bind_Ok in H as (pair & Hpair & H).
  apply res_bind_Ok in H as (tl & Htl & H).
  inversion H; subst; clear H.
  exists e.
  destruct (c <? e - 32) eqn:HA; [|destruct (e <? c - 32) eqn:HB].
  - apply res_bind_Ok in Hpair as (pay & Hchr & Hpair).
    apply chr_Ok in Hchr as [-> _]. inversion Hpair; subst.
    eexists _, _, _. repeat split; eauto. left. lia.
  - apply res_bind_Ok in Hpair as (pay & Hchr & Hpair).
    apply chr_Ok in Hchr as [-> _]. inversion Hpair; subst.
    eexists _, _, _. repeat split; eauto. right; left. lia.
  - inversion Hpair; subst.
    eexists _, _, _. repeat split; eauto. right; right. lia.
Qed.

(** For a fixed key, [s_encrypt] is injective. *)
Lemma s_encrypt_from_inj s1 : forall s2 i key out,
  s_encrypt_from i s1 key = Ok out ->
  s_encrypt_from i s2 key = Ok out ->
  s1 = s2.
Proof.
  induction s1 as [|c1 s1 IH]; intros [|c2 s2] i key out H1 H2.
  - done.
  - apply s_encrypt_from_cons in H2 as (? & ? & ? & ? & _ & -> & _).
    simpl in H1. discriminate.
  - apply s_encrypt_from_cons in H1 as (? & ? & ? & ? & _ & -> & _).
    simpl in H2. discriminate.
  - apply s_encrypt_from_cons in H1
      as (e1 & t1 & p1 & tl1 & He1 & -> & Htl1 & Hc1).
    apply s_encrypt_from_cons in H2
      as (e2 & t2 & p2 & tl2 & He2 & Heq & Htl2 & Hc2).
    inversion Heq; subst; clear Heq.
    rewrite He1 in He2. inversion He2; subst; clear He2.
    f_equal; [|by eapply IH].
    unfold ch in *. simpl in *.
    destruct Hc1 as [(? & ? & ?)|[(? & ? & ? & ?)|(? & ? & ? & ?)]];
      destruct Hc2 as [(? & ? & ?)|[(? & ? & ? & ?)|(? & ? & ? & ?)]];
      lia.
Qed.

(** The loop of [s_decrypt] returns only a plaintext that encrypts to
    the ciphertext. *)
Lemma s_decrypt_loop_accepts fuel : forall enc key p0 g cur p cur',
  s_decrypt_loop fuel enc key p0 g cur = Done p cur' ->
  s_encrypt p key = Ok enc.
Proof.
  induction fuel as [|fuel IH]; intros enc key p0 g cur p cur' H;
    simpl in H; destruct (s_encrypt p0 key) as [again|] eqn:Hp0;
    try discriminate;
    destruct (str_eqb enc again) eqn:Heq.
  - apply str_eqb_eq in Heq. inv_run. congruence.
  - discriminate.
  - apply str_eqb_eq in Heq. inv_run. congruence.
  - inv_run. eauto.
Qed.
End Cipher.

(** C3.  For every plaintext [s] and key [k] on which [s_encrypt] returns,
    every run of [s_decrypt] on the ciphertext that returns (whatever the
    random draws and the number of retries) returns exactly [s]. *)
Theorem s_decrypt_inverts_s_encrypt (s k c : pstr) (fuel : nat)
    (g : nat -> nat) (cur : nat) (p : pstr) (cur' : nat) :
  s_encrypt s k = Ok c ->
  s_decrypt fuel c k g cur = Done p cur' ->
  p = s.
Proof.
  intros Henc Hdec.
  apply s_decrypt_loop_accepts in Hdec.
  by eapply s_encrypt_from_inj.
Qed.

Section CipherSearch.
Implicit Types (s p enc key : pstr) (i j : nat).

Lemma list_pair_ind {A} (P : list A -> Prop) :
  P [] -> (forall x, P [x]) -> (forall x y l, P l -> P (x :: y :: l)) ->
  forall l, P l.
Proof.
  intros H0 H1 H2.
  assert (forall l, P l /\ forall x, P (x :: l)) as H.
  { induction l as [|y l [IH1 IH2]]; split; auto. }
  intros l. apply H.
Qed.

Lemma odd_indexed_lookup {A} (l : list A) : forall j,
  odd_indexed l !! j = l !! (2 * j + 1)%nat.
Proof.
  induction l as [| x | x y l IH] using list_pair_ind; intros j.
  - done.
  - by destruct j.
  - destruct j as [|j]; [done|].
    replace (2 * S j + 1)%nat with (S (S (2 * j + 1))) by lia.
    simpl. apply IH.
Qed.

Lemma odd_indexed_length {A} (l : list A) :
  length (odd_indexed l) = (length l / 2)%nat.
Proof.
  induction l as [| x | x y l IH] using list_pair_ind; [done..|].
  cbn [odd_indexed length]. rewrite IH.
  change (S (S (length l))) with (1 * 2 + length l)%nat.
  rewrite Nat.div_add_l by lia. lia.
Qed.

Lemma even_step j : ((2 * j) mod 2 =? 0)%nat = true.
Proof.
  apply Nat.eqb_eq. rewrite Nat.mul_comm. apply Nat.Div0.mod_mul.
Qed.

Lemma odd_step j : (S (2 * j) mod 2 =? 0)%nat = false.
Proof.
  apply Nat.eqb_neq.
  replace (S (2 * j)) with (1 + j * 2)%nat by lia.
  rewrite Nat.Div0.mod_add. done.
Qed.

Lemma odd_half j : (S (2 * j) / 2)%nat = j.
Proof.
  replace (S (2 * j)) with (1 + j * 2)%nat by lia.
  rewrite Nat.div_add by lia. done.
Qed.

(** Two steps of the [for] loop: a tag is skipped, a payload byte is
    inverted. *)
Lemma decrypt_attempt_pair j tag c rest key :
  decrypt_attempt (2 * j) (tag :: c :: rest) key =
  (let* n := lift (py_mod j (length key)) in
   let* k := lift (index key n) in
   let* p := choice (possibilities k c) in
   let* ps := decrypt_attempt (2 * S j) rest key in
   ret (p :: ps)).
Proof.
  cbn [decrypt_attempt]. rewrite even_step, odd_step, odd_half.
  replace (S (S (2 * j))) with (2 * S j)%nat by lia. done.
Qed.

Lemma decrypt_attempt_single j tag key :
  decrypt_attempt (2 * j) [tag] key = ret [].
Proof. cbn [decrypt_attempt]. by rewrite even_step. Qed.

(** The candidate generation reads the odd-indexed bytes only. *)
Lemma decrypt_attempt_ignores_tags enc : forall enc' j key g cur,
  odd_indexed enc = odd_indexed enc' ->
  decrypt_attempt (2 * j) enc key g cur =
  decrypt_attempt (2 * j) enc' key g cur.
Proof.
  induction enc as [| x | x y enc IH] using list_pair_ind;
    intros enc' j key g cur Hodd.
  - destruct enc' as [|x' [|y' enc']]; try done.
    by rewrite decrypt_attempt_single.
  - rewrite decrypt_attempt_single.
    destruct enc' as [|x' [|y' enc']]; try done.
    by rewrite decrypt_attempt_single.
  - destruct enc' as [|x' [|y' enc']]; try done.
    simpl in Hodd. inversion Hodd; subst.
    rewrite !decrypt_attempt_pair. unfold bind.
    destruct (lift (py_mod j (length key)) g cur) as [n c1| |]; try done.
    destruct (lift (index key n) g c1) as [k c2| |]; try done.
    destruct (choice (possibilities k y') g c2) as [p c3| |]; try done.
    by rewrite (IH enc' (S j) key g c3).
Qed.

Lemma choice_Done {A} (l : list A) g cur x cur' :
  choice l g cur = Done x cur' ->
  l !! (g cur mod length l)%nat = Some x /\ cur' = S cur.
Proof.
  destruct l as [|a l]; [done|].
  unfold choice. intros H. inv_run.
  match goal with H : index _ _ = Ok _ |- _ => apply index_Ok in H end.
  done.
Qed.

Lemma choice_pick {A} (l : list A) (r : nat) (x : A) g cur :
  l !! r = Some x -> g cur = r -> choice l g cur = Done x (S cur).
Proof.
  intros Hl Hg. destruct l as [|a l]; [done|].
  unfold choice, bind, draw. rewrite Hg.
  apply lookup_lt_Some in Hl as Hlt.
  rewrite Nat.mod_small by done.
  unfold index. by rewrite Hl.
Qed.

(** Every character of a candidate plaintext comes from the
    possibilities of the payload byte at the same position. *)
Lemma decrypt_attempt_candidates enc : forall j key g cur p cur',
  decrypt_attempt (2 * j) enc key g cur = Done p cur' ->
  length p = length (odd_indexed enc) /\
  forall t c x,
    odd_indexed enc !! t = Some c -> p !! t = Some x ->
    exists k, key !! ((j + t) mod length key)%nat = Some k /\
              In x (possibilities k c).
Proof.
  induction enc as [| x0 | x0 y enc IH] using list_pair_ind;
    intros j key g cur p cur' H.
  - simpl in H. inv_run. done.
  - rewrite decrypt_attempt_single in H. inv_run. done.
  - rewrite decrypt_attempt_pair in H.
    apply bind_Done in H as (n & c1 & Hn & H).
    apply lift_Done in Hn as [Hn ->]. apply py_mod_Ok in Hn as [_ ->].
    apply bind_Done in H as (k & c2 & Hk & H).
    apply lift_Done in Hk as [Hk ->]. apply index_Ok in Hk.
    apply bind_Done in H as (q & c3 & Hq & H).
    apply choice_Done in Hq as [Hq ->].
    apply bind_Done in H as (ps & c4 & Hps & H).
    apply ret_Done in H as [<- ->].
    apply IH in Hps as [Hlen Hps]. split; [simpl; lia|].
    intros [|t] c x; simpl; intros Hc Hx.
    + inversion Hc; inversion Hx; subst. exists k.
      rewrite Nat.add_0_r. split; [done|].
      apply list_elem_of_In, list_elem_of_lookup. eauto.
    + replace (j + S t)%nat with (S j + t)%nat by lia. eauto.
Qed.

Lemma chr_cand_In n x : In x (chr_cand n) <-> x = n /\ code_point n.
Proof.
  unfold chr_cand. destruct (chr n) as [c|e] eqn:H.
  - apply chr_Ok in H as [-> Hn]. simpl. intuition.
  - simpl. split; [done|]. intros [-> Hn].
    assert (chr n = Ok n) as H' by by apply chr_Ok. congruence.
Qed.

(** The possibilities are the representable ones among
    [chr(k - c)], [chr(k + c)] and [c]. *)
Lemma possibilities_In k c x :
  In x (possibilities k c) <->
  (x = k - c /\ code_point (k - c)) \/
  (x = k + c /\ code_point (k + c)) \/
  x = c.
Proof.
  unfold possibilities, ord.
  rewrite !in_app_iff, !chr_cand_In. simpl. intuition.
Qed.

(** The draws of [inverting_draws] rebuild the plaintext in one pass. *)
Lemma decrypt_attempt_inverting s : forall j key enc g cur,
  Forall code_point s ->
  s_encrypt_from j s key = Ok enc ->
  (forall t c e, s !! t = Some c ->
                 key !! ((j + t) mod length key)%nat = Some e ->
                 g (cur + t)%nat = inverting_draw e c) ->
  decrypt_attempt (2 * j) enc key g cur = Done s (cur + length s)%nat.
Proof.
  induction s as [|c s IH]; intros j key enc g cur Hs Henc Hg.
  - simpl in Henc. inversion Henc. simpl. unfold ret. f_equal. lia.
  - apply s_encrypt_from_cons in Henc
      as (e & tag & pay & tl & He & -> & Htl & Hcase).
    inversion Hs as [|? ? Hc Hs']; subst.
    rewrite decrypt_attempt_pair.
    assert (length key <> 0%nat) as Hlen.
    { intros Hz. apply lookup_lt_Some in He. lia. }
    assert (possibilities e pay !! inverting_draw e c = Some c) as Hpick.
    { unfold possibilities, inverting_draw, ord, chr_cand.
      destruct Hcase as [(_ & HA & ->)|[(_ & HA & HB & ->)|(_ & HA & HB & ->)]].
      - destruct (c <? e - 32) eqn:E; [|lia].
        replace (e - (e - c)) with c by lia.
        assert (chr c = Ok c) as -> by by apply chr_Ok. done.
      - destruct (c <? e - 32) eqn:E; [lia|].
        destruct (e <? c - 32) eqn:E'; [|lia].
        replace (e + (c - e)) with c by lia.
        assert (chr c = Ok c) as -> by by apply chr_Ok.
        destruct (chr (e - (c - e))); simpl; done.
      - destruct (c <? e - 32) eqn:E; [lia|].
        destruct (e <? c - 32) eqn:E'; [lia|].
        destruct (chr (e - c)); destruct (chr (e + c)); simpl; done. }
    rewrite (bind_step _ _ g cur (j mod length key)%nat cur).
    2:{ apply lift_Ok_run. by apply py_mod_Ok. }
    rewrite (bind_step _ _ g cur e cur).
    2:{ apply lift_Ok_run. by apply index_Ok. }
    rewrite (bind_step _ _ g cur c (S cur)).
    2:{ apply (choice_pick _ _ _ g cur Hpick).
        rewrite <- (Nat.add_0_r cur). apply Hg; [done|].
        by rewrite Nat.add_0_r. }
    rewrite (bind_step _ _ g (S cur) s (S cur + length s)%nat).
    + unfold ret. f_equal. simpl. lia.
    + apply IH; [done..|].
      intros t c' e' Hc' He'.
      replace (S cur + t)%nat with (cur + S t)%nat by lia.
      apply Hg; [done|].
      by replace (j + S t)%nat with (S j + t)%nat by lia.
Qed.
End CipherSearch.

Lemma s_decrypt_loop_S fuel enc key p0 :
  s_decrypt_loop (S fuel) enc key p0 =
  match s_encrypt p0 key with
  | Raise e => fail e
  | Ok again =>
      if str_eqb enc again then ret p0
      else let* cand := decrypt_attempt 0 enc key in
           s_decrypt_loop fuel enc key cand
  end.
Proof. reflexivity. Qed.

Lemma s_decrypt_loop_accept fuel enc key p0 :
  s_encrypt p0 key = Ok enc -> s_decrypt_loop fuel enc key p0 = ret p0.
Proof.
  intros H. assert (str_eqb enc enc = true) as He by by apply str_eqb_eq.
  destruct fuel; simpl; by rewrite H, He.
Qed.

(** X4.  The search of [s_decrypt] can succeed at its first attempt: on the
    ciphertext of any string of code points there are draws on which it
    returns, and then it returns the plaintext. *)
Theorem s_decrypt_can_return (s k c : pstr) :
  Forall code_point s ->
  s_encrypt s k = Ok c ->
  s_decrypt 1 c k (inverting_draws s k) 0%nat = Done s (length s).
Proof.
  intros Hs Henc. unfold s_decrypt. rewrite s_decrypt_loop_S.
  change (s_encrypt [] k) with (Ok (@nil Z)).
  destruct c as [|t c]; cbn [str_eqb].
  - destruct s as [|c0 s]; [done|].
    apply s_encrypt_from_cons in Henc as (? & ? & ? & ? & _ & ? & _).
    discriminate.
  - rewrite (bind_step _ _ _ 0%nat s (length s)).
    + by rewrite (s_decrypt_loop_accept _ _ _ _ Henc).
    + apply (decrypt_attempt_inverting s 0 k (t :: c) _ 0%nat Hs Henc).
      intros t' c' e' Hc' He'. unfold inverting_draws. simpl in *.
      by rewrite Hc', He'.
Qed.

(** Witness of C3: the ciphertext of "hi" under the key "!wes!". *)
Lemma s_decrypt_inverts_s_encrypt_witness :
  s_encrypt (py "hi") (py "!wes!") = Ok (py "BGCi") /\
  s_decrypt 1 (py "BGCi") (py "!wes!")
    (inverting_draws (py "hi") (py "!wes!")) 0%nat
  = Done (py "hi") 2%nat /\
  py "hi" = py "hi".
Proof.
  split; [reflexivity|]. split; [reflexivity|].
  apply (s_decrypt_inverts_s_encrypt (py "hi") (py "!wes!") (py "BGCi")
           1%nat (inverting_draws (py "hi") (py "!wes!")) 0%nat
           (py "hi") 2%nat); reflexivity.
Defined.

(** The payload is not at the even indices: on the stream "Ca" with key
    "!" the loop skips index 0 (the tag 'C') and inverts index 1 (the
    payload 'a'); the character it produces, 'a', is no candidate of the
    byte at the even index. *)
Lemma payload_at_even_indices_fails : ~ payload_at_even_indices.
Proof.
  intros H.
  destruct (H (py "Ca") (py "!") (fun _ => 1%nat) 0%nat (py "a") 1%nat
              eq_refl 0%nat (ch "C") (ch "a") eq_refl eq_refl eq_refl)
    as (k & Hk & Hin).
  vm_compute in Hk. inversion Hk; subst k.
  vm_compute in Hin. intuition discriminate.
Qed.

(** ** MatrixAlgebra *)

Lemma row_eqb_eq (a b : list Z) : row_eqb a b = true <-> a = b.
Proof. apply str_eqb_eq. Qed.

Lemma mat_eqb_eq (a : matrix) : forall b, mat_eqb a b = true <-> a = b.
Proof.
  induction a as [|r a IH]; intros [|s b]; simpl; try easy.
  rewrite andb_true_iff, row_eqb_eq, IH. split.
  - by intros [-> ->].
  - intros H. by inversion H.
Qed.

Lemma randint_range lo hi g cur x cur' :
  lo <= hi ->
  randint lo hi g cur = Done x cur' ->
  lo <= x <= hi.
Proof.
  intros Hle H. unfold randint in H.
  apply bind_Done in H as (r & c1 & _ & H).
  apply ret_Done in H as [<- _].
  pose proof (Z.mod_pos_bound (Z.of_nat r) (hi - lo + 1)). lia.
Qed.

Lemma rand_row_range n lo hi : forall g cur r cur',
  lo <= hi ->
  rand_row n lo hi g cur = Done r cur' ->
  length r = n /\ Forall (fun x => lo <= x <= hi) r.
Proof.
  induction n as [|n IH]; intros g cur r cur' Hle H; simpl in H.
  - apply ret_Done in H as [<- _]. by split.
  - apply bind_Done in H as (x & c1 & Hx & H).
    apply bind_Done in H as (xs & c2 & Hxs & H).
    apply ret_Done in H as [<- _].
    apply randint_range in Hx; [|done].
    apply IH in Hxs as [Hlen Hall]; [|done].
    split; [simpl; lia | by constructor].
Qed.

Lemma rand_matrix_range rows cols lo hi : forall g cur m cur',
  lo <= hi ->
  rand_matrix rows cols lo hi g cur = Done m cur' ->
  length m = rows /\
  Forall (fun r => length r = cols /\ Forall (fun x => lo <= x <= hi) r) m.
Proof.
  induction rows as [|rows IH]; intros g cur m cur' Hle H; simpl in H.
  - apply ret_Done in H as [<- _]. by split.
  - apply bind_Done in H as (r & c1 & Hr & H).
    apply bind_Done in H as (rs & c2 & Hrs & H).
    apply ret_Done in H as [<- _].
    apply rand_row_range in Hr; [|done].
    apply IH in Hrs as [Hlen Hall]; [|done].
    split; [simpl; lia | by constructor].
Qed.

Lemma matdiv_tries_solves n c b d0 d1 maxv : forall g cur cand cur',
  0 <= maxv ->
  matdiv_tries n c b d0 d1 maxv g cur = Done (Some cand) cur' ->
  solves c b d0 d1 cand.
Proof.
  induction n as [|n IH]; intros g cur cand cur' Hmax H; simpl in H.
  - apply ret_Done in H as [H _]. discriminate.
  - apply bind_Done in H as (m & c1 & Hm & H).
    destruct (mat_eqb (matmul m b) c) eqn:Heq.
    + apply ret_Done in H as [H _]. inversion H; subst m.
      apply mat_eqb_eq in Heq.
      apply rand_matrix_range in Hm as [Hlen Hall]; [|done].
      repeat split; [done..|].
      eapply Forall_impl; [exact Hall|].
      intros r [Hr Hx]. split; [done|].
      eapply Forall_impl; [exact Hx|]. simpl. lia.
    + eauto.
Qed.

Lemma matdiv_loop_solves fuel c b d0 d1 : forall maxv g cur cand cur',
  0 <= maxv ->
  matdiv_loop fuel c b d0 d1 maxv g cur = Done cand cur' ->
  solves c b d0 d1 cand.
Proof.
  induction fuel as [|fuel IH]; intros maxv g cur cand cur' Hmax H;
    simpl in H; [discriminate|].
  apply bind_Done in H as ([found|] & c1 & Htry & H).
  - apply ret_Done in H as [<- _].
    eapply matdiv_tries_solves; [|exact Htry]. lia.
  - eapply IH; [|exact H]. lia.
Qed.

(** C5.  Whenever [matdiv(c, b)] returns, the matrix it returns has
    non-negative integer entries and its product with [b] is [c]; it has
    [len(b[0])] rows of [len(b)] entries.  (This holds for every [c] and
    [b], in particular for a positive [b] and a [c] that has a factor.) *)
Theorem matdiv_returns_a_solution (fuel : nat) (c b cand : matrix)
    (g : nat -> nat) (cur cur' : nat) :
  matdiv fuel c b g cur = Done cand cur' ->
  matmul cand b = c /\
  Forall (Forall (fun x => 0 <= x)) cand /\
  length cand = length (default [] (b !! 0%nat)) /\
  Forall (fun r => length r = length b) cand.
Proof.
  unfold matdiv. destruct b as [|b0 b']; [discriminate|].
  intros H. apply matdiv_loop_solves in H as (Hmul & Hlen & Hall); [|lia].
  split_and!; [done| |done|].
  - eapply Forall_impl; [exact Hall|]. by intros r [_ Hr].
  - eapply Forall_impl; [exact Hall|]. by intros r [Hr _].
Qed.

(** Witness of C5: dividing [[2]] by [[1]]; the first eleven candidates,
    drawn below the bound 1, fail. *)
Lemma matdiv_returns_a_solution_witness :
  matdiv 2 [[2]] [[1]] (fun _ => 2%nat) 0%nat = Done [[2]] 12%nat /\
  matmul [[2]] [[1]] = [[2]].
Proof.
  split; [reflexivity|].
  apply (matdiv_returns_a_solution 2 [[2]] [[1]] [[2]] (fun _ => 2%nat)
           0%nat 12%nat).
  reflexivity.
Defined.

(** *** The search of [matdiv] can succeed *)

Lemma map_nth_seq {A} (l : list A) (d : A) :
  map (fun k => nth k l d) (seq 0 (length l)) = l.
Proof.
  induction l as [|x l IH]; simpl; [done|].
  f_equal. rewrite <- seq_shift, map_map. exact IH.
Qed.

Lemma rand_row_run n maxv : forall g cur,
  rand_row n 0 maxv g cur =
  Done (map (fun k => Z.of_nat (g (cur + k)%nat) mod (maxv + 1)) (seq 0 n))
       (cur + n)%nat.
Proof.
  induction n as [|n IH]; intros g cur.
  - simpl. unfold ret. f_equal. lia.
  - cbn [rand_row].
    assert (randint 0 maxv g cur
            = Done (Z.of_nat (g cur) mod (maxv + 1)) (S cur)) as Hx.
    { unfold randint, bind, draw, ret.
      by rewrite Z.sub_0_r, Z.add_0_l. }
    rewrite (bind_step _ _ _ _ _ _ Hx), (bind_step _ _ _ _ _ _ (IH g (S cur))).
    unfold ret. cbn [seq map]. rewrite <- seq_shift, map_map.
    f_equal; [|lia]. f_equal; [by rewrite Nat.add_0_r|].
    apply map_ext. intros k. do 3 f_equal. lia.
Qed.

Lemma rand_matrix_run rows cols maxv : forall g cur,
  rand_matrix rows cols 0 maxv g cur =
  Done (map (fun r =>
          map (fun k => Z.of_nat (g (cur + r * cols + k)%nat) mod (maxv + 1))
              (seq 0 cols))
          (seq 0 rows))
       (cur + rows * cols)%nat.
Proof.
  induction rows as [|rows IH]; intros g cur.
  - simpl. unfold ret. f_equal. lia.
  - cbn [rand_matrix].
    rewrite (bind_step _ _ _ _ _ _ (rand_row_run cols maxv g cur)).
    rewrite (bind_step _ _ _ _ _ _ (IH g (cur + cols)%nat)).
    unfold ret. cbn [seq map]. rewrite <- seq_shift, map_map.
    f_equal; [|lia]. f_equal.
    + apply map_ext. intros k. do 3 f_equal. lia.
    + apply map_ext. intros r. apply map_ext. intros k. do 3 f_equal. lia.
Qed.

Section MatdivSearch.
Context (a b c : matrix) (bound : Z).
Let C := length b.
Let R := length a.
Hypothesis shape :
  Forall (fun r => length r = C /\ Forall (fun x => 0 <= x <= bound) r) a.
Hypothesis product : matmul a b = c.

Lemma quotient_draws_aligned (q r k : nat) :
  (r < R)%nat -> (k < C)%nat ->
  quotient_draws a C (q * (R * C) + r * C + k)
  = Z.to_nat (nth k (nth r a []) 0).
Proof.
  intros Hr Hk. unfold quotient_draws. fold R.
  assert (r * C + k < R * C)%nat as Hlt by nia.
  replace (q * (R * C) + r * C + k)%nat
    with ((r * C + k) + q * (R * C))%nat by lia.
  rewrite Nat.Div0.mod_add, (Nat.mod_small (r * C + k) (R * C)) by done.
  rewrite Nat.div_add_l by lia. rewrite (Nat.div_small k C) by done.
  rewrite Nat.add_0_r.
  replace (r * C + k)%nat with (k + r * C)%nat by lia.
  rewrite Nat.Div0.mod_add, (Nat.mod_small k C) by done. done.
Qed.

Lemma entry_bound (r k : nat) :
  (r < R)%nat -> (k < C)%nat -> 0 <= nth k (nth r a []) 0 <= bound.
Proof.
  intros Hr Hk.
  pose proof (proj1 (List.Forall_nth _ a) shape r [] Hr) as [Hlen Hrow].
  apply (proj1 (List.Forall_nth _ _) Hrow k 0). lia.
Qed.

(** From an aligned cursor and under a bound that covers its entries,
    the candidate drawn is [a] itself. *)
Lemma rand_matrix_quotient (maxv : Z) (q : nat) :
  bound <= maxv ->
  rand_matrix R C 0 maxv (quotient_draws a C) (q * (R * C))%nat
  = Done a (S q * (R * C))%nat.
Proof.
  intros Hmax. rewrite rand_matrix_run. f_equal; [|lia].
  transitivity (map (fun r => nth r a []) (seq 0 R));
    [|apply map_nth_seq].
  apply map_ext_in. intros r Hr. apply in_seq in Hr.
  pose proof (proj1 (List.Forall_nth _ a) shape r [] ltac:(lia)) as [Hlen _].
  transitivity (map (fun k => nth k (nth r a []) 0) (seq 0 C));
    [|rewrite <- Hlen; apply map_nth_seq].
  apply map_ext_in. intros k Hk. apply in_seq in Hk.
  rewrite quotient_draws_aligned by lia.
  pose proof (entry_bound r k ltac:(lia) ltac:(lia)).
  rewrite Z2Nat.id by lia. apply Z.mod_small. lia.
Qed.

Lemma matdiv_tries_aligned n maxv : forall g (q : nat),
  exists found (q' : nat),
    matdiv_tries n c b C R maxv g (q * (R * C))%nat = Done found (q' * (R * C))%nat.
Proof.
  induction n as [|n IH]; intros g q; cbn [matdiv_tries].
  - by eexists _, _.
  - rewrite (bind_step _ _ _ _ _ _ (rand_matrix_run R C maxv g _)).
    replace (q * (R * C) + R * C)%nat with (S q * (R * C))%nat by lia.
    destruct (mat_eqb _ c); [by eexists _, _|apply IH].
Qed.

Lemma matdiv_tries_hit n maxv (q : nat) :
  bound <= maxv ->
  matdiv_tries (S n) c b C R maxv (quotient_draws a C) (q * (R * C))%nat
  = Done (Some a) (S q * (R * C))%nat.
Proof.
  intros Hmax. cbn [matdiv_tries].
  rewrite (bind_step _ _ _ _ _ _ (rand_matrix_quotient maxv q Hmax)).
  rewrite product.
  assert (mat_eqb c c = true) as -> by by apply mat_eqb_eq.
  done.
Qed.

Lemma matdiv_loop_returns fuel : forall maxv (q : nat),
  0 <= maxv -> bound <= maxv + Z.of_nat fuel -> (1 <= fuel)%nat ->
  exists cand cur',
    matdiv_loop fuel c b C R maxv (quotient_draws a C) (q * (R * C))%nat
    = Done cand cur'.
Proof.
  induction fuel as [|fuel IH]; intros maxv q Hmax Hb Hf; [lia|].
  cbn [matdiv_loop]. cbv zeta.
  set (n := Z.to_nat ((maxv + 1) ^ 2 * Z.of_nat C * Z.of_nat R + 10)).
  assert (exists n', n = S n') as [n' Hn].
  { exists (Nat.pred n). unfold n.
    assert (0 <= (maxv + 1) ^ 2 * Z.of_nat C * Z.of_nat R) by
      (repeat apply Z.mul_nonneg_nonneg; try lia; apply Z.pow_nonneg; lia).
    lia. }
  destruct fuel as [|fuel'].
  - rewrite Hn, (bind_step _ _ _ _ _ _ (matdiv_tries_hit n' (maxv + 1) q
                                          ltac:(lia))).
    by eexists _, _.
  - destruct (matdiv_tries_aligned n (maxv + 1) (quotient_draws a C) q)
      as ([cand|] & q' & Htry);
      rewrite (bind_step _ _ _ _ _ _ Htry); [by eexists _, _|].
    apply IH; lia.
Qed.
End MatdivSearch.

(** X8.  The search of [matdiv] can succeed: when [c] is the product of [b]
    with a matrix [a] of the sought shape whose entries lie between 0 and
    [fuel], there are draws on which [matdiv] returns within [fuel]
    rounds of its outer loop. *)
Theorem matdiv_can_return (a b c : matrix) (fuel : nat) :
  b <> [] ->
  length a = length (default [] (b !! 0%nat)) ->
  Forall (fun r => length r = length b /\
                   Forall (fun x => 0 <= x <= Z.of_nat fuel) r) a ->
  (1 <= fuel)%nat ->
  matmul a b = c ->
  exists cand cur',
    matdiv fuel c b (quotient_draws a (length b)) 0%nat = Done cand cur'.
Proof.
  intros Hb Hrows Hshape Hfuel Hprod. unfold matdiv.
  destruct b as [|b0 b']; [done|]. simpl in Hrows. rewrite <- Hrows.
  apply (matdiv_loop_returns a (b0 :: b') c (Z.of_nat fuel) Hshape Hprod
           fuel 0 0%nat); lia.
Qed.

(** ** OrderingOracle *)

Lemma str_geb_not_ltb (a : pstr) : forall b, str_geb a b = negb (str_ltb a b).
Proof.
  induction a as [|x a IH]; intros [|y b]; simpl; try done.
  rewrite IH.
  destruct (Z.ltb_spec y x), (Z.ltb_spec x y), (Z.eqb_spec x y);
    simpl; try done; lia.
Qed.

Section RSortCorrect.
Context {A : Type} (lt ge : A -> A -> bool).
Hypothesis ge_not_lt : forall x y, ge x y = negb (lt x y).

Lemma swap_Permutation (x : list A) (i j : nat) : swap x i j ≡ₚ x.
Proof.
  unfold swap.
  destruct (x !! i) as [a|] eqn:Hi; [|done].
  destruct (x !! j) as [b|] eqn:Hj; [|done].
  by apply Permutation_insert_swap.
Qed.

Lemma shuffle_from_Permutation i : forall (x : list A) g cur y cur',
  shuffle_from i x g cur = Done y cur' -> y ≡ₚ x.
Proof.
  induction i as [|i IH]; intros x g cur y cur' H; simpl in H.
  - apply ret_Done in H as [<- _]. done.
  - apply bind_Done in H as (r & c1 & _ & H).
    apply IH in H. rewrite H. apply swap_Permutation.
Qed.

Lemma raises_not_sorted_false (clone : list A) :
  raises_not_sorted lt clone = false ->
  forall i j x y,
    (i < j)%nat -> clone !! i = Some x -> clone !! j = Some y ->
    lt y x = false.
Proof.
  intros Hno i j x y Hij Hi Hj.
  destruct (lt y x) eqn:Hlt; [|done].
  enough (raises_not_sorted lt clone = true) by congruence.
  unfold raises_not_sorted.
  apply existsb_exists. exists i. split.
  { apply in_seq. apply lookup_lt_Some in Hi. lia. }
  apply existsb_exists. exists j. split.
  { apply in_seq. apply lookup_lt_Some in Hj. lia. }
  rewrite Hi, Hj, Hlt.
  apply andb_true_iff. split; [|done]. apply Nat.ltb_lt. done.
Qed.

Lemma r_sort_loop_spec fuel : forall (clone : list A) g cur res cur',
  r_sort_loop lt fuel clone g cur = Done res cur' ->
  res ≡ₚ clone /\ raises_not_sorted lt res = false.
Proof.
  induction fuel as [|fuel IH]; intros clone g cur res cur' H;
    simpl in H; [discriminate|].
  apply bind_Done in H as (sh & c1 & Hsh & H).
  apply shuffle_from_Permutation in Hsh.
  destruct (raises_not_sorted lt sh) eqn:Hr.
  - apply IH in H as [Hp Hs]. split; [by rewrite Hp|done].
  - apply ret_Done in H as [<- _]. done.
Qed.

(** C6.  Whenever [r_sort(lst)] returns, on elements whose [>=] is the
    negation of [<], the list it returns is a permutation of [lst] and is
    non-decreasing: [result[j] >= result[i]] for all [i < j]. *)
Theorem r_sort_sorted_permutation (fuel : nat) (lst res : list A)
    (g : nat -> nat) (cur cur' : nat) :
  r_sort lt fuel lst g cur = Done res cur' ->
  res ≡ₚ lst /\
  forall i j x y,
    (i < j)%nat -> res !! i = Some x -> res !! j = Some y ->
    ge y x = true.
Proof.
  intros H. apply r_sort_loop_spec in H as [Hp Hs]. split; [done|].
  intros i j x y Hij Hi Hj. rewrite ge_not_lt.
  by rewrite (raises_not_sorted_false res Hs i j x y).
Qed.
End RSortCorrect.

(** *** The shuffle of [r_sort] can sort *)

Section RSortSearch.
Context {A : Type} (lt : A -> A -> bool).
Hypothesis lt_irrefl : forall x, lt x x = false.
Hypothesis lt_trans :
  forall x y z, lt x y = true -> lt y z = true -> lt x z = true.

Lemma argmax_upto_le (x : list A) (i : nat) : (argmax_upto lt x i <= i)%nat.
Proof.
  induction i as [|i IH]; simpl; [done|].
  destruct (x !! argmax_upto lt x i) as [a|]; [|lia].
  destruct (x !! S i) as [b|]; [|lia].
  destruct (lt a b); lia.
Qed.

Lemma argmax_upto_max (x : list A) (i : nat) :
  (i < length x)%nat ->
  forall k a b,
    (k <= i)%nat -> x !! argmax_upto lt x i = Some a -> x !! k = Some b ->
    lt a b = false.
Proof.
  induction i as [|i IH]; intros Hi k a b Hk Ha Hb.
  - simpl in Ha. assert (k = 0)%nat as -> by lia.
    rewrite Ha in Hb. inversion Hb; subst. apply lt_irrefl.
  - cbn [argmax_upto] in Ha.
    pose proof (argmax_upto_le x i) as Hle.
    destruct (lookup_lt_is_Some_2 x (argmax_upto lt x i) ltac:(lia))
      as [a' Ha'].
    destruct (lookup_lt_is_Some_2 x (S i) Hi) as [b' Hb'].
    rewrite Ha', Hb' in Ha.
    destruct (lt a' b') eqn:Hab.
    + rewrite Hb' in Ha. inversion Ha; subst a.
      destruct (decide (k = S i)) as [->|Hne].
      * rewrite Hb' in Hb. inversion Hb; subst. apply lt_irrefl.
      * destruct (lt b' b) eqn:Hbb; [|done].
        pose proof (lt_trans _ _ _ Hab Hbb) as Hlt.
        rewrite (IH ltac:(lia) k a' b ltac:(lia) Ha' Hb) in Hlt. done.
    + rewrite Ha' in Ha. inversion Ha; subst a.
      destruct (decide (k = S i)) as [->|Hne].
      * rewrite Hb' in Hb. by inversion Hb; subst.
      * by apply (IH ltac:(lia) k a' b ltac:(lia) Ha' Hb).
Qed.

Lemma swap_lookup (x : list A) (i j p : nat) :
  (i < length x)%nat -> (j < length x)%nat ->
  swap x i j !! p =
  if decide (p = j) then x !! i
  else if decide (p = i) then x !! j
  else x !! p.
Proof.
  intros Hi Hj. unfold swap.
  destruct (lookup_lt_is_Some_2 x i Hi) as [a Ha].
  destruct (lookup_lt_is_Some_2 x j Hj) as [b Hb].
  rewrite Ha, Hb.
  destruct (decide (p = j)) as [->|Hpj].
  - rewrite list_lookup_insert_eq; [done|]. by rewrite length_insert.
  - rewrite list_lookup_insert_ne by done.
    destruct (decide (p = i)) as [->|Hpi].
    + by rewrite list_lookup_insert_eq.
    + by rewrite list_lookup_insert_ne.
Qed.

Lemma swap_length (x : list A) (i j : nat) : length (swap x i j) = length x.
Proof.
  unfold swap. destruct (x !! i); [|done]. destruct (x !! j); [|done].
  by rewrite !length_insert.
Qed.

(** One step of the shuffle with the draw of [argmax_upto] extends the
    sorted part downwards. *)
Lemma swap_sorted_above (x : list A) (i : nat) :
  (S i < length x)%nat ->
  sorted_above lt (S i) x ->
  sorted_above lt i (swap x (S i) (argmax_upto lt x (S i))).
Proof.
  intros Hi Hsorted p q a b Hp Hq Ha Hb.
  pose proof (argmax_upto_le x (S i)) as Hle.
  pose proof (argmax_upto_max x (S i) Hi) as Hmax.
  set (j := argmax_upto lt x (S i)) in *.
  rewrite swap_lookup in Ha, Hb by lia.
  assert (exists k, x !! k = Some b /\ (S i < p -> k < p)%nat /\
                    (p = S i -> k <= S i)%nat) as (k & Hk & Hkp & Hki).
  { destruct (decide (q = j)); [exists (S i); split_and!; [done|lia..]|].
    destruct (decide (q = S i)); [exists j; split_and!; [done|lia..]|].
    exists q. split_and!; [done|lia..]. }
  destruct (decide (p = S i)) as [->|Hpi].
  - assert (x !! j = Some a) as Haj.
    { destruct (decide (S i = j)) as [Heq|_]; [by rewrite <- Heq|done]. }
    apply (Hmax k a b); [by apply Hki|done..].
  - destruct (decide (p = j)); [lia|].
    apply (Hsorted p k a b); [lia|apply Hkp; lia|done..].
Qed.

Lemma shuffle_from_sorting (i : nat) : forall (x : list A) g cur,
  (i < length x)%nat ->
  (forall t, (t < i)%nat ->
     g (cur + t)%nat = nth t (sorting_draws_from lt i x) 0%nat) ->
  sorted_above lt i x ->
  exists y, shuffle_from i x g cur = Done y (cur + i)%nat /\
            sorted_above lt 0 y.
Proof.
  induction i as [|i IH]; intros x g cur Hi Hg Hsorted.
  - exists x. simpl. unfold ret. rewrite Nat.add_0_r. done.
  - cbn [shuffle_from].
    pose proof (argmax_upto_le x (S i)) as Hle.
    assert (g cur = argmax_upto lt x (S i)) as Hdraw.
    { rewrite <- (Nat.add_0_r cur). rewrite Hg by lia. done. }
    rewrite (bind_step _ _ g cur (g cur) (S cur)) by done.
    rewrite Hdraw, Nat.mod_small by lia.
    destruct (IH (swap x (S i) (argmax_upto lt x (S i))) g (S cur))
      as (y & Hy & Hys).
    + rewrite swap_length. lia.
    + intros t Ht. replace (S cur + t)%nat with (cur + S t)%nat by lia.
      rewrite Hg by lia. done.
    + by apply swap_sorted_above.
    + exists y. split; [|done]. rewrite Hy. f_equal. lia.
Qed.

Lemma sorted_above_not_raised (x : list A) :
  sorted_above lt 0 x -> raises_not_sorted lt x = false.
Proof.
  intros Hsorted. unfold raises_not_sorted.
  destruct (existsb _ _) eqn:H; [|done].
  apply existsb_exists in H as (i & Hi & H).
  apply existsb_exists in H as (j & Hj & H).
  apply andb_true_iff in H as [Hij H]. apply Nat.ltb_lt in Hij.
  destruct (x !! j) as [b|] eqn:Hb; [|done].
  destruct (x !! i) as [a|] eqn:Ha; [|done].
  rewrite (Hsorted j i b a) in H; [done|lia|done..].
Qed.

(** The search of [r_sort] can succeed at its first shuffle, on any list
    whose [<] is irreflexive and transitive. *)
Theorem r_sort_can_return (lst : list A) :
  exists res cur',
    r_sort lt 1 lst (sorting_draws lt lst) 0%nat = Done res cur'.
Proof.
  unfold r_sort. cbn [r_sort_loop]. unfold shuffle.
  destruct lst as [|a lst].
  - simpl. by eexists _, _.
  - destruct (shuffle_from_sorting (length (a :: lst) - 1) (a :: lst)
                (sorting_draws lt (a :: lst)) 0%nat) as (y & Hy & Hys).
    + simpl. lia.
    + intros t Ht. done.
    + intros p q a' b' Hp Hq Ha' Hb'. apply lookup_lt_Some in Ha'.
      simpl in *. lia.
    + rewrite (bind_step _ _ _ _ _ _ Hy).
      rewrite (sorted_above_not_raised y Hys). by eexists _, _.
Qed.
End RSortSearch.

Lemma str_ltb_irrefl (a : pstr) : str_ltb a a = false.
Proof.
  induction a as [|x a IH]; simpl; [done|].
  rewrite IH, Z.ltb_irrefl, Z.eqb_refl. done.
Qed.

Lemma str_ltb_trans (a : pstr) : forall b c,
  str_ltb a b = true -> str_ltb b c = true -> str_ltb a c = true.
Proof.
  induction a as [|x a IH]; intros [|y b] [|z c]; simpl; try done.
  intros Hab Hbc.
  apply orb_true_iff in Hab as [Hab|Hab], Hbc as [Hbc|Hbc];
    repeat match goal with
    | H : (_ <? _) = true |- _ => apply Z.ltb_lt in H
    | H : _ && _ = true |- _ => apply andb_true_iff in H as [? ?]
    | H : (_ =? _) = true |- _ => apply Z.eqb_eq in H; subst
    end;
    apply orb_true_iff.
  - left. apply Z.ltb_lt. lia.
  - left. by apply Z.ltb_lt.
  - left. by apply Z.ltb_lt.
  - right. rewrite Z.eqb_refl. simpl. eauto.
Qed.

(** X10.  On the HEAD entries, which are strings, [r_sort] can return:
    the first shuffle sorts on the sorting draws. *)
Corollary r_sort_can_return_on_strings (lst : list pstr) :
  exists res cur',
    r_sort str_ltb 1 lst (sorting_draws str_ltb lst) 0%nat = Done res cur'.
Proof. apply r_sort_can_return; [apply str_ltb_irrefl|apply str_ltb_trans]. Qed.

(** Witness of C6: three chunk texts; the first shuffle is rejected, the
    second is returned. *)
Lemma r_sort_sorted_permutation_witness :
  r_sort str_ltb 2 [py "b"; py "c"; py "a"]
    (fun n => (1 + 2 * n) mod 7)%nat 0%nat
  = Done [py "a"; py "b"; py "c"] 4%nat /\
  [py "a"; py "b"; py "c"] ≡ₚ [py "b"; py "c"; py "a"] /\
  str_geb (py "c") (py "a") = true.
Proof.
  split; [reflexivity|].
  destruct (r_sort_sorted_permutation str_ltb str_geb str_geb_not_ltb 2
              [py "b"; py "c"; py "a"] [py "a"; py "b"; py "c"]
              (fun n => (1 + 2 * n) mod 7)%nat 0%nat 4%nat eq_refl)
    as [Hp Hs].
  split; [exact Hp|].
  apply (Hs 0%nat 2%nat (py "a") (py "c")); [lia|reflexivity..].
Defined.

(** ** ChecksumTable and Footer Hasher *)

Lemma zrange_In (a : Z) (n : nat) (x : Z) :
  a <= x < a + Z.of_nat n -> In x (zrange a n).
Proof.
  intros H. unfold zrange. apply in_map_iff.
  exists (Z.to_nat (x - a)). split; [lia|]. apply in_seq. lia.
Qed.

Lemma table_filled :
  forallb (fun i => forallb (table_holds i) (zrange 32 96)) (seq 0 8) = true.
Proof. vm_compute. reflexivity. Qed.

(** Every supported byte has its entry in each of the eight tables. *)
Lemma table_lookup (i : nat) (byte : Z) :
  (i < 8)%nat -> 32 <= byte < 128 ->
  exists d, table !! i = Some d /\ dict_get d byte = Ok (table_entry i byte).
Proof.
  intros Hi Hb.
  assert (In i (seq 0 8)) as Hin by (apply in_seq; lia).
  pose proof (proj1 (forallb_forall _ _) table_filled i Hin) as H.
  pose proof (proj1 (forallb_forall _ _) H byte
                (zrange_In 32 96 byte ltac:(lia))) as H'.
  unfold table_holds in H'.
  destruct (table !! i) as [d|]; [|discriminate].
  exists d. split; [done|].
  destruct (dict_get d byte) as [t|]; [|discriminate].
  apply Z.eqb_eq in H'. by subst.
Qed.

Lemma table_entry_byte (i : nat) (byte : Z) : is_byte (table_entry i byte).
Proof. unfold table_entry, is_byte. apply Z.mod_pos_bound. lia. Qed.

Lemma lxor_byte (a b : Z) : is_byte a -> is_byte b -> is_byte (Z.lxor a b).
Proof.
  unfold is_byte. intros Ha Hb.
  assert (0 <= Z.lxor a b) as H0 by (apply Z.lxor_nonneg; lia).
  split; [done|].
  destruct (Z.eq_dec (Z.lxor a b) 0) as [->|Hnz]; [lia|].
  change 256 with (2 ^ 8). apply Z.log2_lt_pow2; [lia|].
  pose proof (Z.log2_lxor a b ltac:(lia) ltac:(lia)) as Hl.
  assert (forall x, is_byte x -> Z.log2 x < 8) as Hlog.
  { intros x Hx. destruct (Z.eq_dec x 0) as [->|]; [done|].
    apply Z.log2_lt_pow2; unfold is_byte in Hx; lia. }
  pose proof (Hlog a Ha). pose proof (Hlog b Hb). lia.
Qed.

(** The accumulation loop succeeds on supported bytes, keeps a 16-byte
    digest and leaves its last byte alone. *)
Lemma securehash_loop_spec (plaintext : list Z) :
  forall (i : nat) (hsh : list Z),
  Forall printable plaintext ->
  length hsh = 16%nat ->
  Forall is_byte hsh ->
  exists hsh',
    securehash_loop i plaintext hsh = Ok hsh' /\
    length hsh' = 16%nat /\
    Forall is_byte hsh' /\
    hsh' !! 15%nat = hsh !! 15%nat.
Proof.
  induction plaintext as [|byte rest IH]; intros i hsh Hp Hlen Hbytes.
  - exists hsh. by simpl.
  - inversion Hp as [|? ? Hbyte Hrest]; subst.
    assert (i mod 8 < 8)%nat as H8 by (apply Nat.mod_upper_bound; lia).
    assert (i mod 15 < 15)%nat as H15 by (apply Nat.mod_upper_bound; lia).
    destruct (table_lookup (i mod 8) byte H8 Hbyte) as (d & Hd & Ht).
    destruct (lookup_lt_is_Some_2 hsh (i mod 15)%nat ltac:(lia)) as [old Hold].
    assert (is_byte old) as Hob.
    { eapply Forall_lookup_1; eauto. }
    pose proof (lxor_byte old _ Hob (table_entry_byte (i mod 8) byte)) as Hx.
    cbn [securehash_loop]. unfold index. rewrite Hd. cbn [res_bind].
    rewrite Ht. cbn [res_bind]. rewrite Hold. cbn [res_bind].
    unfold bytearray_set. rewrite Hold.
    destruct Hx as [Hx0 Hx1].
    apply Z.leb_le in Hx0 as ->. apply Z.ltb_lt in Hx1 as Hx1'. rewrite Hx1'.
    cbn [andb res_bind].
    destruct (IH (S i) (<[(i mod 15)%nat := Z.lxor old (table_entry (i mod 8) byte)]> hsh))
      as (hsh' & Hrun & Hlen' & Hbytes' & H15').
    + done.
    + by rewrite length_insert.
    + apply Forall_insert; [done|]. unfold is_byte. split; [|done].
      apply Z.lxor_nonneg. unfold is_byte in Hob.
      pose proof (table_entry_byte (i mod 8) byte) as Hb. unfold is_byte in Hb.
      lia.
    + exists hsh'. split_and!; [done..|].
      rewrite H15'. apply list_lookup_insert_ne. lia.
Qed.

Lemma hex_digit_value (n : Z) :
  0 <= n < 16 -> hex_value (hex_digit n) = Some n.
Proof.
  intros H. unfold hex_value, hex_digit.
  destruct (Z.ltb_spec n 10).
  - assert ((48 <=? 48 + n) && (48 + n <=? 57) = true) as ->
      by (apply andb_true_iff; split; apply Z.leb_le; lia).
    f_equal. lia.
  - assert ((48 <=? 87 + n) && (87 + n <=? 57) = false) as ->
      by (apply andb_false_iff; right; apply Z.leb_gt; lia).
    assert ((97 <=? 87 + n) && (87 + n <=? 102) = true) as ->
      by (apply andb_true_iff; split; apply Z.leb_le; lia).
    f_equal. lia.
Qed.

Lemma hexlify_length (hsh : list Z) :
  length (hexlify hsh) = (2 * length hsh)%nat.
Proof.
  unfold hexlify. induction hsh as [|b hsh IH]; simpl; [done|].
  rewrite IH. lia.
Qed.

Lemma hexlify_app (a b : list Z) : hexlify (a ++ b) = hexlify a ++ hexlify b.
Proof. unfold hexlify. apply flat_map_app. Qed.

(** The last two characters of the digest spell its sixteenth byte. *)
Lemma hexlify_last_byte (hsh : list Z) (b : Z) :
  length hsh = 16%nat -> hsh !! 15%nat = Some b -> is_byte b ->
  hex_byte (drop 30 (hexlify hsh)) = Some b.
Proof.
  intros Hlen Hb Hbyte.
  rewrite <- (take_drop 15 hsh), hexlify_app.
  rewrite drop_app_length'.
  2:{ rewrite hexlify_length, length_take. lia. }
  assert (drop 15 hsh = [b]) as ->.
  { apply list_eq. intros [|k].
    - rewrite lookup_drop. by rewrite Nat.add_0_r.
    - rewrite lookup_drop. simpl. apply lookup_ge_None. lia. }
  unfold is_byte in Hbyte.
  simpl. unfold hex_byte.
  rewrite !hex_digit_value.
  - f_equal. pose proof (Z.div_mod b 16). lia.
  - apply Z.mod_pos_bound. lia.
  - split; [apply Z.div_pos; lia | apply Z.div_lt_upper_bound; lia].
Qed.

Lemma hex_digit_hex (n : Z) :
  0 <= n < 16 -> exists v, hex_value (hex_digit n) = Some v.
Proof. intros H. exists n. by apply hex_digit_value. Qed.

Lemma hexlify_hex (hsh : list Z) :
  Forall is_byte hsh ->
  Forall (fun c => exists v, hex_value c = Some v) (hexlify hsh).
Proof.
  unfold hexlify, is_byte. induction 1 as [|b hsh Hb _ IH]; simpl; [done|].
  constructor; [|constructor; [|done]]; apply hex_digit_hex.
  - split; [apply Z.div_pos; lia | apply Z.div_lt_upper_bound; lia].
  - apply Z.mod_pos_bound. lia.
Qed.

(** A run of [s_securehash] on supported bytes. *)
Lemma s_securehash_run (p : pstr) :
  Forall printable p ->
  (length p <= 255)%nat ->
  exists hsh : list Z,
    securehash_loop 0 p (<[15%nat := Z.of_nat (length p)]> (replicate 16 0))
      = Ok hsh /\
    length hsh = 16%nat /\
    Forall is_byte hsh /\
    hsh !! 15%nat = Some (Z.of_nat (length p)) /\
    s_securehash p = Ok (hexlify hsh).
Proof.
  intros Hp Hlen.
  set (h0 := <[15%nat := Z.of_nat (length p)]> (replicate 16 0)).
  assert (is_byte (Z.of_nat (length p))) as Hb by (unfold is_byte; lia).
  destruct (securehash_loop_spec p 0 h0 Hp) as (hsh & Hrun & Hl & Hbytes & H15).
  { done. }
  { unfold h0. apply Forall_insert; [|done].
    apply Forall_replicate. unfold is_byte. lia. }
  exists hsh. split_and!; try done.
  unfold s_securehash, encode_ascii.
  assert (forallb (fun c => (0 <=? c) && (c <? 128)) p = true) as ->.
  { apply forallb_forall. intros c Hc.
    rewrite Forall_forall in Hp. apply list_elem_of_In in Hc.
    specialize (Hp c Hc). unfold printable in Hp.
    apply andb_true_iff. split; [apply Z.leb_le | apply Z.ltb_lt]; lia. }
  cbn [res_bind]. unfold bytearray_set.
  destruct Hb as [Hb0 Hb1].
  apply Z.leb_le in Hb0 as ->. apply Z.ltb_lt in Hb1 as ->.
  cbn [andb]. change (replicate 16 0 !! 15%nat) with (Some 0).
  cbn [res_bind]. fold h0. rewrite Hrun. done.
Qed.

(** C10.  On a string of at most 255 characters, all in [32, 128),
    [s_securehash] returns a digest of 32 hexadecimal characters whose
    last two characters are the hexadecimal digits of the length of the
    string: the accumulation loop writes the bytes 0 to 14 of the digest
    and leaves byte 15, which holds the length, as it is. *)
Theorem s_securehash_ends_with_length (p : pstr) :
  Forall (fun c => 32 <= c < 128) p ->
  (length p <= 255)%nat ->
  exists (hsh : list Z) (digest : pstr),
    securehash_loop 0 p (<[15%nat := Z.of_nat (length p)]> (replicate 16 0))
      = Ok hsh /\
    hsh !! 15%nat = Some (Z.of_nat (length p)) /\
    s_securehash p = Ok digest /\
    digest = hexlify hsh /\
    length digest = 32%nat /\
    Forall (fun c => exists v, hex_value c = Some v) digest /\
    hex_byte (drop 30 digest) = Some (Z.of_nat (length p)).
Proof.
  intros Hp Hlen.
  destruct (s_securehash_run p Hp Hlen) as (hsh & Hrun & Hl & Hbytes & H15 & Hd).
  exists hsh, (hexlify hsh). split_and!; try done.
  - rewrite hexlify_length. lia.
  - by apply hexlify_hex.
  - apply hexlify_last_byte; [done..|]. unfold is_byte. lia.
Qed.

(** Witness of C10: the digest of "abcde" ends in "05". *)
Lemma s_securehash_ends_with_length_witness :
  s_securehash (py "abcde") = Ok (py "9cc01bbf330000000000000000000005") /\
  hex_byte (py "05") = Some 5.
Proof.
  split; [reflexivity|].
  destruct (s_securehash_ends_with_length (py "abcde"))
    as (hsh & digest & _ & _ & Hd & _ & _ & _ & Hlast).
  - repeat constructor; vm_compute; discriminate.
  - simpl. lia.
  - vm_compute in Hd. inversion Hd; subst digest. exact Hlast.
Defined.

(** ** Pipeline: the scan of [s_compress] *)

Lemma ranks_printable : forallb rank_printable (zrange 1 997) = true.
Proof. vm_compute. reflexivity. Qed.

Lemma ranks_printable_spec (n : Z) :
  1 <= n <= 997 ->
  reserved (pad3 n) = false /\
  length (pad3 n) = 3%nat /\
  forallb is_digit (pad3 n) = true /\
  py_int (pad3 n) = Ok n.
Proof.
  intros Hn.
  pose proof (proj1 (forallb_forall _ _) ranks_printable n
                (zrange_In 1 997 n ltac:(lia))) as H.
  unfold rank_printable in H.
  apply andb_true_iff in H as [H Hint].
  apply andb_true_iff in H as [H Hdig].
  apply andb_true_iff in H as [Hres Hlen].
  split_and!.
  - by apply negb_true_iff.
  - by apply Nat.eqb_eq.
  - done.
  - destruct (py_int (pad3 n)) as [k|]; [|discriminate].
    apply Z.eqb_eq in Hint. by subst.
Qed.

Lemma body_part_ok_mono (n n' : Z) (part : pstr) :
  n <= n' -> body_part_ok n part -> body_part_ok n' part.
Proof.
  intros Hle H num Hnum. destruct (H num Hnum) as [Hr|(rank & Hrk & Hp)].
  - by left.
  - right. exists rank. split; [lia|done].
Qed.

Lemma body_part_ok_ref (n rank : Z) :
  1 <= rank <= n -> body_part_ok n (ref rank).
Proof.
  intros Hr num Hnum. unfold ref in Hnum. inversion Hnum; subst.
  right. by exists rank.
Qed.

Lemma body_part_ok_token (n : Z) (t : pstr) :
  is_token t -> body_part_ok n t.
Proof.
  intros [c ->] num Hnum. unfold escape in Hnum.
  destruct (Z.eqb_spec c (ch "@")) as [->|Hne].
  { inversion Hnum; subst. by left. }
  destruct (Z.eqb_spec c 10) as [->|Hne10].
  { inversion Hnum; subst. by left. }
  destruct (Z.eqb_spec c (ch "/")) as [->|Hne47].
  { inversion Hnum; subst. by left. }
  inversion Hnum; subst. done.
Qed.

Lemma token_nonempty (t : pstr) : is_token t -> t <> [].
Proof.
  intros [c ->]. unfold escape.
  destruct (c =? ch "@"); [done|].
  destruct (c =? 10); [done|].
  destruct (c =? ch "/"); done.
Qed.

Lemma body_part_ok_matrix (n : Z) (text : pstr) :
  body_part_ok n (py "/" ++ text).
Proof. intros num Hnum. inversion Hnum. Qed.

Lemma scan_inv_mono tokens hd0 b b' st :
  (b <= b')%nat -> scan_inv tokens hd0 b st -> scan_inv tokens hd0 b' st.
Proof.
  intros Hle [(ps & Hps & Hb) Hh Hf Hc Hcap Hbody Hne].
  constructor; try done.
  exists ps. split; [done|]. intros p Hp. specialize (Hb p Hp). lia.
Qed.

Lemma random_gt_08_Done g cur b cur' :
  random_gt_08 g cur = Done b cur' -> cur' = S cur.
Proof.
  unfold random_gt_08. intros H.
  apply bind_Done in H as (r & c1 & Hr & H).
  apply draw_Done in Hr as [_ ->]. by apply ret_Done in H as [_ ->].
Qed.

(** Cutting a chunk at position [i] keeps the invariant. *)
Lemma scan_inv_chunk tokens hd0 i st h :
  scan_inv tokens hd0 i st ->
  (5 < length (drop i tokens))%nat ->
  chunks st < 997 ->
  hashed (take 5 (drop i tokens)) h ->
  scan_inv tokens hd0 (S i + 4)
    {| head := head st ++ [join (take 5 (drop i tokens)) ++ py "/"];
       body := body st ++ [ref (chunks st + 1)];
       foot := foot st ++ [h];
       chunks := chunks st + 1;
       l_chunks := l_chunks st ++ [take 5 (drop i tokens)] |}.
Proof.
  intros [(ps & (Hl & Hin & Hsorted) & Hb) Hh Hf Hc Hcap Hbody Hne]
    Hlen Hlt Hhash.
  rewrite length_drop in Hlen.
  constructor; simpl.
  - exists (ps ++ [i]). split; [split_and!|].
    + rewrite map_app, Hl. done.
    + intros p Hp. apply in_app_iff in Hp as [Hp|[<-|[]]]; [by apply Hin|lia].
    + intros a b p q Hab Ha Hq.
      destruct (decide (b < length ps)%nat) as [Hlt'|Hge].
      * rewrite lookup_app_l in Ha by lia. rewrite lookup_app_l in Hq by lia.
        exact (Hsorted a b p q Hab Ha Hq).
      * rewrite lookup_app_r in Hq by lia.
        destruct (b - length ps)%nat as [|k] eqn:Hk; [|by destruct k].
        inversion Hq; subst q.
        assert (a < length ps)%nat as Ha' by lia.
        rewrite lookup_app_l in Ha by lia.
        assert (In p ps) as Hp.
        { apply list_elem_of_In. by eapply list_elem_of_lookup_2. }
        specialize (Hb p Hp). lia.
    + intros p Hp. apply in_app_iff in Hp as [Hp|[<-|[]]]; [|lia].
      specialize (Hb p Hp). lia.
  - rewrite Hh, map_app, <- app_assoc. done.
  - apply Forall2_app; [done|]. by constructor.
  - rewrite length_app, Hc. simpl. lia.
  - lia.
  - apply Forall_app. split.
    + eapply Forall_impl; [exact Hbody|].
      intros part. apply body_part_ok_mono. lia.
    + constructor; [|done]. apply body_part_ok_ref.
      rewrite Hc. lia.
  - apply Forall_app. split; [done|]. by constructor.
Qed.

Lemma scan_inv_part tokens hd0 i st part :
  scan_inv tokens hd0 i st ->
  body_part_ok (chunks st) part ->
  part <> [] ->
  scan_inv tokens hd0 (S i + 0)
    {| head := head st; body := body st ++ [part]; foot := foot st;
       chunks := chunks st; l_chunks := l_chunks st |}.
Proof.
  intros Hinv Hpart Hpne.
  apply (scan_inv_mono tokens hd0 i (S i + 0)) in Hinv; [|lia].
  destruct Hinv as [Hps Hh Hf Hc Hcap Hbody Hne].
  constructor; simpl; try done.
  - apply Forall_app. split; [done|]. by constructor.
  - apply Forall_app. split; [done|]. by constructor.
Qed.

Lemma compress_scan_inv tokens hd0 m rest :
  Forall is_token tokens ->
  forall i skip st g cur st' cur',
    rest = drop i tokens ->
    scan_inv tokens hd0 (i + skip) st ->
    compress_scan m rest skip st g cur = Done st' cur' ->
    exists bound, scan_inv tokens hd0 bound st'.
Proof.
  intros Htok.
  induction rest as [|tok rest' IH]; intros i skip st g cur st' cur' Hrest Hinv H.
  - simpl in H. apply ret_Done in H as [<- _]. eauto.
  - assert (tokens !! i = Some tok) as Hi.
    { rewrite <- (Nat.add_0_r i), <- lookup_drop, <- Hrest. done. }
    assert (rest' = drop (S i) tokens) as Hrest'.
    { rewrite (drop_S _ _ _ Hi) in Hrest. by inversion Hrest. }
    assert (is_token tok) as Htk.
    { rewrite Forall_forall in Htok. apply Htok.
      by eapply list_elem_of_lookup_2. }
    cbn [compress_scan] in H.
    destruct skip as [|skip'].
    2:{ eapply (IH (S i) skip'); [done| |exact H].
        by replace (S i + skip')%nat with (i + S skip')%nat by lia. }
    rewrite Nat.add_0_r in Hinv.
    destruct (997 <=? chunks st) eqn:Hfull.
    { apply ret_Done in H as [<- _]. eauto. }
    apply Z.leb_gt in Hfull.
    apply bind_Done in H as (chunk_time & c1 & Hct & H).
    destruct chunk_time.
    + destruct (5 <? length (tok :: rest'))%nat eqn:Hlen.
      2:{ apply ret_Done in Hct as [Hct _]. discriminate. }
      apply Nat.ltb_lt in Hlen.
      apply bind_Done in H as (h & c2 & Hh & H).
      apply lift_Done in Hh as [Hh ->].
      rewrite Hrest in H, Hh, Hlen.
      eapply (IH (S i) 4%nat); [done| |exact H].
      by apply scan_inv_chunk.
    + apply bind_Done in H as (matrix_time & c2 & Hmt & H).
      destruct matrix_time.
      * apply bind_Done in H as (lst1 & c3 & Hl1 & H).
        eapply (IH (S i) 0%nat); [done| |exact H].
        apply scan_inv_part; [done|apply body_part_ok_matrix|done].
      * eapply (IH (S i) 0%nat); [done| |exact H].
        apply scan_inv_part; [done|by apply body_part_ok_token|].
        by apply token_nonempty.
Qed.

Lemma res_map_Ok {A B} (f : A -> res B) (l : list A) : forall l',
  res_map f l = Ok l' -> Forall2 (fun x y => f x = Ok y) l l'.
Proof.
  induction l as [|x l IH]; intros l' H; simpl in H.
  - inversion H. constructor.
  - apply res_bind_Ok in H as (y & Hy & H).
    apply res_bind_Ok in H as (ys & Hys & H).
    inversion H; subst. constructor; auto.
Qed.

Lemma insert_sorted_length x l :
  length (insert_sorted x l) = S (length l).
Proof.
  induction l as [|y l IH]; simpl; [done|].
  destruct (key_ltb y x); simpl; [by rewrite IH|done].
Qed.

Lemma sorted_by_key_length l : length (sorted_by_key l) = length l.
Proof.
  induction l as [|x l IH]; simpl; [done|].
  by rewrite insert_sorted_length, IH.
Qed.

Lemma enumerate_length {A} (l : list A) : length (enumerate l) = length l.
Proof.
  unfold enumerate. rewrite length_zip_with, length_seq. lia.
Qed.

(** The steps of [s_compress] before the final join. *)
Lemma s_compress_parts_Done plaintext g cur hd bd ft cur' :
  s_compress_parts plaintext g cur = Done (hd, bd, ft) cur' ->
  exists key enc m st bound,
    In key KEYS /\
    s_encrypt plaintext key = Ok enc /\
    scan_inv (map escape enc)
      [py "001"; key ++ py "/"; repr_matrix m ++ py "/"] bound st /\
    hd = head st /\ ft = foot st /\
    res_map (renumber (sorted_by_key (enumerate (l_chunks st)))) (body st)
    = Ok bd.
Proof.
  unfold s_compress_parts. intros H.
  apply bind_Done in H as (key & c1 & Hkey & H).
  apply bind_Done in H as (enc & c2 & Henc & H).
  apply lift_Done in Henc as [Henc ->].
  apply bind_Done in H as (m & c3 & Hm & H).
  apply bind_Done in H as (st & c4 & Hscan & H).
  apply bind_Done in H as (bd' & c5 & Hbd & H).
  apply lift_Done in Hbd as [Hbd ->].
  apply ret_Done in H as [H _]. inversion H; subst.
  apply choice_Done in Hkey as [Hkey _].
  eapply (compress_scan_inv (map escape enc)
            [py "001"; key ++ py "/"; repr_matrix m ++ py "/"])
    with (i := 0%nat) in Hscan as [bound Hinv].
  - exists key, enc, m, st, bound. split_and!; try done.
    apply list_elem_of_In. by eapply list_elem_of_lookup_2.
  - apply Forall_forall. intros t Ht.
    apply list_elem_of_In, in_map_iff in Ht as (c & <- & _). by exists c.
  - done.
  - constructor; simpl; try done.
    exists []. split; [|by intros p []].
    split_and!; [done|by intros p []|]. intros a b p q _ Ha. done.
Qed.

(** Counterexample to C2 as stated: on "aa0aaa" the scan cuts the chunk
    "B@000CaA" at position 0 and the chunk "5CaB@000" at position 5, and
    HEAD lists them in that order, although "5..." sorts before "B...". *)
Lemma head_in_sorted_order_fails : ~ head_in_sorted_order.
Proof.
  intros H.
  assert (str_geb (py "5CaB@000/") (py "B@000CaA/") = true) as Hge.
  { eapply (H (py "aa0aaa") two_chunk_draws 0%nat _ _ _ 14%nat)
      with (i := 0%nat) (j := 1%nat).
    - vm_compute. reflexivity.
    - lia.
    - vm_compute. reflexivity.
    - vm_compute. reflexivity. }
  vm_compute in Hge. discriminate.
Qed.

(** Once 997 chunks are cut the scan stops: the tokens that remain are
    not copied to BODY. *)
Lemma compress_scan_stops_at_997 m (tok : pstr) (rest : list pstr) st :
  997 <= chunks st -> compress_scan m (tok :: rest) 0 st = ret st.
Proof.
  intros H. cbn [compress_scan]. by apply Z.leb_le in H as ->.
Qed.

(** ** Pipeline: [s_compress] returns on supported text *)

Lemma choice_total {A} (l : list A) g cur :
  l <> [] -> exists x, choice l g cur = Done x (S cur) /\ In x l.
Proof.
  destruct l as [|a l]; [done|]. intros _.
  assert (g cur mod length (a :: l) < length (a :: l))%nat as Hlt
    by (apply Nat.mod_upper_bound; simpl; lia).
  destruct (lookup_lt_is_Some_2 _ _ Hlt) as [x Hx].
  exists x. split.
  - unfold choice, bind, draw, index. by rewrite Hx.
  - apply list_elem_of_In. by eapply list_elem_of_lookup_2.
Qed.

Lemma keys_shape (key : pstr) :
  In key KEYS -> key <> [] /\ Forall (fun e => 33 <= e <= 122) key.
Proof.
  intros Hin.
  assert (forallb (fun k =>
            negb (str_eqb k []) &&
            forallb (fun e => (33 <=? e) && (e <=? 122)) k) KEYS = true) as H
    by (vm_compute; reflexivity).
  rewrite forallb_forall in H. specialize (H key Hin).
  apply andb_true_iff in H as [Hne Hall]. split.
  - intros ->. discriminate.
  - apply Forall_forall. intros e He.
    rewrite forallb_forall in Hall. apply list_elem_of_In in He.
    specialize (Hall e He). apply andb_true_iff in Hall as [H1 H2].
    apply Z.leb_le in H1, H2. lia.
Qed.

(** On supported text and a key of [KEYS], [s_encrypt] returns supported
    text. *)
Lemma s_encrypt_from_supported (s : pstr) : forall (i : nat) (key : pstr),
  key <> [] ->
  Forall (fun e => 33 <= e <= 122) key ->
  Forall supported s ->
  exists enc, s_encrypt_from i s key = Ok enc /\ Forall supported enc.
Proof.
  induction s as [|c s IH]; intros i key Hne Hkey Hs.
  - exists []. by split.
  - inversion Hs as [|? ? Hc Hs']; subst.
    destruct (IH (S i) key Hne Hkey Hs') as (tl & Htl & Htls).
    assert (length key <> 0%nat) as Hlen by (by destruct key).
    assert (i mod length key < length key)%nat as Hlt
      by (by apply Nat.mod_upper_bound).
    destruct (lookup_lt_is_Some_2 _ _ Hlt) as [e He].
    pose proof (Forall_lookup_1 _ _ _ _ Hkey He) as Hebound.
    simpl in Hebound.
    cbn [s_encrypt_from].
    assert (py_mod i (length key) = Ok (i mod length key)%nat) as ->
      by (by apply py_mod_Ok).
    cbn [res_bind].
    assert (index key (i mod length key)%nat = Ok e) as ->
      by (by apply index_Ok).
    cbn [res_bind]. unfold ord. rewrite Htl.
    assert (forall n, printable n -> chr n = Ok n) as Hchr.
    { intros n Hn. apply chr_Ok. unfold printable, code_point in *. lia. }
    assert (supported (ch "A") /\ supported (ch "B") /\ supported (ch "C"))
      as (HA & HB & HC).
    { change (ch "A") with 65. change (ch "B") with 66.
      change (ch "C") with 67. unfold supported, printable. lia. }
    unfold supported, printable in Hc.
    destruct (Z.ltb_spec c (e - 32)); [|destruct (Z.ltb_spec e (c - 32))].
    + rewrite Hchr by (unfold printable; lia). cbn [res_bind app].
      eexists. split; [done|].
      constructor; [done|].
      constructor; [left; unfold printable; lia|done].
    + rewrite Hchr by (unfold printable; lia). cbn [res_bind app].
      eexists. split; [done|].
      constructor; [done|].
      constructor; [left; unfold printable; lia|done].
    + cbn [res_bind app]. eexists. split; [done|].
      constructor; [done|]. by constructor.
Qed.

Lemma randint_total lo hi g cur :
  exists x, randint lo hi g cur = Done x (S cur).
Proof. eexists. reflexivity. Qed.

Lemma rand_row_total n lo hi : forall g cur,
  exists r cur', rand_row n lo hi g cur = Done r cur'.
Proof.
  induction n as [|n IH]; intros g cur; simpl.
  - by eexists _, _.
  - destruct (randint_total lo hi g cur) as [x Hx].
    destruct (IH g (S cur)) as (xs & c2 & Hxs).
    rewrite (bind_step _ _ _ _ _ _ Hx), (bind_step _ _ _ _ _ _ Hxs).
    by eexists _, _.
Qed.

Lemma rand_matrix_total rows cols lo hi : forall g cur,
  exists m cur', rand_matrix rows cols lo hi g cur = Done m cur'.
Proof.
  induction rows as [|rows IH]; intros g cur; simpl.
  - by eexists _, _.
  - destruct (rand_row_total cols lo hi g cur) as (r & c1 & Hr).
    destruct (IH g c1) as (rs & c2 & Hrs).
    rewrite (bind_step _ _ _ _ _ _ Hr), (bind_step _ _ _ _ _ _ Hrs).
    by eexists _, _.
Qed.

Lemma random_gt_08_run g cur :
  random_gt_08 g cur = Done (8 <=? g cur mod 10)%nat (S cur).
Proof. reflexivity. Qed.

(** The token of a supported character: printable, at most four
    characters long, and accepted by the matrix substitution. *)
Lemma supported_token_shape (t : pstr) :
  supported_token t ->
  Forall printable t /\ (length t <= 4)%nat /\
  exists m, seed_matrix t = Ok m.
Proof.
  intros (c & Hc & ->). unfold escape.
  destruct (Z.eqb_spec c (ch "@")) as [->|Hat].
  { split_and!; [repeat constructor; by vm_compute|simpl; lia|].
    eexists. vm_compute. reflexivity. }
  destruct (Z.eqb_spec c 10) as [->|Hnl].
  { split_and!; [repeat constructor; by vm_compute|simpl; lia|].
    eexists. vm_compute. reflexivity. }
  destruct (Z.eqb_spec c (ch "/")) as [->|Hsl].
  { split_and!; [repeat constructor; by vm_compute|simpl; lia|].
    eexists. vm_compute. reflexivity. }
  destruct Hc as [Hc|Hc]; [|done].
  split_and!; [constructor; [done|constructor]|simpl; lia|].
  unfold seed_matrix. cbn [index lookup list_lookup res_bind].
  apply Z.eqb_neq in Hat. rewrite Hat. by eexists.
Qed.

Lemma supported_token_is_token (t : pstr) : supported_token t -> is_token t.
Proof. intros (c & _ & ->). by exists c. Qed.

Lemma join_printable (parts : list pstr) :
  Forall (fun t => Forall printable t /\ (length t <= 4)%nat) parts ->
  Forall printable (join parts) /\
  (length (join parts) <= 4 * length parts)%nat.
Proof.
  unfold join. induction 1 as [|t parts [Ht Hl] _ [IH1 IH2]]; simpl.
  - by split.
  - split; [by apply Forall_app|]. rewrite length_app. lia.
Qed.

(** The scan never fails on the tokens of supported text. *)
Lemma compress_scan_total m (rest : list pstr) : forall skip st g cur,
  Forall supported_token rest ->
  exists st' cur', compress_scan m rest skip st g cur = Done st' cur'.
Proof.
  induction rest as [|tok rest' IH]; intros skip st g cur Hrest.
  - simpl. by eexists _, _.
  - inversion Hrest as [|? ? Htok Hrest']; subst.
    cbn [compress_scan].
    destruct skip as [|skip']; [|by apply IH].
    destruct (997 <=? chunks st); [by eexists _, _|].
    assert (exists b, (if (5 <? length (tok :: rest'))%nat
                       then random_gt_08 else ret false) g cur
                      = Done b (if (5 <? length (tok :: rest'))%nat
                                then S cur else cur)) as [b Hb].
    { destruct (5 <? length (tok :: rest'))%nat; by eexists. }
    rewrite (bind_step _ _ _ _ _ _ Hb).
    destruct b.
    + set (chunk := take 5 (tok :: rest')).
      assert (Forall (fun t => Forall printable t /\ (length t <= 4)%nat)
                (chunk ++ chunk ++ chunk)) as Hshape.
      { assert (Forall (fun t => Forall printable t /\ (length t <= 4)%nat)
                  chunk) as Hc.
        { apply Forall_take. eapply Forall_impl; [exact Hrest|].
          intros t Ht. apply supported_token_shape in Ht as (? & ? & _).
          done. }
        by repeat apply Forall_app_2. }
      apply join_printable in Hshape as [Hp Hl].
      assert (length chunk <= 5)%nat as Hc5.
      { unfold chunk. rewrite length_take. lia. }
      rewrite !length_app in Hl.
      destruct (s_securehash_run _ Hp ltac:(lia)) as (hsh & _ & _ & _ & _ & Hh).
      rewrite (bind_step _ _ _ _ _ _ (lift_Ok_run _ _ _ _ Hh)).
      by apply IH.
    + rewrite (bind_step _ _ _ _ _ _ (random_gt_08_run _ _)).
      destruct (8 <=? _)%nat; [|by apply IH].
      apply supported_token_shape in Htok as (_ & _ & lst1 & Hseed).
      rewrite (bind_step _ _ _ _ _ _ (lift_Ok_run _ _ _ _ Hseed)).
      by apply IH.
Qed.

Lemma reserved_cases (num : pstr) :
  reserved num = true -> num = py "000" \/ num = py "998" \/ num = py "999".
Proof.
  unfold reserved. intros H.
  apply orb_true_iff in H as [H|H]; [apply orb_true_iff in H as [H|H]|];
    apply str_eqb_eq in H; auto.
Qed.

Lemma renumber_total indices (part : pstr) :
  part <> [] -> body_part_ok 997 part ->
  exists part', renumber indices part = Ok part'.
Proof.
  intros Hne Hok. destruct part as [|c0 num]; [done|].
  unfold renumber. cbn [index lookup list_lookup res_bind].
  destruct (Z.eqb_spec c0 (ch "@")) as [->|_]; [|by eexists].
  change (drop 1 (ch "@" :: num)) with num.
  assert (exists rest, py_int num = Ok rest) as [rest ->].
  { destruct (Hok num eq_refl) as [Hr|(rank & Hrk & ->)].
    - apply reserved_cases in Hr as [-> | [-> | ->]]; by eexists.
    - exists rank. by apply ranks_printable_spec. }
  cbn [res_bind]. by eexists.
Qed.

Lemma res_map_total {A B} (f : A -> res B) (l : list A) :
  Forall (fun x => exists y, f x = Ok y) l ->
  exists l', res_map f l = Ok l'.
Proof.
  induction 1 as [|x l [y Hy] _ [l' IH]]; simpl.
  - by eexists.
  - rewrite Hy, IH. by eexists.
Qed.

(** X14.  On text made of printable ASCII characters and newlines,
    [s_compress] returns an artifact, whatever the draws. *)
Theorem s_compress_returns (plaintext : pstr) (g : nat -> nat) (cur : nat) :
  Forall supported plaintext ->
  exists hd bd ft cur',
    s_compress_parts plaintext g cur = Done (hd, bd, ft) cur' /\
    s_compress plaintext g cur
    = Done (join hd ++ [10] ++ join bd ++ [10] ++ join ft) cur'.
Proof.
  intros Hs.
  destruct (choice_total KEYS g cur ltac:(done)) as (key & Hkey & Hin).
  destruct (keys_shape key Hin) as [Hne Hkeyc].
  destruct (s_encrypt_from_supported plaintext 0 key Hne Hkeyc Hs)
    as (enc & Henc & Hencs).
  destruct (rand_matrix_total 3 3 1 3 g (S cur)) as (m & c2 & Hm).
  set (hd0 := [py "001"; key ++ py "/"; repr_matrix m ++ py "/"]).
  set (st0 := {| head := hd0; body := []; foot := [];
                 chunks := 0; l_chunks := [] |}).
  assert (Forall supported_token (map escape enc)) as Htok.
  { apply Forall_forall. intros t Ht.
    apply list_elem_of_In, in_map_iff in Ht as (c & <- & Hc).
    exists c. split; [|done].
    rewrite Forall_forall in Hencs. apply Hencs. by apply list_elem_of_In. }
  destruct (compress_scan_total m (map escape enc) 0 st0 g c2 Htok)
    as (st & c3 & Hscan).
  assert (exists bound, scan_inv (map escape enc) hd0 bound st) as [bound Hinv].
  { assert (scan_inv (map escape enc) hd0 (0 + 0) st0) as Hinit.
    { constructor; simpl; try done.
      exists []. split; [|by intros p []].
      split_and!; [done|by intros p []|]. intros a b p q _ Ha. done. }
    assert (Forall is_token (map escape enc)) as Htok'.
    { eapply Forall_impl; [exact Htok|]. apply supported_token_is_token. }
    exact (compress_scan_inv (map escape enc) hd0 m (map escape enc) Htok'
             0%nat 0%nat st0 g c2 st c3 eq_refl Hinit Hscan). }
  destruct Hinv as [_ _ _ _ Hcap Hbody Hnonempty].
  destruct (res_map_total
              (renumber (sorted_by_key (enumerate (l_chunks st)))) (body st))
    as [bd Hbd].
  { apply Forall_forall. intros part Hpart.
    rewrite Forall_forall in Hbody, Hnonempty.
    apply renumber_total; [by apply Hnonempty|].
    eapply body_part_ok_mono; [exact Hcap|]. by apply Hbody. }
  assert (s_compress_parts plaintext g cur = Done (head st, bd, foot st) c3)
    as Hparts.
  { unfold s_compress_parts.
    rewrite (bind_step _ _ _ _ _ _ Hkey).
    rewrite (bind_step _ _ _ _ _ _ (lift_Ok_run _ _ _ _ Henc)).
    rewrite (bind_step _ _ _ _ _ _ Hm).
    fold hd0. fold st0.
    rewrite (bind_step _ _ _ _ _ _ Hscan).
    rewrite (bind_step _ _ _ _ _ _ (lift_Ok_run _ _ _ _ Hbd)).
    done. }
  exists (head st), bd, (foot st), c3. split; [done|].
  unfold s_compress. rewrite (bind_step _ _ _ _ _ _ Hparts). done.
Qed.

(** ** Pipeline: the passes of [s_decompress] *)

Lemma is_digit_In (d : pchar) : is_digit d = true -> In d (zrange 48 10).
Proof.
  unfold is_digit. intros H. apply andb_true_iff in H as [H1 H2].
  apply Z.leb_le in H1, H2. apply zrange_In. lia.
Qed.

Lemma three_digits_read_back :
  forallb (fun d1 =>
    forallb (fun d2 =>
      forallb (reads_back d1 d2) (zrange 48 10)) (zrange 48 10))
    (zrange 48 10) = true.
Proof. vm_compute. reflexivity. Qed.

Lemma three_digits_spec (d1 d2 d3 : pchar) :
  is_digit d1 = true -> is_digit d2 = true -> is_digit d3 = true ->
  py_int [d1; d2; d3] = Ok (int_of_digits [d1; d2; d3]) /\
  (reserved [d1; d2; d3] = false -> 1 <= int_of_digits [d1; d2; d3]).
Proof.
  intros H1 H2 H3.
  pose proof (proj1 (forallb_forall _ _) three_digits_read_back d1
                (is_digit_In d1 H1)) as Ha.
  pose proof (proj1 (forallb_forall _ _) Ha d2 (is_digit_In d2 H2)) as Hb.
  pose proof (proj1 (forallb_forall _ _) Hb d3 (is_digit_In d3 H3)) as H.
  unfold reads_back in H.
  destruct (py_int [d1; d2; d3]) as [n|]; [|discriminate H].
  apply andb_true_iff in H as [Hn Hr]. apply Z.eqb_eq in Hn. subst n.
  split; [done|]. intros Hres. rewrite Hres in Hr. simpl in Hr.
  by apply Z.leb_le.
Qed.

(** A match of ['@([0-9]{3})'] at the start of the text. *)
Lemma sub_at_match (f : pstr -> res pstr) (d1 d2 d3 : pchar) (rest : pstr) :
  is_digit d1 = true -> is_digit d2 = true -> is_digit d3 = true ->
  sub_at f (ch "@" :: d1 :: d2 :: d3 :: rest) =
  (let? r := f [d1; d2; d3] in
   let? t := sub_at f rest in
   Ok (r ++ t))%res.
Proof.
  intros H1 H2 H3. cbn [sub_at]. rewrite H1, H2, H3.
  by rewrite Z.eqb_refl.
Qed.

Lemma replace_reserved (chunks_ : list pstr) (num : pstr) :
  reserved num = true -> replace chunks_ num = Ok (ch "@" :: num).
Proof. unfold replace. by intros ->. Qed.

Lemma replace_rank (chunks_ : list pstr) (d1 d2 d3 : pchar) :
  is_digit d1 = true -> is_digit d2 = true -> is_digit d3 = true ->
  reserved [d1; d2; d3] = false ->
  replace chunks_ [d1; d2; d3] =
  index chunks_ (Z.to_nat (int_of_digits [d1; d2; d3] - 1)).
Proof.
  intros H1 H2 H3 Hres.
  destruct (three_digits_spec d1 d2 d3 H1 H2 H3) as [Hint Hpos].
  specialize (Hpos Hres).
  unfold replace. rewrite Hres, Hint. cbn [res_bind].
  assert ((0 <=? int_of_digits [d1; d2; d3] - 1) = true) as ->
    by (apply Z.leb_le; lia).
  done.
Qed.

(** ** Pipeline: the round trip *)

(** Under the matrix key [[1, 1, 1], [2, 2, 2], [3, 3, 3]] the seed matrix
    of the token ' ' is not the only non-negative quotient. *)
Lemma singular_key_two_quotients :
  matmul [[32; 0; 0]; [1; 2; 3]; [3; 2; 1]] [[1; 1; 1]; [2; 2; 2]; [3; 3; 3]]
  = matmul [[8; 0; 8]; [1; 2; 3]; [3; 2; 1]] [[1; 1; 1]; [2; 2; 2]; [3; 3; 3]].
Proof. reflexivity. Qed.

(** A run on which the round trip succeeds: the two chunks of "aa0aaa"
    are listed in HEAD in extraction order, [r_sort] puts them in sorted
    order, and the references of BODY, which carry sorted ranks, resolve
    to the right chunks. *)
Lemma round_trip_two_chunks :
  exists (artifact : pstr) (c1 c2 : nat),
    s_compress (py "aa0aaa") two_chunk_draws 0%nat = Done artifact c1 /\
    s_decompress 1 artifact swap_then_inverting_draws 0%nat
    = Done (py "aa0aaa") c2.
Proof.
  eexists _, _, _. split; [vm_compute; reflexivity|].
  vm_compute. reflexivity.
Qed.

(** C1, evaluated at a failing run.  [s_compress] of the text " " draws
    the singular matrix key [[1, 1, 1], [2, 2, 2], [3, 3, 3]] and
    substitutes the token ' ' by the product of its seed matrix with the
    key; in [s_decompress] the search of [matdiv] returns the quotient
    [[8, 0, 8], [1, 2, 3], [3, 2, 1]], [matrix_fix] reads the character 8
    from it, and every loop terminates: the text that comes back is the
    backspace character, not the space. *)
Theorem round_trip_fails_on_singular_key :
  exists (artifact : pstr) (c1 c2 : nat),
    s_compress (py " ") singular_key_draws 0%nat = Done artifact c1 /\
    artifact =
      py "001!wes!/[[1, 1, 1], [2, 2, 2], [3, 3, 3]]/" ++ [10] ++
      py "C/[[32, 32, 32], [14, 14, 14], [10, 10, 10]]/" ++ [10] /\
    s_decompress 8 artifact other_quotient_draws 0%nat = Done [8] c2 /\
    [8] <> py " ".
Proof.
  eexists _, _, _. split_and!.
  - vm_compute. reflexivity.
  - vm_compute. reflexivity.
  - vm_compute. reflexivity.
  - discriminate.
Qed.

(** ** Errors of [s_decompress] *)

Lemma res_bind_Raise {A B} (r : res A) (k : A -> res B) (e : exn) :
  res_bind r k = Raise e ->
  r = Raise e \/ exists a, r = Ok a /\ k a = Raise e.
Proof.
  destruct r as [a|e']; simpl; intros H; [right; eauto | left].
  by inversion H.
Qed.

Lemma bind_Failed {A B} (m : M A) (k : A -> M B) g cur (e : exn) :
  bind m k g cur = Failed e ->
  m g cur = Failed e \/
  exists a c1, m g cur = Done a c1 /\ k a g c1 = Failed e.
Proof.
  unfold bind. destruct (m g cur) as [a c1|e'|]; intros H;
    [right; eauto | left | discriminate].
  by inversion H.
Qed.

Lemma lift_Failed {A} (r : res A) g cur (e : exn) :
  lift r g cur = Failed e -> r = Raise e.
Proof.
  destruct r; simpl; unfold ret, fail; intros H; [discriminate|].
  by inversion H.
Qed.

(** Split a failed run into the step that failed. *)
Ltac inv_fail :=
  repeat match goal with
  | H : Raise _ = Raise _ |- _ => inversion H; subst; clear H
  | H : Failed _ = Failed _ |- _ => inversion H; subst; clear H
  | H : Ok _ = Raise _ |- _ => discriminate H
  | H : Done _ _ = Failed _ |- _ => discriminate H
  | H : OutOfFuel = Failed _ |- _ => discriminate H
  | H : ret _ _ _ = Failed _ |- _ => discriminate H
  | H : timeout _ _ = Failed _ |- _ => discriminate H
  | H : fail _ _ _ = Failed _ |- _ => unfold fail in H
  | H : lift _ _ _ = Failed _ |- _ => apply lift_Failed in H
  | H : res_bind _ _ = Raise _ |- _ =>
      apply res_bind_Raise in H; destruct H as [H|(? & ? & H)]
  | H : bind _ _ _ _ = Failed _ |- _ =>
      apply bind_Failed in H; destruct H as [H|(? & ? & ? & H)]
  end.

Lemma py_int_Raise s e :
  py_int s = Raise e -> e = ValueError \/ e = Unmodelled.
Proof.
  unfold py_int.
  destruct (forallb (fun c => (0 <=? c) && (c <? 128)) s
            && (length s <=? 4300)%nat);
    [|intros H; right; by inversion H].
  intros H. left. revert H. unfold int_ascii.
  destruct (strip s) as [|c s'].
  - destruct (digits_ok false []); intros H; by inversion H.
  - destruct (c =? 45); [|destruct (c =? 43)];
      match goal with |- context [digits_ok false ?d] =>
        destruct (digits_ok false d) end;
      intros H; by inversion H.
Qed.

Lemma index_Raise {A} (xs : list A) i e : index xs i = Raise e -> e = IndexError.
Proof. unfold index. destruct (xs !! i); intros H; by inversion H. Qed.

Lemma chr_Raise n e : chr n = Raise e -> e = ValueError.
Proof.
  unfold chr. destruct ((0 <=? n) && (n <? 1114112)); intros H; by inversion H.
Qed.

Lemma py_mod_Raise i n e : py_mod i n = Raise e -> e = ZeroDivisionError.
Proof. unfold py_mod. destruct n; intros H; by inversion H. Qed.

Ltac builtin_leaf :=
  match goal with
  | H : py_int _ = Raise _ |- _ =>
      apply py_int_Raise in H; destruct H; by subst
  | H : index _ _ = Raise _ |- _ => apply index_Raise in H; by subst
  | H : chr _ = Raise _ |- _ => apply chr_Raise in H; by subst
  | H : py_mod _ _ = Raise _ |- _ => apply py_mod_Raise in H; by subst
  end.

Lemma s_encrypt_from_Raise s : forall i key e,
  s_encrypt_from i s key = Raise e -> module_defined e = false.
Proof.
  induction s as [|c s IH]; intros i key e H; simpl in H; [discriminate|].
  inv_fail; try builtin_leaf.
  - repeat match goal with
           | H : (if ?b then _ else _) = Raise _ |- _ => destruct b
           end; inv_fail; builtin_leaf.
  - eauto.
Qed.

Lemma choice_Failed {A} (l : list A) g cur e :
  choice l g cur = Failed e -> module_defined e = false.
Proof.
  destruct l as [|a l]; unfold choice; intros H; inv_fail; try done.
  builtin_leaf.
Qed.

Lemma decrypt_attempt_Failed enc : forall i key g cur e,
  decrypt_attempt i enc key g cur = Failed e -> module_defined e = false.
Proof.
  induction enc as [|c enc IH]; intros i key g cur e H;
    cbn [decrypt_attempt] in H; [discriminate|].
  destruct (i mod 2 =? 0)%nat; [eauto|].
  inv_fail; try builtin_leaf; eauto using choice_Failed.
Qed.

Lemma s_decrypt_loop_Failed fuel : forall enc key p0 g cur e,
  s_decrypt_loop fuel enc key p0 g cur = Failed e -> module_defined e = false.
Proof.
  induction fuel as [|fuel IH]; intros enc key p0 g cur e H; simpl in H;
    destruct (s_encrypt p0 key) as [again|e'] eqn:Hp0;
    try (inversion H; subst; by eapply s_encrypt_from_Raise);
    destruct (str_eqb enc again); try discriminate.
  inv_fail; eauto using decrypt_attempt_Failed.
Qed.

Lemma randint_not_Failed lo hi g cur e : randint lo hi g cur <> Failed e.
Proof. unfold randint, bind, draw, ret. discriminate. Qed.

Lemma rand_row_not_Failed n lo hi : forall g cur e,
  rand_row n lo hi g cur <> Failed e.
Proof.
  induction n as [|n IH]; intros g cur e H; simpl in H; [discriminate|].
  inv_fail; [by eapply randint_not_Failed | by eapply IH].
Qed.

Lemma rand_matrix_not_Failed rows cols lo hi : forall g cur e,
  rand_matrix rows cols lo hi g cur <> Failed e.
Proof.
  induction rows as [|rows IH]; intros g cur e H; simpl in H; [discriminate|].
  inv_fail; [by eapply rand_row_not_Failed | by eapply IH].
Qed.

Lemma matdiv_tries_not_Failed n c b d0 d1 maxv : forall g cur e,
  matdiv_tries n c b d0 d1 maxv g cur <> Failed e.
Proof.
  induction n as [|n IH]; intros g cur e H; simpl in H; [discriminate|].
  inv_fail; [by eapply rand_matrix_not_Failed|].
  match goal with
  | H : (if ?t then _ else _) _ _ = Failed _ |- _ => destruct t
  end; [discriminate|by eapply IH].
Qed.

Lemma matdiv_loop_not_Failed fuel c b d0 d1 : forall maxv g cur e,
  matdiv_loop fuel c b d0 d1 maxv g cur <> Failed e.
Proof.
  induction fuel as [|fuel IH]; intros maxv g cur e H; simpl in H;
    [discriminate|].
  inv_fail; [by eapply matdiv_tries_not_Failed|].
  match goal with
  | H : match ?found with Some _ => _ | None => _ end _ _ = Failed _ |- _ =>
      destruct found
  end; [discriminate|by eapply IH].
Qed.

Lemma matdiv_Failed fuel c b g cur e :
  matdiv fuel c b g cur = Failed e -> module_defined e = false.
Proof.
  unfold matdiv. destruct b as [|b0 b']; intros H.
  - by inversion H.
  - by apply matdiv_loop_not_Failed in H.
Qed.

Lemma flush_num_Raise num e : flush_num num = Raise e -> e = Unmodelled.
Proof.
  unfold flush_num. destruct num as [[neg ds]|]; [|discriminate].
  destruct ds as [|d ds]; [intros H; by inversion H|].
  destruct (((d =? 48) && negb (forallb (fun c => c =? 48) ds))
            || (4300 <? length (d :: ds))%nat);
    intros H; by inversion H.
Qed.

Lemma lex_Raise s : forall num e, lex s num = Raise e -> e = Unmodelled.
Proof.
  induction s as [|c s IH]; intros num e H; cbn [lex] in H.
  - by eapply flush_num_Raise.
  - destruct (is_digit c).
    + destruct num as [[neg ds]|]; eauto.
    + inv_fail; [by eapply flush_num_Raise|].
      destruct (c =? 91); [inv_fail; eauto|].
      destruct (c =? 93); [inv_fail; eauto|].
      destruct (c =? 44); [inv_fail; eauto|].
      destruct (c =? 32); [eauto|].
      destruct (c =? 45); [eauto|].
      by inversion H.
Qed.

Lemma parse_nums_Raise (n : nat) : forall ts e,
  (length ts <= n)%nat -> parse_nums ts = Raise e -> e = Unmodelled.
Proof.
  induction n as [|n IH]; intros ts e Hlen H.
  - destruct ts; [by inversion H|simpl in Hlen; lia].
  - destruct ts as [|[| | |k] ts]; try (by inversion H).
    destruct ts as [|[| | |k'] ts]; try (by inversion H).
    cbn [parse_nums] in H.
    destruct (parse_nums ts) as [[ns rest']|e'] eqn:Hrec; [discriminate|].
    inversion H; subst. eapply (IH ts); [simpl in Hlen; lia|done].
Qed.

Lemma parse_row_Raise ts e : parse_row ts = Raise e -> e = Unmodelled.
Proof.
  unfold parse_row. destruct ts as [|[| | |k] ts]; try (intros H; by inversion H).
  destruct ts as [|[| | |k] ts]; try (intros H; by inversion H);
    by apply (parse_nums_Raise (S (length ts))).
Qed.

Lemma parse_rows_Raise n : forall ts e,
  parse_rows n ts = Raise e -> e = Unmodelled.
Proof.
  induction n as [|n IH]; intros ts e H; cbn [parse_rows] in H.
  - by inversion H.
  - destruct (parse_row ts) as [[r rest]|e'] eqn:Hrow.
    + destruct rest as [|[| | |k] rest]; try (by inversion H).
      destruct (parse_rows n rest) as [[rs rest']|e'] eqn:Hrec;
        [discriminate|].
      inversion H; subst. eauto.
    + inversion H; subst. by eapply parse_row_Raise.
Qed.

Lemma eval_matrix_Raise s e : eval_matrix s = Raise e -> module_defined e = false.
Proof.
  unfold eval_matrix. intros H. inv_fail.
  - apply lex_Raise in H. by subst.
  - destruct x as [|[| | |k] ts]; try (by inversion H).
    destruct (parse_rows (length ts) ts) as [[m rest]|e'] eqn:Hrec.
    + destruct ts as [|t ts']; [discriminate|].
      destruct t; destruct ts'; destruct rest; try discriminate;
        by inversion H.
    + assert (e' = Unmodelled) as -> by by eapply parse_rows_Raise.
      destruct ts as [|t ts']; [by inversion H|].
      destruct t; destruct ts'; by inversion H.
Qed.

Lemma matrix_fix_Failed fuel mkey group g cur e :
  matrix_fix fuel mkey group g cur = Failed e -> module_defined e = false.
Proof.
  unfold matrix_fix. intros H. inv_fail;
    try builtin_leaf; eauto using eval_matrix_Raise, matdiv_Failed.
  match goal with
  | H : (if ?b then _ else _) _ _ = Failed _ |- _ => destruct b
  end; inv_fail; builtin_leaf.
Qed.

Lemma sub_matrix_Failed fuel mkey s : forall skip g cur e,
  sub_matrix fuel mkey skip s g cur = Failed e -> module_defined e = false.
Proof.
  induction s as [|c s IH]; intros skip g cur e H; cbn [sub_matrix] in H;
    [discriminate|].
  destruct skip as [|skip']; [|eauto].
  destruct (match_matrix (c :: s)) as [grp|];
    inv_fail; eauto using matrix_fix_Failed.
Qed.

Lemma shuffle_from_not_Failed {A} i : forall (x : list A) g cur e,
  shuffle_from i x g cur <> Failed e.
Proof.
  induction i as [|i IH]; intros x g cur e H; simpl in H; [discriminate|].
  inv_fail; [discriminate|by eapply IH].
Qed.

Lemma r_sort_not_Failed {A} (lt : A -> A -> bool) fuel :
  forall (l : list A) g cur e, r_sort lt fuel l g cur <> Failed e.
Proof.
  unfold r_sort.
  induction fuel as [|fuel IH]; intros l g cur e H; simpl in H;
    [discriminate|].
  inv_fail; [by eapply shuffle_from_not_Failed|].
  match goal with
  | H : (if ?t then _ else _) _ _ = Failed _ |- _ => destruct t
  end; [by eapply IH|discriminate].
Qed.

Lemma replace_Raise chunks_ num e : replace chunks_ num = Raise e -> module_defined e = false.
Proof.
  unfold replace. destruct (reserved num); [discriminate|].
  intros H. inv_fail; [builtin_leaf|].
  destruct (0 <=? x - 1); [builtin_leaf|].
  destruct (0 <=? Z.of_nat (length chunks_) + (x - 1)); [builtin_leaf|].
  by inversion H.
Qed.

Lemma replace_special_Ok num : exists r, replace_special num = Ok r.
Proof.
  unfold replace_special.
  destruct (str_eqb num (py "000")); [eauto|].
  destruct (str_eqb num (py "998")); eauto.
Qed.

Lemma sub_at_Raise (f : pstr -> res pstr) (n : nat) : forall s e,
  (length s <= n)%nat ->
  (forall num e', f num = Raise e' -> module_defined e' = false) ->
  sub_at f s = Raise e -> module_defined e = false.
Proof.
  induction n as [|n IH]; intros s e Hlen Hf H.
  - destruct s; [discriminate|simpl in Hlen; lia].
  - destruct s as [|c s]; [discriminate|].
    simpl in Hlen.
    assert (forall t, (let? t0 := sub_at f s in Ok (c :: t0))%res = Raise t ->
                      module_defined t = false) as Hskip.
    { intros t Ht. inv_fail. eapply (IH s t); [lia|done..]. }
    cbn [sub_at] in H.
    destruct s as [|d1 [|d2 [|d3 s'']]]; try (by apply Hskip).
    destruct ((c =? ch "@") && is_digit d1 && is_digit d2 && is_digit d3);
      [|by apply Hskip].
    inv_fail; [by eapply Hf|].
    eapply (IH s'' e); [simpl in *; lia|done..].
Qed.

(** [s_decompress] never fails with an exception of the module's own. *)
Lemma s_decompress_Failed fuel x g cur e :
  s_decompress fuel x g cur = Failed e -> module_defined e = false.
Proof.
  unfold s_decompress. intros H. inv_fail; [builtin_leaf|].
  destruct (split 10 (drop 3 x)) as [|hd [|bd [|ft [|? ?]]]];
    try (by inversion H).
  destruct (split (ch "/") hd) as [|key [|mkey_text entries]];
    try (by inversion H).
  inv_fail.
  - by eapply eval_matrix_Raise.
  - by apply r_sort_not_Failed in H.
  - by eapply sub_matrix_Failed.
  - match goal with
    | H : sub_at _ ?s = Raise _ |- _ =>
        eapply (sub_at_Raise _ (length s) s); [done| |exact H]
    end.
    apply replace_Raise.
  - match goal with
    | H : sub_at _ ?s = Raise _ |- _ =>
        eapply (sub_at_Raise _ (length s) s); [done| |exact H]
    end.
    intros num e' He'. destruct (replace_special_Ok num) as [r Hr]. congruence.
  - by eapply s_decrypt_loop_Failed.
Qed.

(** Counterexample to C9 as stated: an artifact without section
    separators makes [s_decompress] fail with the built-in [ValueError] of
    the unpacking assignment. *)
Lemma malformed_fails_with_format_error_fails :
  ~ malformed_fails_with_format_error.
Proof.
  intros H.
  assert (malformed (py "001!wes!/[[1, 1, 1], [1, 1, 1], [1, 1, 1]]/")) as Hm.
  { apply missing_section. vm_compute. discriminate. }
  destruct (H _ Hm 0%nat (fun _ => 0%nat) 0%nat) as (e & He & Hdef).
  vm_compute in He. inversion He; subst e. discriminate.
Qed.

(* ===================================================================== *)
(** * Part III: further properties of the code                            *)
(* ===================================================================== *)

(** ** StreamCipher: the shape and the failures of [s_encrypt] *)

Lemma s_encrypt_from_shape (s : pstr) : forall (i : nat) (key out : pstr),
  s_encrypt_from i s key = Ok out ->
  length out = (2 * length s)%nat /\
  forall (j : nat) (tag : pchar), out !! (2 * j)%nat = Some tag ->
    tag = ch "A" \/ tag = ch "B" \/ tag = ch "C".
Proof.
  induction s as [|c s IH]; intros i key out H.
  - inversion H; subst. split; [done|]. intros j tag Hj. done.
  - apply s_encrypt_from_cons in H
      as (e & tag0 & pay & tl & _ & -> & Htl & Hcase).
    destruct (IH _ _ _ Htl) as [Hlen Htags]. split.
    + simpl. lia.
    + intros [|j] tag Hj.
      * simpl in Hj. inversion Hj; subst.
        destruct Hcase as [(-> & _)|[(-> & _)|(-> & _)]]; auto.
      * replace (2 * S j)%nat with (S (S (2 * j))) in Hj by lia.
        change ((tag0 :: pay :: tl) !! S (S (2 * j)) = Some tag)
          with (tl !! (2 * j)%nat = Some tag) in Hj. eauto.
Qed.

(** X1.  A ciphertext of [s_encrypt] is twice as long as the plaintext,
    and its characters at the even indices 0, 2, 4, ... are the tags
    'A', 'B' or 'C'. *)
Theorem s_encrypt_doubles_and_tags (s k c : pstr) :
  s_encrypt s k = Ok c ->
  length c = (2 * length s)%nat /\
  forall (j : nat) (tag : pchar), c !! (2 * j)%nat = Some tag ->
    tag = ch "A" \/ tag = ch "B" \/ tag = ch "C".
Proof. apply s_encrypt_from_shape. Qed.

(** Witness of X1: the ciphertext of "hi" under the key "!wes!". *)
Lemma s_encrypt_doubles_and_tags_witness :
  s_encrypt (py "hi") (py "!wes!") = Ok (py "BGCi") /\
  length (py "BGCi") = (2 * length (py "hi"))%nat.
Proof.
  split; [reflexivity|].
  apply (s_encrypt_doubles_and_tags (py "hi") (py "!wes!") (py "BGCi")).
  reflexivity.
Defined.

Lemma s_encrypt_from_total (s : pstr) : forall (i : nat) (key : pstr),
  key <> [] ->
  Forall code_point key ->
  Forall code_point s ->
  exists enc, s_encrypt_from i s key = Ok enc /\ Forall code_point enc.
Proof.
  induction s as [|c s IH]; intros i key Hne Hkey Hs.
  - exists []. by split.
  - inversion Hs as [|? ? Hc Hs']; subst.
    destruct (IH (S i) key Hne Hkey Hs') as (tl & Htl & Htls).
    assert (length key <> 0%nat) as Hlen by (by destruct key).
    assert (i mod length key < length key)%nat as Hlt
      by (by apply Nat.mod_upper_bound).
    destruct (lookup_lt_is_Some_2 _ _ Hlt) as [e He].
    pose proof (Forall_lookup_1 _ _ _ _ Hkey He) as Hebound.
    simpl in Hebound.
    cbn [s_encrypt_from].
    assert (py_mod i (length key) = Ok (i mod length key)%nat) as ->
      by (by apply py_mod_Ok).
    cbn [res_bind].
    assert (index key (i mod length key)%nat = Ok e) as ->
      by (by apply index_Ok).
    cbn [res_bind]. unfold ord. rewrite Htl.
    assert (forall n, code_point n -> chr n = Ok n) as Hchr.
    { intros n Hn. by apply chr_Ok. }
    assert (code_point (ch "A") /\ code_point (ch "B") /\ code_point (ch "C"))
      as (HA & HB & HC).
    { change (ch "A") with 65. change (ch "B") with 66.
      change (ch "C") with 67. unfold code_point. lia. }
    unfold code_point in Hc, Hebound.
    destruct (Z.ltb_spec c (e - 32)); [|destruct (Z.ltb_spec e (c - 32))].
    + rewrite Hchr by (unfold code_point; lia). cbn [res_bind app].
      eexists. split; [done|].
      constructor; [done|].
      constructor; [unfold code_point; lia|done].
    + rewrite Hchr by (unfold code_point; lia). cbn [res_bind app].
      eexists. split; [done|].
      constructor; [done|].
      constructor; [unfold code_point; lia|done].
    + cbn [res_bind app]. eexists. split; [done|].
      constructor; [done|]. by constructor.
Qed.

(** X2.  On Python strings, [s_encrypt] raises exactly when the key is
    empty and the plaintext is not, and the exception is then the
    [ZeroDivisionError] of [i % len(key)]; the empty plaintext is
    encrypted to the empty string under any key. *)
Theorem s_encrypt_raises_iff_empty_key (s k : pstr) :
  Forall code_point s ->
  Forall code_point k ->
  match s_encrypt s k with
  | Ok c => (s = [] \/ k <> []) /\ Forall code_point c
  | Raise e => e = ZeroDivisionError /\ k = [] /\ s <> []
  end.
Proof.
  intros Hs Hk. destruct k as [|e k].
  - destruct s as [|c s]; simpl.
    + split; [by left|done].
    + done.
  - destruct (s_encrypt_from_total s 0 (e :: k) ltac:(done) Hk Hs)
      as (enc & Henc & Hcp).
    unfold s_encrypt. rewrite Henc. split; [by right|done].
Qed.

(** Witness of X2: "hi" under the empty key. *)
Lemma s_encrypt_raises_iff_empty_key_witness :
  s_encrypt (py "hi") [] = Raise ZeroDivisionError /\
  ZeroDivisionError = ZeroDivisionError /\ @nil Z = [] /\ py "hi" <> [].
Proof.
  split; [reflexivity|].
  apply (s_encrypt_raises_iff_empty_key (py "hi") []).
  - repeat constructor; vm_compute; discriminate.
  - constructor.
Defined.

(** X3.  For a fixed key [s_encrypt] is injective: two plaintexts with
    the same ciphertext are equal. *)
Theorem s_encrypt_injective (s1 s2 k c : pstr) :
  s_encrypt s1 k = Ok c -> s_encrypt s2 k = Ok c -> s1 = s2.
Proof. intros H1 H2. by eapply s_encrypt_from_inj. Qed.

(** Witness of X3: the two plaintexts of the ciphertext "BGCi". *)
Lemma s_encrypt_injective_witness :
  py "hi" = py "hi".
Proof.
  apply (s_encrypt_injective (py "hi") (py "hi") (py "!wes!") (py "BGCi"));
    reflexivity.
Defined.

(** ** StreamCipher: when the search of [s_decrypt] ends *)

(** Witness of X4: the ciphertext of "hi" is decrypted with two draws. *)
Lemma s_decrypt_can_return_witness :
  s_decrypt 1 (py "BGCi") (py "!wes!")
    (inverting_draws (py "hi") (py "!wes!")) 0%nat
  = Done (py "hi") 2%nat.
Proof.
  apply (s_decrypt_can_return (py "hi") (py "!wes!") (py "BGCi")).
  - repeat constructor; vm_compute; discriminate.
  - reflexivity.
Defined.

(** One pass of the search never raises under a non-empty key, and its
    candidate is a Python string. *)
Lemma decrypt_attempt_total (enc : pstr) : forall (i : nat) (key : pstr) g cur,
  key <> [] ->
  Forall code_point enc ->
  exists p cur',
    decrypt_attempt i enc key g cur = Done p cur' /\ Forall code_point p.
Proof.
  induction enc as [|c enc IH]; intros i key g cur Hne Henc.
  - exists [], cur. by split.
  - inversion Henc as [|? ? Hc Henc']; subst.
    cbn [decrypt_attempt]. destruct (i mod 2 =? 0)%nat; [by apply IH|].
    assert (length key <> 0%nat) as Hlen by (by destruct key).
    assert ((i / 2) mod length key < length key)%nat as Hlt
      by (by apply Nat.mod_upper_bound).
    destruct (lookup_lt_is_Some_2 _ _ Hlt) as [k Hk].
    rewrite (bind_step _ _ _ _ ((i / 2) mod length key)%nat cur)
      by (apply lift_Ok_run; by apply py_mod_Ok).
    rewrite (bind_step _ _ _ _ k cur)
      by (apply lift_Ok_run; by apply index_Ok).
    destruct (choice_total (possibilities k c) g cur) as (x & Hx & Hin).
    { unfold possibilities. by destruct (chr_cand _), (chr_cand _). }
    rewrite (bind_step _ _ _ _ _ _ Hx).
    destruct (IH (S i) key g (S cur) Hne Henc') as (ps & cur' & Hps & Hcp).
    rewrite (bind_step _ _ _ _ _ _ Hps).
    exists (x :: ps), cur'. split; [done|].
    constructor; [|done].
    apply possibilities_In in Hin as [[-> ?]|[[-> ?]| ->]]; done.
Qed.

Lemma s_decrypt_loop_odd (fuel : nat) : forall (enc key p0 : pstr) g cur,
  key <> [] ->
  Forall code_point key ->
  Forall code_point enc ->
  Forall code_point p0 ->
  (length enc mod 2 = 1)%nat ->
  s_decrypt_loop fuel enc key p0 g cur = OutOfFuel.
Proof.
  induction fuel as [|fuel IH]; intros enc key p0 g cur Hne Hkey Henc Hp0 Hodd;
    destruct (s_encrypt_from_total p0 0 key Hne Hkey Hp0) as (again & Ha & _);
    cbn [s_decrypt_loop]; unfold s_encrypt; rewrite Ha;
    destruct (str_eqb enc again) eqn:Heq;
    try (apply str_eqb_eq in Heq; subst again;
         apply s_encrypt_from_shape in Ha as [Hl _]; rewrite Hl in Hodd;
         exfalso; rewrite Nat.mul_comm, Nat.Div0.mod_mul in Hodd;
         discriminate Hodd).
  - done.
  - destruct (decrypt_attempt_total enc 0 key g cur Hne Henc)
      as (cand & cur' & Hc & Hcp).
    rewrite (bind_step _ _ _ _ _ _ Hc). by apply IH.
Qed.

(** X5.  A ciphertext of odd length is never decrypted: under a
    non-empty key the search of [s_decrypt] neither returns nor raises,
    however many candidates it tries. *)
Theorem s_decrypt_odd_length_never_ends (enc key : pstr) (fuel : nat)
    (g : nat -> nat) (cur : nat) :
  key <> [] ->
  Forall code_point key ->
  Forall code_point enc ->
  (length enc mod 2 = 1)%nat ->
  s_decrypt fuel enc key g cur = OutOfFuel.
Proof. intros. by apply s_decrypt_loop_odd. Qed.

(** Witness of X5: fifty candidates for a ciphertext of three characters. *)
Lemma s_decrypt_odd_length_never_ends_witness :
  s_decrypt 50 (py "BGC") (py "!wes!") (fun n => n) 0%nat = OutOfFuel.
Proof.
  apply (s_decrypt_odd_length_never_ends (py "BGC") (py "!wes!")).
  - discriminate.
  - repeat constructor; vm_compute; discriminate.
  - repeat constructor; vm_compute; discriminate.
  - reflexivity.
Defined.

(** X6.  Under the empty key [s_decrypt] returns the empty ciphertext as
    it is, without a draw, and raises the [ZeroDivisionError] of
    [i // 2 % len(key)] on every ciphertext of two characters or more. *)
Theorem s_decrypt_empty_key (enc : pstr) (fuel : nat)
    (g : nat -> nat) (cur : nat) :
  s_decrypt fuel [] [] g cur = Done [] cur /\
  ((2 <= length enc)%nat ->
   s_decrypt (S fuel) enc [] g cur = Failed ZeroDivisionError).
Proof.
  split.
  - by destruct fuel.
  - intros Hlen. destruct enc as [|t [|c enc]]; simpl in Hlen; try lia.
    reflexivity.
Qed.

(** Witness of X6: a ciphertext of two characters under the empty key. *)
Lemma s_decrypt_empty_key_witness :
  s_decrypt 1 (py "Ca") [] (fun n => n) 0%nat = Failed ZeroDivisionError.
Proof.
  apply (s_decrypt_empty_key (py "Ca") 0 (fun n => n) 0%nat).
  simpl. lia.
Defined.

(** ** MatrixAlgebra: what [matmul] computes and when [matdiv] raises *)

Lemma zip_with_cons_columns (r : list Z) : forall (s n : nat) (f : nat -> list Z),
  length r = n ->
  zip_with cons r (map f (seq s n))
  = map (fun j => nth (j - s) r 0 :: f j) (seq s n).
Proof.
  induction r as [|x r IH]; intros s n f Hn; subst n; [done|].
  cbn [length seq map zip_with]. rewrite Nat.sub_diag. cbn [nth]. f_equal.
  rewrite (IH (S s) (length r) f eq_refl).
  apply map_ext_in. intros j Hj. apply in_seq in Hj.
  replace (j - s)%nat with (S (j - S s)) by lia. done.
Qed.

(** [zip( *b)] lists the columns of a rectangular matrix. *)
Lemma zip_star_columns (b : matrix) (n : nat) :
  b <> [] ->
  Forall (fun r => length r = n) b ->
  zip_star b = map (fun j => column j b) (seq 0 n).
Proof.
  induction b as [|r b IH]; intros Hne Hall; [done|].
  inversion Hall as [|? ? Hr Hb]; subst.
  destruct b as [|r' b'].
  - cbn [zip_star]. unfold column. cbn [map].
    rewrite <- (map_nth_seq r 0) at 1. rewrite map_map. done.
  - change (zip_star (r :: r' :: b'))
      with (zip_with cons r (zip_star (r' :: b'))).
    rewrite (IH ltac:(done) Hb).
    rewrite (zip_with_cons_columns r 0 (length r) _ eq_refl).
    apply map_ext. intros j. by rewrite Nat.sub_0_r.
Qed.

(** X7.  On a rectangular, non-empty [b], [matmul(a, b)] is the matrix
    product: its entry in row [i] and column [j] is the sum of the
    products of row [i] of [a] with column [j] of [b] (cut at the shorter
    of the two), one entry for each column of [b]. *)
Theorem matmul_rows_by_columns (a b : matrix) (n : nat) :
  b <> [] ->
  Forall (fun r => length r = n) b ->
  matmul a b = map (fun r => map (fun j => dot r (column j b)) (seq 0 n)) a.
Proof.
  intros Hne Hall. unfold matmul.
  rewrite (zip_star_columns b n Hne Hall).
  apply map_ext. intros r. by rewrite map_map.
Qed.

(** Witness of X7: a product of two 2x2 matrices. *)
Lemma matmul_rows_by_columns_witness :
  matmul [[1; 2]; [3; 4]] [[5; 6]; [7; 8]] = [[19; 22]; [43; 50]].
Proof.
  rewrite (matmul_rows_by_columns [[1; 2]; [3; 4]] [[5; 6]; [7; 8]] 2).
  - reflexivity.
  - discriminate.
  - repeat constructor.
Defined.

(** Witness of X8: dividing [[2]] by [[2]]. *)
Lemma matdiv_can_return_witness :
  exists cand cur',
    matdiv 1 [[2]] [[2]] (quotient_draws [[1]] 1) 0%nat = Done cand cur'.
Proof.
  apply (matdiv_can_return [[1]] [[2]] [[2]] 1).
  - discriminate.
  - reflexivity.
  - repeat constructor; simpl; lia.
  - lia.
  - reflexivity.
Defined.

(** X9.  [matdiv] raises exactly on an empty divisor, where [len(b[0])]
    is an [IndexError]; on any other divisor it returns a candidate or
    goes on searching. *)
Theorem matdiv_raises_iff_empty_divisor (fuel : nat) (c b : matrix)
    (g : nat -> nat) (cur : nat) (e : exn) :
  matdiv fuel c b g cur = Failed e <-> b = [] /\ e = IndexError.
Proof.
  unfold matdiv. destruct b as [|b0 b']; split.
  - intros H. by inversion H.
  - by intros [_ ->].
  - intros H. by apply matdiv_loop_not_Failed in H.
  - by intros [? _].
Qed.

(** ** OrderingOracle: the result of [r_sort] does not depend on the draws *)

Lemma str_ltb_antisym (a : pstr) : forall b,
  str_ltb a b = false -> str_ltb b a = false -> a = b.
Proof.
  induction a as [|x a IH]; intros [|y b]; simpl; try done.
  intros Hab Hba.
  apply orb_false_iff in Hab as [Hxy Hab], Hba as [Hyx Hba].
  apply Z.ltb_ge in Hxy, Hyx. assert (x = y) as -> by lia.
  rewrite Z.eqb_refl in Hab, Hba. simpl in Hab, Hba.
  f_equal. by apply IH.
Qed.

Lemma lookup_sorted_StronglySorted {A} (R : A -> A -> Prop) (l : list A) :
  (forall i j x y, (i < j)%nat -> l !! i = Some x -> l !! j = Some y -> R x y) ->
  StronglySorted R l.
Proof.
  induction l as [|a l IH]; intros H; constructor.
  - apply IH. intros i j x y Hij Hi Hj. by apply (H (S i) (S j)); [lia|..].
  - apply Forall_forall. intros y Hy.
    apply list_elem_of_lookup in Hy as [j Hj].
    by apply (H 0%nat (S j)); [lia|..].
Qed.

(** X11.  On lists of strings the result of [r_sort] is determined by
    the elements of its argument: two runs that return, on lists with
    the same elements and whatever the draws and the numbers of retries,
    return the same list. *)
Theorem r_sort_result_unique (lst1 lst2 res1 res2 : list pstr)
    (fuel1 fuel2 : nat) (g1 g2 : nat -> nat) (cur1 cur2 cur1' cur2' : nat) :
  lst1 ≡ₚ lst2 ->
  r_sort str_ltb fuel1 lst1 g1 cur1 = Done res1 cur1' ->
  r_sort str_ltb fuel2 lst2 g2 cur2 = Done res2 cur2' ->
  res1 = res2.
Proof.
  intros Hperm H1 H2.
  apply r_sort_loop_spec in H1 as [Hp1 Hs1], H2 as [Hp2 Hs2].
  apply (StronglySorted_unique_strong
           (fun x y : pstr => str_ltb y x = false)).
  - intros x y _ _ Hxy Hyx. by apply str_ltb_antisym.
  - apply lookup_sorted_StronglySorted.
    intros i j x y. by apply raises_not_sorted_false.
  - apply lookup_sorted_StronglySorted.
    intros i j x y. by apply raises_not_sorted_false.
  - by rewrite Hp1, Hp2.
Qed.

(** Witness of X11: two runs on the same three strings, in two orders and
    on different draws. *)
Lemma r_sort_result_unique_witness :
  r_sort str_ltb 2 [py "b"; py "c"; py "a"]
    (fun n => (1 + 2 * n) mod 7)%nat 0%nat
  = Done [py "a"; py "b"; py "c"] 4%nat /\
  r_sort str_ltb 1 [py "c"; py "a"; py "b"]
    (sorting_draws str_ltb [py "c"; py "a"; py "b"]) 0%nat
  = Done [py "a"; py "b"; py "c"] 2%nat /\
  [py "a"; py "b"; py "c"] = [py "a"; py "b"; py "c"].
Proof.
  split; [vm_compute; reflexivity|]. split; [vm_compute; reflexivity|].
  apply (r_sort_result_unique
           [py "b"; py "c"; py "a"] [py "c"; py "a"; py "b"] _ _
           2 1 (fun n => (1 + 2 * n) mod 7)%nat
           (sorting_draws str_ltb [py "c"; py "a"; py "b"])
           0%nat 0%nat 4%nat 2%nat).
  - apply (Permutation_cons_append [py "c"; py "a"] (py "b")).
  - vm_compute. reflexivity.
  - vm_compute. reflexivity.
Defined.

(** ** ChecksumTable and Footer Hasher: the domain and the failures *)

Lemma table_keys :
  forallb (fun d : dict =>
    forallb (fun kv => (32 <=? fst kv) && (fst kv <? 128)) d) table = true.
Proof. vm_compute. reflexivity. Qed.

Lemma dict_get_missing (d : dict) (byte : Z) :
  (forall kv, In kv d -> fst kv <> byte) -> dict_get d byte = Raise KeyError.
Proof.
  induction d as [|[k v] d IH]; intros H; [done|].
  cbn [dict_get]. destruct (Z.eqb_spec k byte) as [->|_].
  - exfalso. by apply (H (byte, v)); [left|].
  - apply IH. intros kv Hin. apply H. by right.
Qed.

Lemma table_missing_key (i : nat) (d : dict) (byte : Z) :
  table !! i = Some d ->
  (32 <=? byte) && (byte <? 128) = false ->
  dict_get d byte = Raise KeyError.
Proof.
  intros Hd Hb.
  apply dict_get_missing. intros kv Hin Heq. subst byte.
  pose proof table_keys as Hk. rewrite forallb_forall in Hk.
  assert (In d table) as Hdin
    by (apply list_elem_of_In; by eapply list_elem_of_lookup_2).
  specialize (Hk d Hdin). rewrite forallb_forall in Hk.
  specialize (Hk kv Hin). congruence.
Qed.

(** X12.  The generated [table] is a list of eight dictionaries, each
    with exactly the keys 32 to 127: [table[i][byte]] is
    [(b + (b << i) + (b >> i)) % 256] with [b = byte ^ 0x55] for these
    keys and a [KeyError] for every other byte. *)
Theorem table_domain (i : nat) (byte : Z) :
  match table !! i with
  | Some d =>
      (i < 8)%nat /\
      dict_get d byte =
        if (32 <=? byte) && (byte <? 128) then Ok (table_entry i byte)
        else Raise KeyError
  | None => (8 <= i)%nat
  end.
Proof.
  destruct (table !! i) as [d|] eqn:Hd.
  - assert (i < 8)%nat as Hi by (by apply lookup_lt_Some in Hd).
    split; [done|].
    destruct ((32 <=? byte) && (byte <? 128)) eqn:Hb.
    + apply andb_true_iff in Hb as [H1 H2].
      apply Z.leb_le in H1. apply Z.ltb_lt in H2.
      destruct (table_lookup i byte Hi ltac:(lia)) as (d' & Hd' & Hget).
      congruence.
    + by apply (table_missing_key i).
  - apply lookup_ge_None in Hd. exact Hd.
Qed.

(** One step of the accumulation loop on a supported byte. *)
Lemma securehash_loop_step (i : nat) (byte : Z) (rest hsh : list Z) :
  printable byte ->
  length hsh = 16%nat ->
  Forall is_byte hsh ->
  exists hsh',
    securehash_loop i (byte :: rest) hsh = securehash_loop (S i) rest hsh' /\
    length hsh' = 16%nat /\ Forall is_byte hsh'.
Proof.
  intros Hbyte Hlen Hbytes.
  assert (i mod 8 < 8)%nat as H8 by (apply Nat.mod_upper_bound; lia).
  assert (i mod 15 < 15)%nat as H15 by (apply Nat.mod_upper_bound; lia).
  destruct (table_lookup (i mod 8) byte H8 Hbyte) as (d & Hd & Ht).
  destruct (lookup_lt_is_Some_2 hsh (i mod 15)%nat ltac:(lia)) as [old Hold].
  assert (is_byte old) as Hob by (eapply Forall_lookup_1; eauto).
  pose proof (lxor_byte old _ Hob (table_entry_byte (i mod 8) byte)) as Hx.
  exists (<[(i mod 15)%nat := Z.lxor old (table_entry (i mod 8) byte)]> hsh).
  split_and!.
  - cbn [securehash_loop]. unfold index. rewrite Hd. cbn [res_bind].
    rewrite Ht. cbn [res_bind]. rewrite Hold. cbn [res_bind].
    unfold bytearray_set. rewrite Hold.
    destruct Hx as [Hx0 Hx1].
    apply Z.leb_le in Hx0 as ->. apply Z.ltb_lt in Hx1 as ->. done.
  - by rewrite length_insert.
  - by apply Forall_insert.
Qed.

Lemma securehash_loop_KeyError (plaintext : list Z) :
  forall (i : nat) (hsh : list Z),
  Forall ascii_char plaintext ->
  ~ Forall printable plaintext ->
  length hsh = 16%nat ->
  Forall is_byte hsh ->
  securehash_loop i plaintext hsh = Raise KeyError.
Proof.
  induction plaintext as [|byte rest IH]; intros i hsh Ha Hnp Hlen Hbytes.
  - by destruct Hnp.
  - inversion Ha as [|? ? Hbyte Hrest]; subst.
    destruct (decide (32 <= byte)) as [Hge|Hlt].
    + assert (printable byte) as Hp
        by (unfold printable, ascii_char in *; lia).
      destruct (securehash_loop_step i byte rest hsh Hp Hlen Hbytes)
        as (hsh' & -> & Hl' & Hb').
      apply IH; try done. intros Hall. apply Hnp. by constructor.
    + assert (i mod 8 < 8)%nat as H8 by (apply Nat.mod_upper_bound; lia).
      destruct (table !! (i mod 8)%nat) as [d|] eqn:Hd;
        [|apply lookup_ge_None in Hd;
          change (8 <= i mod 8)%nat in Hd; lia].
      assert ((32 <=? byte) = false) as Hf by (apply Z.leb_gt; lia).
      assert (dict_get d byte = Raise KeyError) as Ht
        by (apply (table_missing_key (i mod 8)); [done|by rewrite Hf]).
      cbn [securehash_loop]. unfold index. rewrite Hd. cbn [res_bind].
      by rewrite Ht.
Qed.

Lemma encode_ascii_spec (p : pstr) :
  (Forall ascii_char p -> encode_ascii p = Ok p) /\
  (~ Forall ascii_char p -> encode_ascii p = Raise ValueError).
Proof.
  unfold encode_ascii.
  destruct (forallb (fun c => (0 <=? c) && (c <? 128)) p) eqn:H.
  - split; [done|]. intros Hn. destruct Hn.
    apply Forall_forall. intros c Hc. rewrite forallb_forall in H.
    apply list_elem_of_In in Hc. specialize (H c Hc).
    apply andb_true_iff in H as [H1 H2].
    apply Z.leb_le in H1. apply Z.ltb_lt in H2. done.
  - split; [|done]. intros Hall.
    assert (forallb (fun c => (0 <=? c) && (c <? 128)) p = true) as H'.
    { apply forallb_forall. intros c Hc. apply list_elem_of_In in Hc.
      rewrite Forall_forall in Hall. specialize (Hall c Hc).
      unfold ascii_char in Hall.
      apply andb_true_iff. split; [apply Z.leb_le|apply Z.ltb_lt]; lia. }
    congruence.
Qed.

(** X13.  The failures of [s_securehash], in the order in which the code
    meets them: a character outside ASCII is the [ValueError] of
    [encode]; an ASCII text of more than 255 characters is the
    [ValueError] of [hsh[15] = len(plaintext)]; an ASCII text of at most
    255 characters with a character below 32 is the [KeyError] of the
    table lookup. *)
Theorem s_securehash_failures (p : pstr) :
  (~ Forall ascii_char p -> s_securehash p = Raise ValueError) /\
  (Forall ascii_char p -> (255 < length p)%nat ->
   s_securehash p = Raise ValueError) /\
  (Forall ascii_char p -> (length p <= 255)%nat -> ~ Forall printable p ->
   s_securehash p = Raise KeyError).
Proof.
  destruct (encode_ascii_spec p) as [Henc Hnenc]. split_and!.
  - intros Hn. unfold s_securehash. by rewrite (Hnenc Hn).
  - intros Ha Hlen. unfold s_securehash. rewrite (Henc Ha). cbn [res_bind].
    unfold bytearray_set.
    assert ((Z.of_nat (length p) <? 256) = false) as ->
      by (apply Z.ltb_ge; lia).
    by rewrite andb_false_r.
  - intros Ha Hlen Hnp. unfold s_securehash. rewrite (Henc Ha).
    cbn [res_bind]. unfold bytearray_set.
    assert ((0 <=? Z.of_nat (length p)) = true) as ->
      by (apply Z.leb_le; lia).
    assert ((Z.of_nat (length p) <? 256) = true) as ->
      by (apply Z.ltb_lt; lia).
    cbn [andb]. change (replicate 16 0 !! 15%nat) with (Some 0).
    cbn [res_bind].
    rewrite (securehash_loop_KeyError p 0 _ Ha Hnp); [done| |].
    + by rewrite length_insert.
    + apply Forall_insert; [|unfold is_byte; lia].
      apply Forall_replicate. unfold is_byte. lia.
Qed.

(** Witness of X13: a character outside ASCII, a text of 256 characters
    and a text with a newline. *)
Lemma s_securehash_failures_witness :
  s_securehash [233] = Raise ValueError /\
  s_securehash (replicate 256 97) = Raise ValueError /\
  s_securehash [97; 10] = Raise KeyError.
Proof.
  destruct (s_securehash_failures [233]) as (H1 & _ & _).
  destruct (s_securehash_failures (replicate 256 97)) as (_ & H2 & _).
  destruct (s_securehash_failures [97; 10]) as (_ & _ & H3).
  split_and!.
  - apply H1. intros H. inversion H as [|? ? Hc _]; subst.
    unfold ascii_char in Hc. lia.
  - apply H2.
    + apply Forall_replicate. unfold ascii_char. lia.
    + rewrite length_replicate. lia.
  - apply H3.
    + repeat constructor; vm_compute; discriminate.
    + simpl. lia.
    + intros H. inversion H as [|? ? _ H']; subst.
      inversion H' as [|? ? Hc _]; subst. unfold printable in Hc. lia.
Defined.

(** ** Pipeline: what the scan of [s_compress] accounts for *)

(** Witness of X14: "hi" on the draws that are all zero. *)
Lemma s_compress_returns_witness :
  exists hd bd ft cur',
    s_compress_parts (py "hi") (fun _ => 0%nat) 0%nat
    = Done (hd, bd, ft) cur' /\
    s_compress (py "hi") (fun _ => 0%nat) 0%nat
    = Done (join hd ++ [10] ++ join bd ++ [10] ++ join ft) cur'.
Proof.
  apply (s_compress_returns (py "hi") (fun _ => 0%nat) 0%nat).
  repeat constructor; vm_compute; discriminate.
Defined.

(** Every token that the scan passes ends up in BODY, as a part of its
    own or as one of the five tokens behind a reference, unless the scan
    stops at the cap of 997 chunks. *)
Lemma compress_scan_accounts m (rest : list pstr) :
  forall (skip : nat) (st : cstate) g cur (st' : cstate) cur',
    (skip <= length rest)%nat ->
    compress_scan m rest skip st g cur = Done st' cur' ->
    (length (body st') + 4 * length (l_chunks st')
     <= length (body st) + 4 * length (l_chunks st) + (length rest - skip))%nat
    /\
    (chunks st' < 997 ->
     (length (body st') + 4 * length (l_chunks st')
      = length (body st) + 4 * length (l_chunks st) + (length rest - skip))%nat).
Proof.
  induction rest as [|tok rest' IH]; intros skip st g cur st' cur' Hskip H.
  - simpl in H. apply ret_Done in H as [<- _]. simpl in *. lia.
  - cbn [compress_scan] in H. destruct skip as [|skip'].
    + destruct (997 <=? chunks st) eqn:Hcap.
      * apply ret_Done in H as [<- _]. apply Z.leb_le in Hcap.
        simpl. split; lia.
      * apply bind_Done in H as (chunk_time & c1 & Hct & H).
        destruct chunk_time.
        -- assert (5 < length (tok :: rest'))%nat as H5.
           { destruct (5 <? length (tok :: rest'))%nat eqn:E.
             - by apply Nat.ltb_lt in E.
             - apply ret_Done in Hct as [Hct _]. discriminate Hct. }
           apply bind_Done in H as (h & c2 & _ & H).
           simpl in H5.
           apply IH in H as [Hle Heq]; [|lia].
           cbn [body l_chunks] in Hle, Heq.
           rewrite !length_app in Hle, Heq. simpl in *. split; lia.
        -- apply bind_Done in H as (matrix_time & c2 & _ & H).
           destruct matrix_time.
           ++ apply bind_Done in H as (lst1 & c3 & _ & H).
              apply IH in H as [Hle Heq]; [|lia].
              cbn [body l_chunks] in Hle, Heq.
              rewrite !length_app in Hle, Heq. simpl in *. split; lia.
           ++ apply IH in H as [Hle Heq]; [|lia].
              cbn [body l_chunks] in Hle, Heq.
              rewrite !length_app in Hle, Heq. simpl in *. split; lia.
    + apply IH in H as [Hle Heq]; [|simpl in Hskip; lia].
      simpl. split; lia.
Qed.

(** X15.  In an artifact of [s_compress], BODY and the dictionary never
    hold more than the token stream: the number of parts of BODY plus
    four times the number of FOOT entries is at most twice the length of
    the plaintext (each plaintext character gives two tokens, each chunk
    stands for five tokens behind one reference), with equality whenever
    fewer than 997 chunks were cut.  Tokens are dropped only when the
    scan stops at the cap. *)
Theorem s_compress_accounts_for_tokens (plaintext : pstr)
    (g : nat -> nat) (cur cur' : nat) (hd bd ft : list pstr) :
  s_compress_parts plaintext g cur = Done (hd, bd, ft) cur' ->
  (length bd + 4 * length ft <= 2 * length plaintext)%nat /\
  ((length ft < 997)%nat ->
   (length bd + 4 * length ft = 2 * length plaintext)%nat).
Proof.
  unfold s_compress_parts. intros H.
  apply bind_Done in H as (key & c1 & Hkey & H).
  apply bind_Done in H as (enc & c2 & Henc & H).
  apply lift_Done in Henc as [Henc ->].
  apply bind_Done in H as (m & c3 & Hm & H).
  apply bind_Done in H as (st & c4 & Hscan & H).
  apply bind_Done in H as (bd' & c5 & Hbd & H).
  apply lift_Done in Hbd as [Hbd ->].
  apply ret_Done in H as [H _]. inversion H; subst; clear H.
  apply s_encrypt_from_shape in Henc as [Hlen _].
  apply res_map_Ok, Forall2_length in Hbd.
  pose proof Hscan as Hacc.
  apply compress_scan_accounts in Hacc as [Hle Heq]; [|lia].
  eapply (compress_scan_inv (map escape enc)
            [py "001"; key ++ py "/"; repr_matrix m ++ py "/"])
    with (i := 0%nat) in Hscan as [bound Hinv].
  - destruct Hinv as [_ _ Hf Hc _ _ _].
    apply Forall2_length in Hf.
    rewrite length_map in Hle, Heq. simpl in Hle, Heq.
    rewrite <- Hbd, <- Hf. split; [lia|].
    intros Hlt. specialize (Heq ltac:(lia)). lia.
  - apply Forall_forall. intros t Ht.
    apply list_elem_of_In, in_map_iff in Ht as (c & <- & _). by exists c.
  - done.
  - constructor; simpl; try done.
    exists []. split; [|by intros p []].
    split_and!; [done|by intros p []|]. intros a b p q _ Ha. done.
Qed.

(** Witness of X15: the run that cuts two chunks out of twelve tokens. *)
Lemma s_compress_accounts_for_tokens_witness :
  exists hd bd ft cur',
    s_compress_parts (py "aa0aaa") two_chunk_draws 0%nat
    = Done (hd, bd, ft) cur' /\
    (length bd + 4 * length ft = 2 * length (py "aa0aaa"))%nat.
Proof.
  eexists _, _, _, _. split; [vm_compute; reflexivity|].
  refine (proj2 (s_compress_accounts_for_tokens (py "aa0aaa")
                   two_chunk_draws 0%nat 14%nat _ _ _ _) _).
  - vm_compute. reflexivity.
  - simpl. lia.
Defined.

(** ** Pipeline: escaped text through the passes of [s_decompress] *)

Lemma escape_no_separator (enc : pstr) : no_separator (join (map escape enc)).
Proof.
  unfold no_separator, join.
  induction enc as [|c enc IH]; [constructor|].
  cbn [map concat]. apply Forall_app. split; [|exact IH].
  unfold escape.
  destruct (Z.eqb_spec c (ch "@")); [repeat constructor; discriminate|].
  destruct (Z.eqb_spec c 10); [repeat constructor; discriminate|].
  destruct (Z.eqb_spec c (ch "/")); [repeat constructor; discriminate|].
  by repeat constructor.
Qed.

(** Without a slash there is no match of ['/(.+?)/']. *)
Lemma sub_matrix_no_slash (fuel : nat) (mkey : matrix) (s : pstr) :
  forall g cur,
    Forall (fun c => c <> ch "/") s ->
    sub_matrix fuel mkey 0 s g cur = Done s cur.
Proof.
  induction s as [|c s IH]; intros g cur Hs; [done|].
  inversion Hs as [|? ? Hc Hs']; subst.
  cbn [sub_matrix].
  assert (match_matrix (c :: s) = None) as ->.
  { unfold match_matrix. destruct s as [|c1 s']; [done|].
    by destruct (Z.eqb_spec c (ch "/")). }
  by rewrite (bind_step _ _ _ _ _ _ (IH g cur Hs')).
Qed.

Lemma sub_at_other (f : pstr -> res pstr) (c : pchar) (s : pstr) :
  c <> ch "@" ->
  sub_at f (c :: s) = (let? t := sub_at f s in Ok (c :: t))%res.
Proof.
  intros Hc. cbn [sub_at].
  destruct s as [|d1 [|d2 [|d3 s']]]; try done.
  by destruct (Z.eqb_spec c (ch "@")).
Qed.

Lemma escape_cases (c : pchar) :
  (c = ch "@" /\ escape c = py "@000") \/
  (c = 10 /\ escape c = py "@999") \/
  (c = ch "/" /\ escape c = py "@998") \/
  (c <> ch "@" /\ c <> 10 /\ c <> ch "/" /\ escape c = [c]).
Proof.
  unfold escape.
  destruct (Z.eqb_spec c (ch "@")); [by left|].
  destruct (Z.eqb_spec c 10); [by right; left|].
  destruct (Z.eqb_spec c (ch "/")); [by right; right; left|].
  by right; right; right.
Qed.

(** The second pass puts every escape back as it is. *)
Lemma sub_at_replace_escaped (chunks_ : list pstr) (enc : pstr) :
  sub_at (replace chunks_) (join (map escape enc))
  = Ok (join (map escape enc)).
Proof.
  unfold join. induction enc as [|c enc IH]; [done|].
  cbn [map concat].
  destruct (escape_cases c)
    as [[_ ->]|[[_ ->]|[[_ ->]|(? & _ & _ & ->)]]].
  - change (py "@000" ++ concat (map escape enc))
      with (ch "@" :: 48 :: 48 :: 48 :: concat (map escape enc)).
    rewrite sub_at_match by done. by rewrite IH.
  - change (py "@999" ++ concat (map escape enc))
      with (ch "@" :: 57 :: 57 :: 57 :: concat (map escape enc)).
    rewrite sub_at_match by done. by rewrite IH.
  - change (py "@998" ++ concat (map escape enc))
      with (ch "@" :: 57 :: 57 :: 56 :: concat (map escape enc)).
    rewrite sub_at_match by done. by rewrite IH.
  - cbn [app]. rewrite sub_at_other by done. by rewrite IH.
Qed.

(** The third pass undoes the escaping. *)
Lemma sub_at_special_escaped (enc : pstr) :
  sub_at replace_special (join (map escape enc)) = Ok enc.
Proof.
  unfold join. induction enc as [|c enc IH]; [done|].
  cbn [map concat].
  destruct (escape_cases c)
    as [[-> ->]|[[-> ->]|[[-> ->]|(? & _ & _ & ->)]]].
  - change (py "@000" ++ concat (map escape enc))
      with (ch "@" :: 48 :: 48 :: 48 :: concat (map escape enc)).
    rewrite sub_at_match by done. by rewrite IH.
  - change (py "@999" ++ concat (map escape enc))
      with (ch "@" :: 57 :: 57 :: 57 :: concat (map escape enc)).
    rewrite sub_at_match by done. by rewrite IH.
  - change (py "@998" ++ concat (map escape enc))
      with (ch "@" :: 57 :: 57 :: 56 :: concat (map escape enc)).
    rewrite sub_at_match by done. by rewrite IH.
  - cbn [app]. rewrite sub_at_other by done. by rewrite IH.
Qed.

(** X17.  The escaping of [s_compress] is undone by [s_decompress]: on
    the escaped form of any text (['@'], newline and ['/'] written as
    ['@000'], ['@999'] and ['@998']) the matrix pass finds no match and
    draws nothing, the dictionary pass puts every escape back as it is,
    whatever the dictionary, and the last pass returns the text. *)
Theorem escape_undone_by_passes (enc : pstr) (fuel : nat) (mkey : matrix)
    (chunks_ : list pstr) (g : nat -> nat) (cur : nat) :
  sub_matrix fuel mkey 0 (join (map escape enc)) g cur
  = Done (join (map escape enc)) cur /\
  sub_at (replace chunks_) (join (map escape enc))
  = Ok (join (map escape enc)) /\
  sub_at replace_special (join (map escape enc)) = Ok enc.
Proof.
  split_and!.
  - apply sub_matrix_no_slash.
    eapply Forall_impl; [apply escape_no_separator|]. by intros c [? _].
  - apply sub_at_replace_escaped.
  - apply sub_at_special_escaped.
Qed.

(** ** Pipeline: the sections and the HEAD fields of an artifact *)

Lemma split_app_sep (sep : pchar) (a b : pstr) :
  Forall (fun c => c <> sep) a ->
  split sep (a ++ sep :: b) = a :: split sep b.
Proof.
  induction a as [|c a IH]; intros Ha.
  - cbn [app split]. by rewrite Z.eqb_refl.
  - inversion Ha as [|? ? Hc Ha']; subst.
    cbn [app split]. destruct (Z.eqb_spec c sep) as [|_]; [done|].
    by rewrite (IH Ha').
Qed.

Lemma split_no_sep (sep : pchar) (a : pstr) :
  Forall (fun c => c <> sep) a -> split sep a = [a].
Proof.
  induction a as [|c a IH]; intros Ha; [done|].
  inversion Ha as [|? ? Hc Ha']; subst.
  cbn [split]. destruct (Z.eqb_spec c sep) as [|_]; [done|].
  by rewrite (IH Ha').
Qed.

(** The three sections of a text with two newlines. *)
Lemma split_sections (hd bd ft : pstr) :
  Forall (fun c => c <> 10) hd ->
  Forall (fun c => c <> 10) bd ->
  Forall (fun c => c <> 10) ft ->
  split 10 (hd ++ [10] ++ bd ++ [10] ++ ft) = [hd; bd; ft].
Proof.
  intros Hh Hb Hf. cbn [app].
  rewrite (split_app_sep 10 hd _ Hh), (split_app_sep 10 bd _ Hb).
  by rewrite (split_no_sep 10 ft Hf).
Qed.

(** Lexing goes on with an empty state after a comma or a closing
    bracket. *)
Lemma lex_app_closed (cl : pchar) (s0 s2 : pstr) : forall num t1,
  cl = 44 \/ cl = 93 ->
  lex (s0 ++ [cl]) num = Ok t1 ->
  lex (s0 ++ cl :: s2) num
  = (let? t2 := lex s2 None in Ok (t1 ++ t2))%res.
Proof.
  induction s0 as [|c s0 IH]; intros num t1 Hcl H.
  - cbn [app lex] in *.
    destruct Hcl as [-> | ->].
    + change (is_digit 44) with false in *. cbv iota in *.
      change (44 =? 91) with false in *. change (44 =? 93) with false in *.
      change (44 =? 44) with true in *. cbv iota in *.
      destruct (flush_num num) as [done|e]; [|discriminate H].
      cbn [res_bind flush_num] in *. inversion H; subst.
      destruct (lex s2 None) as [t2|e]; [|done].
      cbn [res_bind]. by rewrite <- app_assoc.
    + change (is_digit 93) with false in *. cbv iota in *.
      change (93 =? 91) with false in *. change (93 =? 93) with true in *.
      cbv iota in *.
      destruct (flush_num num) as [done|e]; [|discriminate H].
      cbn [res_bind flush_num] in *. inversion H; subst.
      destruct (lex s2 None) as [t2|e]; [|done].
      cbn [res_bind]. by rewrite <- app_assoc.
  - cbn [app lex] in *. destruct (is_digit c).
    + destruct num as [[neg ds]|]; by apply IH.
    + destruct (flush_num num) as [done|e]; [|discriminate H].
      cbn [res_bind] in *.
      destruct (c =? 91);
        [|destruct (c =? 93);
          [|destruct (c =? 44);
            [|destruct (c =? 32);
              [|destruct (c =? 45); [|discriminate H]]]]];
        match type of H with
        | context [lex (s0 ++ [cl]) ?n] =>
            destruct (lex (s0 ++ [cl]) n) as [r|e] eqn:Hr;
              [|discriminate H];
            rewrite (IH n r Hcl Hr)
        end;
        cbn [res_bind] in H; inversion H; subst;
        destruct (lex s2 None) as [t2|e]; try done;
        cbn [res_bind]; by rewrite <- ?app_assoc.
Qed.

Lemma lex_open (s : pstr) :
  lex (91 :: s) None = (let? r := lex s None in Ok (TLBr :: r))%res.
Proof.
  cbn [lex]. change (is_digit 91) with false. cbv iota.
  cbn [flush_num res_bind]. change (91 =? 91) with true. cbv iota.
  by destruct (lex s None).
Qed.

Lemma lex_space (s : pstr) : lex (32 :: s) None = lex s None.
Proof.
  cbn [lex]. change (is_digit 32) with false. cbv iota.
  cbn [flush_num res_bind]. change (32 =? 91) with false.
  change (32 =? 93) with false. change (32 =? 44) with false.
  change (32 =? 32) with true. cbv iota.
  by destruct (lex s None).
Qed.

Lemma lex_comma_space (s : pstr) :
  lex (44 :: 32 :: s) None = (let? r := lex s None in Ok (TComma :: r))%res.
Proof.
  cbn [lex]. change (is_digit 44) with false.
  change (is_digit 32) with false. cbv iota.
  cbn [flush_num res_bind]. change (44 =? 91) with false.
  change (44 =? 93) with false. change (44 =? 44) with true.
  change (32 =? 91) with false. change (32 =? 93) with false.
  change (32 =? 44) with false. change (32 =? 32) with true. cbv iota.
  by destruct (lex s None).
Qed.

Lemma numbers_read_back :
  forallb number_reads_back (zrange 0 401) = true.
Proof. vm_compute. reflexivity. Qed.

(** The text of a number up to 400: digits that are read back. *)
Lemma small_number_text (n : Z) :
  0 <= n <= 400 ->
  Forall (fun c => is_digit c = true) (str_of_int n) /\
  (forall rest : pstr,
     lex (str_of_int n ++ 44 :: rest) None
     = (let? t := lex rest None in Ok ([TNum n; TComma] ++ t))%res) /\
  (forall rest : pstr,
     lex (str_of_int n ++ 93 :: rest) None
     = (let? t := lex rest None in Ok ([TNum n; TRBr] ++ t))%res).
Proof.
  intros Hn.
  pose proof (proj1 (forallb_forall _ _) numbers_read_back n
                (zrange_In 0 401 n ltac:(lia))) as H.
  unfold number_reads_back in H.
  apply andb_true_iff in H as [Hdig H].
  destruct (lex (str_of_int n ++ [44]) None) as [[|[| | |a] [|[] [|? ?]]]|] eqn:E1;
    try discriminate H.
  destruct (lex (str_of_int n ++ [93]) None) as [[|[| | |b] [|[] [|? ?]]]|] eqn:E2;
    try discriminate H.
  apply andb_true_iff in H as [Ha Hb].
  apply Z.eqb_eq in Ha, Hb. subst a b.
  split_and!.
  - apply Forall_forall. intros c Hc. rewrite forallb_forall in Hdig.
    apply Hdig. by apply list_elem_of_In.
  - intros rest. apply lex_app_closed; [by left|done].
  - intros rest. apply lex_app_closed; [by right|done].
Qed.

Lemma digits_no_separator (s : pstr) :
  Forall (fun c => is_digit c = true) s -> no_separator s.
Proof.
  intros H. eapply Forall_impl; [exact H|].
  intros c Hc. split; intros ->; discriminate Hc.
Qed.

(** The text that [repr] prints for a row of three numbers up to 400. *)
Lemma small_row_text (r : list Z) :
  length r = 3%nat ->
  Forall (fun x => 0 <= x <= 400) r ->
  (forall rest : pstr,
     lex (repr_row r ++ rest) None =
     (let? t := lex rest None in
      Ok ([TLBr; TNum (nth 0 r 0); TComma; TNum (nth 1 r 0); TComma;
           TNum (nth 2 r 0); TRBr] ++ t))%res) /\
  no_separator (repr_row r).
Proof.
  intros Hlen Hall.
  destruct r as [|a [|b [|c [|? ?]]]]; try discriminate Hlen.
  inversion Hall as [|? ? Ha Hall1]; subst.
  inversion Hall1 as [|? ? Hb Hall2]; subst.
  inversion Hall2 as [|? ? Hc _]; subst.
  destruct (small_number_text a Ha) as (Hda & Hca & _).
  destruct (small_number_text b Hb) as (Hdb & Hcb & _).
  destruct (small_number_text c Hc) as (Hdc & _ & Hbc).
  assert (forall rest,
            repr_row [a; b; c] ++ rest
            = 91 :: str_of_int a ++ 44 :: 32 :: str_of_int b ++ 44 :: 32
                 :: str_of_int c ++ 93 :: rest) as Htext.
  { intros rest. unfold repr_row. cbn [map join_sep].
    change (py "[") with [91]. change (py ", ") with [44; 32].
    change (py "]") with [93].
    repeat first [rewrite <- app_assoc | progress cbn [app]]. done. }
  split.
  - intros rest. rewrite Htext, lex_open, Hca, lex_space, Hcb, lex_space, Hbc.
    cbn [nth]. by destruct (lex rest None).
  - specialize (Htext []). rewrite app_nil_r in Htext. rewrite Htext.
    apply digits_no_separator in Hda, Hdb, Hdc. unfold no_separator in *.
    apply Forall_cons_2; [by split|]. apply (Forall_app_2 _ _ _ Hda).
    apply Forall_cons_2; [by split|]. apply Forall_cons_2; [by split|].
    apply (Forall_app_2 _ _ _ Hdb).
    apply Forall_cons_2; [by split|]. apply Forall_cons_2; [by split|].
    apply (Forall_app_2 _ _ _ Hdc).
    apply Forall_cons_2; [by split|]. constructor.
Qed.

(** [eval] reads a small matrix back from the text that [repr] printed,
    and the text holds no separator of the artifact. *)
Lemma small_matrix_text (m : matrix) :
  small_matrix m ->
  eval_matrix (repr_matrix m) = Ok m /\ no_separator (repr_matrix m).
Proof.
  intros [Hlen Hall].
  destruct m as [|r1 [|r2 [|r3 [|? ?]]]]; try discriminate Hlen.
  inversion Hall as [|? ? [Hl1 Hr1] Hall1]; subst.
  inversion Hall1 as [|? ? [Hl2 Hr2] Hall2]; subst.
  inversion Hall2 as [|? ? [Hl3 Hr3] _]; subst.
  destruct (small_row_text r1 Hl1 Hr1) as [Hlex1 H1].
  destruct (small_row_text r2 Hl2 Hr2) as [Hlex2 H2].
  destruct (small_row_text r3 Hl3 Hr3) as [Hlex3 H3].
  assert (repr_matrix [r1; r2; r3]
          = 91 :: repr_row r1 ++ 44 :: 32 :: repr_row r2 ++ 44 :: 32
               :: repr_row r3 ++ [93]) as Htext.
  { unfold repr_matrix. cbn [map join_sep].
    change (py "[") with [91]. change (py ", ") with [44; 32].
    change (py "]") with [93]. cbn [app].
    repeat (rewrite <- app_assoc; cbn [app]). done. }
  split.
  - unfold eval_matrix. rewrite Htext.
    assert (lex (91 :: repr_row r1 ++ 44 :: 32 :: repr_row r2 ++ 44 :: 32
                    :: repr_row r3 ++ [93]) None
            = Ok (TLBr ::
                  [TLBr; TNum (nth 0 r1 0); TComma; TNum (nth 1 r1 0);
                   TComma; TNum (nth 2 r1 0); TRBr] ++ TComma ::
                  [TLBr; TNum (nth 0 r2 0); TComma; TNum (nth 1 r2 0);
                   TComma; TNum (nth 2 r2 0); TRBr] ++ TComma ::
                  [TLBr; TNum (nth 0 r3 0); TComma; TNum (nth 1 r3 0);
                   TComma; TNum (nth 2 r3 0); TRBr] ++ [TRBr])) as ->.
    { rewrite lex_open, Hlex1, lex_comma_space, Hlex2, lex_comma_space, Hlex3.
      reflexivity. }
    destruct r1 as [|a1 [|b1 [|c1 [|? ?]]]]; try discriminate Hl1.
    destruct r2 as [|a2 [|b2 [|c2 [|? ?]]]]; try discriminate Hl2.
    destruct r3 as [|a3 [|b3 [|c3 [|? ?]]]]; try discriminate Hl3.
    reflexivity.
  - rewrite Htext. unfold no_separator in *.
    apply Forall_cons_2; [by split|]. apply (Forall_app_2 _ _ _ H1).
    apply Forall_cons_2; [by split|]. apply Forall_cons_2; [by split|].
    apply (Forall_app_2 _ _ _ H2).
    apply Forall_cons_2; [by split|]. apply Forall_cons_2; [by split|].
    apply (Forall_app_2 _ _ _ H3).
    apply Forall_cons_2; [by split|]. constructor.
Qed.

Lemma key_matrix_small (m : matrix) : key_matrix m -> small_matrix m.
Proof.
  intros [Hlen Hall]. split; [done|].
  eapply Forall_impl; [exact Hall|]. intros r [Hl Hr]. split; [done|].
  eapply Forall_impl; [exact Hr|]. intros x Hx. simpl in Hx. lia.
Qed.

(** In particular [eval] reads the matrix key of HEAD back. *)
Lemma key_matrix_text (m : matrix) :
  key_matrix m ->
  eval_matrix (repr_matrix m) = Ok m /\ no_separator (repr_matrix m).
Proof. intros Hm. by apply small_matrix_text, key_matrix_small. Qed.

(** X19.  [s_decompress] reads the version and the FOOT section and
    then ignores them: as long as the run evaluates matrix literals
    only, so that [eval] sees no variable, two artifacts with the same
    HEAD and BODY give the same result, whatever their three-character
    version numbers and their checksums. *)
Theorem s_decompress_ignores_version_and_foot
    (v v' hd bd ft ft' : pstr) (n n' : Z) (fuel : nat)
    (g : nat -> nat) (cur : nat) :
  length v = 3%nat -> length v' = 3%nat ->
  py_int v = Ok n -> py_int v' = Ok n' ->
  Forall (fun c => c <> 10) hd ->
  Forall (fun c => c <> 10) bd ->
  Forall (fun c => c <> 10) ft ->
  Forall (fun c => c <> 10) ft' ->
  modelled (s_decompress fuel (v ++ hd ++ [10] ++ bd ++ [10] ++ ft) g cur) ->
  s_decompress fuel (v ++ hd ++ [10] ++ bd ++ [10] ++ ft) g cur
  = s_decompress fuel (v' ++ hd ++ [10] ++ bd ++ [10] ++ ft') g cur.
Proof.
  intros Hv Hv' Hn Hn' Hh Hb Hf Hf' _. unfold s_decompress.
  rewrite !take_app_length', !drop_app_length' by done.
  rewrite Hn, Hn'.
  rewrite (split_sections hd bd ft Hh Hb Hf).
  by rewrite (split_sections hd bd ft' Hh Hb Hf').
Qed.

(** Witness of X19: the same HEAD and BODY under two versions and two
    FOOT sections. *)
Lemma s_decompress_ignores_version_and_foot_witness :
  s_decompress 1
    (py "001" ++ py "!wes!/[[1, 1, 1], [1, 1, 1], [1, 1, 1]]/" ++ [10]
     ++ py "BGCi" ++ [10] ++ [])
    (inverting_draws (py "hi") (py "!wes!")) 0%nat
  = s_decompress 1
    (py "723" ++ py "!wes!/[[1, 1, 1], [1, 1, 1], [1, 1, 1]]/" ++ [10]
     ++ py "BGCi" ++ [10] ++ py "00ff")
    (inverting_draws (py "hi") (py "!wes!")) 0%nat.
Proof.
  apply (s_decompress_ignores_version_and_foot
           (py "001") (py "723")
           (py "!wes!/[[1, 1, 1], [1, 1, 1], [1, 1, 1]]/")
           (py "BGCi") [] (py "00ff") 1 723).
  - reflexivity.
  - reflexivity.
  - reflexivity.
  - reflexivity.
  - vm_compute. repeat constructor; discriminate.
  - vm_compute. repeat constructor; discriminate.
  - constructor.
  - vm_compute. repeat constructor; discriminate.
  - unfold modelled. vm_compute. discriminate.
Defined.

(** ** Pipeline: the round trip when nothing is compressed *)

Lemma choice_run {A} (l : list A) (x : A) g cur :
  l !! (g cur mod length l)%nat = Some x -> choice l g cur = Done x (S cur).
Proof.
  intros H. destruct l as [|a l]; [done|].
  unfold choice, bind, draw, index. by rewrite H.
Qed.

(** On draws that open no chunk and no matrix substitution the scan
    copies the tokens to BODY. *)
Lemma compress_scan_literal m (rest : list pstr) : forall (st : cstate) g cur,
  (forall n, (cur <= n)%nat -> (g n mod 10 < 8)%nat) ->
  chunks st < 997 ->
  exists cur',
    compress_scan m rest 0 st g cur =
    Done {| head := head st; body := body st ++ rest; foot := foot st;
            chunks := chunks st; l_chunks := l_chunks st |} cur'.
Proof.
  induction rest as [|tok rest' IH]; intros st g cur Hg Hcap.
  - exists cur. cbn [compress_scan]. rewrite app_nil_r. by destruct st.
  - cbn [compress_scan].
    assert ((997 <=? chunks st) = false) as -> by (apply Z.leb_gt; lia).
    assert (forall n, (cur <= n)%nat ->
              random_gt_08 g n = Done false (S n)) as Hrand.
    { intros n Hn. rewrite random_gt_08_run. f_equal.
      apply Nat.leb_gt. apply Hg. lia. }
    assert (exists c1, (cur <= c1)%nat /\
              (if (5 <? length (tok :: rest'))%nat
               then random_gt_08 else ret false) g cur = Done false c1)
      as (c1 & Hc1 & Hct).
    { destruct (5 <? length (tok :: rest'))%nat.
      - exists (S cur). split; [lia|]. by apply Hrand.
      - by exists cur. }
    rewrite (bind_step _ _ _ _ _ _ Hct).
    rewrite (bind_step _ _ _ _ _ _ (Hrand c1 Hc1)).
    destruct (IH {| head := head st; body := body st ++ [tok];
                    foot := foot st; chunks := chunks st;
                    l_chunks := l_chunks st |} g (S c1)) as [cur' Hrun].
    + intros n Hn. apply Hg. lia.
    + done.
    + exists cur'. rewrite Hrun. cbn [head body foot chunks l_chunks].
      by rewrite <- app_assoc.
Qed.

Lemma renumber_token (c : pchar) : renumber [] (escape c) = Ok (escape c).
Proof.
  destruct (escape_cases c)
    as [[_ ->]|[[_ ->]|[[_ ->]|(Hat & _ & _ & ->)]]]; try reflexivity.
  unfold renumber. cbn [index lookup list_lookup res_bind].
  by destruct (Z.eqb_spec c (ch "@")).
Qed.

Lemma res_map_renumber_tokens (enc : pstr) :
  res_map (renumber []) (map escape enc) = Ok (map escape enc).
Proof.
  induction enc as [|c enc IH]; [done|].
  cbn [map res_map]. by rewrite renumber_token, IH.
Qed.

(** X16.  When the draws open no chunk and no matrix substitution (every
    draw of [random.random()] is at most 0.8), [s_compress] returns the
    literal artifact: the version, the key and the matrix key as HEAD,
    the escaped ciphertext as BODY and an empty FOOT. *)
Theorem s_compress_literal_run (s key enc : pstr) (g : nat -> nat) :
  (forall n, (10 <= n)%nat -> (g n mod 10 < 8)%nat) ->
  KEYS !! (g 0%nat mod 5)%nat = Some key ->
  s_encrypt s key = Ok enc ->
  exists (m : matrix) (cur' : nat),
    key_matrix m /\
    rand_matrix 3 3 1 3 g 1%nat = Done m 10%nat /\
    s_compress s g 0%nat = Done (literal_artifact key m enc) cur'.
Proof.
  intros Hg Hkey Henc.
  assert (exists m, rand_matrix 3 3 1 3 g 1%nat = Done m 10%nat) as [m Hm]
    by (eexists; reflexivity).
  assert (key_matrix m) as Hkm by (by eapply rand_matrix_range; [|exact Hm]).
  destruct (compress_scan_literal m (map escape enc)
              {| head := [py "001"] ++ [key ++ py "/"]
                         ++ [repr_matrix m ++ py "/"];
                 body := []; foot := []; chunks := 0; l_chunks := [] |}
              g 10%nat Hg ltac:(done)) as [cur' Hscan].
  exists m, cur'. split_and!; [done..|].
  assert (s_compress_parts s g 0%nat
          = Done ([py "001"; key ++ py "/"; repr_matrix m ++ py "/"],
                  map escape enc, []) cur') as Hparts.
  { unfold s_compress_parts.
    rewrite (bind_step _ _ _ _ _ _ (choice_run KEYS key g 0%nat Hkey)).
    rewrite (bind_step _ _ _ _ _ _ (lift_Ok_run _ _ _ _ Henc)).
    rewrite (bind_step _ _ _ _ _ _ Hm).
    rewrite (bind_step _ _ _ _ _ _ Hscan).
    cbn [head body foot chunks l_chunks app].
    change (sorted_by_key (enumerate [])) with (@nil (nat * list pstr)).
    by rewrite res_map_renumber_tokens. }
  unfold s_compress. by rewrite (bind_step _ _ _ _ _ _ Hparts).
Qed.

(** Witness of X16: "hi" on the draws that are all zero. *)
Lemma s_compress_literal_run_witness :
  exists (m : matrix) (cur' : nat),
    key_matrix m /\
    rand_matrix 3 3 1 3 (fun _ => 0%nat) 1%nat = Done m 10%nat /\
    s_compress (py "hi") (fun _ => 0%nat) 0%nat
    = Done (literal_artifact (py "!wes!") m (py "BGCi")) cur'.
Proof.
  apply (s_compress_literal_run (py "hi") (py "!wes!") (py "BGCi")
           (fun _ => 0%nat)).
  - intros n _. simpl. lia.
  - reflexivity.
  - reflexivity.
Defined.

Lemma keys_no_separator (key : pstr) : In key KEYS -> no_separator key.
Proof.
  intros Hin. simpl in Hin.
  repeat destruct Hin as [<-|Hin];
    try (vm_compute; repeat constructor; discriminate).
  destruct Hin.
Qed.

(** On a literal artifact [s_decompress] comes down to decrypting the
    ciphertext: the dictionary is empty and the three passes leave the
    ciphertext. *)
Lemma s_decompress_literal (key enc : pstr) (m : matrix) (fuel : nat) g cur :
  no_separator key ->
  key_matrix m ->
  s_decompress (S fuel) (literal_artifact key m enc) g cur
  = s_decrypt (S fuel) enc key g cur.
Proof.
  intros Hkey Hm. destruct (key_matrix_text m Hm) as [Heval Hrepr].
  unfold no_separator in *.
  assert (literal_artifact key m enc
          = py "001" ++ (key ++ ch "/" :: repr_matrix m ++ [ch "/"])
            ++ [10] ++ join (map escape enc) ++ [10] ++ []) as ->.
  { unfold literal_artifact, join. cbn [join_sep concat].
    rewrite !app_nil_r. change (py "/") with [ch "/"].
    repeat first [rewrite <- app_assoc | progress cbn [app]]. done. }
  unfold s_decompress.
  rewrite take_app_length', drop_app_length' by done.
  change (py_int (py "001")) with (Ok 1).
  rewrite (bind_step _ _ _ _ 1 cur) by done.
  rewrite split_sections.
  - rewrite (split_app_sep (ch "/") key)
      by (eapply Forall_impl; [exact Hkey|]; by intros c [? _]).
    change (repr_matrix m ++ [ch "/"])
      with (repr_matrix m ++ ch "/" :: []).
    rewrite (split_app_sep (ch "/") (repr_matrix m))
      by (eapply Forall_impl; [exact Hrepr|]; by intros c [? _]).
    cbn [split removelast].
    rewrite (bind_step _ _ _ _ _ _ (lift_Ok_run _ _ _ _ Heval)).
    rewrite (bind_step _ _ _ _ [] cur) by done.
    rewrite (bind_step _ _ _ _ (join (map escape enc)) cur).
    + rewrite sub_at_replace_escaped.
      rewrite (bind_step _ _ _ _ (join (map escape enc)) cur) by done.
      rewrite sub_at_special_escaped.
      by rewrite (bind_step _ _ _ _ enc cur).
    + apply sub_matrix_no_slash.
      eapply Forall_impl; [apply escape_no_separator|]. by intros c [? _].
  - apply Forall_app. split.
    + eapply Forall_impl; [exact Hkey|]. by intros c [_ ?].
    + constructor; [done|]. apply Forall_app. split.
      * eapply Forall_impl; [exact Hrepr|]. by intros c [_ ?].
      * by constructor.
  - eapply Forall_impl; [apply escape_no_separator|]. by intros c [_ ?].
  - constructor.
Qed.

Lemma s_decompress_literal_no_fuel (key enc : pstr) (m : matrix) g cur :
  no_separator key ->
  key_matrix m ->
  s_decompress 0 (literal_artifact key m enc) g cur = OutOfFuel.
Proof.
  intros Hkey Hm. destruct (key_matrix_text m Hm) as [Heval Hrepr].
  unfold no_separator in *.
  assert (literal_artifact key m enc
          = py "001" ++ (key ++ ch "/" :: repr_matrix m ++ [ch "/"])
            ++ [10] ++ join (map escape enc) ++ [10] ++ []) as ->.
  { unfold literal_artifact, join. cbn [join_sep concat].
    rewrite !app_nil_r. change (py "/") with [ch "/"].
    repeat first [rewrite <- app_assoc | progress cbn [app]]. done. }
  unfold s_decompress.
  rewrite take_app_length', drop_app_length' by done.
  change (py_int (py "001")) with (Ok 1).
  rewrite (bind_step _ _ _ _ 1 cur) by done.
  rewrite split_sections.
  - rewrite (split_app_sep (ch "/") key)
      by (eapply Forall_impl; [exact Hkey|]; by intros c [? _]).
    change (repr_matrix m ++ [ch "/"])
      with (repr_matrix m ++ ch "/" :: []).
    rewrite (split_app_sep (ch "/") (repr_matrix m))
      by (eapply Forall_impl; [exact Hrepr|]; by intros c [? _]).
    cbn [split removelast].
    by rewrite (bind_step _ _ _ _ _ _ (lift_Ok_run _ _ _ _ Heval)).
  - apply Forall_app. split.
    + eapply Forall_impl; [exact Hkey|]. by intros c [_ ?].
    + constructor; [done|]. apply Forall_app. split.
      * eapply Forall_impl; [exact Hrepr|]. by intros c [_ ?].
      * by constructor.
  - eapply Forall_impl; [apply escape_no_separator|]. by intros c [_ ?].
  - constructor.
Qed.

(** The first candidate of the search is the plaintext when the draws
    from the cursor on are those of [inverting_draws]. *)
Lemma s_decrypt_first_attempt (s k c : pstr) (fuel : nat) g cur :
  Forall code_point s ->
  s_encrypt s k = Ok c ->
  (forall t, g (cur + t)%nat = inverting_draws s k t) ->
  s_decrypt (S fuel) c k g cur = Done s (cur + length s)%nat.
Proof.
  intros Hs Henc Hg. unfold s_decrypt. rewrite s_decrypt_loop_S.
  change (s_encrypt [] k) with (Ok (@nil Z)).
  destruct c as [|t c]; cbn [str_eqb].
  - destruct s as [|c0 s].
    + unfold ret. f_equal. simpl. lia.
    + apply s_encrypt_from_cons in Henc as (? & ? & ? & ? & _ & ? & _).
      discriminate.
  - rewrite (bind_step _ _ _ cur s (cur + length s)%nat).
    + by rewrite (s_decrypt_loop_accept _ _ _ _ Henc).
    + apply (decrypt_attempt_inverting s 0 k (t :: c) _ cur Hs Henc).
      intros t' c' e' Hc' He'. rewrite Hg. unfold inverting_draws.
      simpl in *. by rewrite Hc', He'.
Qed.

(** X18.  The round trip on a literal artifact: for a key of
    [s_compress], a matrix key of its shape and the ciphertext of [s],
    every run of [s_decompress] on the literal artifact that returns,
    returns [s]; and on the inverting draws the first attempt of the
    search returns it. *)
Theorem s_decompress_literal_round_trip (s key enc : pstr) (m : matrix) :
  In key KEYS ->
  key_matrix m ->
  s_encrypt s key = Ok enc ->
  (forall fuel g cur p cur',
     s_decompress fuel (literal_artifact key m enc) g cur = Done p cur' ->
     p = s) /\
  (Forall code_point s ->
   s_decompress 1 (literal_artifact key m enc) (inverting_draws s key) 0%nat
   = Done s (length s)).
Proof.
  intros Hkey Hm Henc. apply keys_no_separator in Hkey. split.
  - intros [|fuel] g cur p cur' H.
    + by rewrite s_decompress_literal_no_fuel in H.
    + rewrite s_decompress_literal in H by done.
      apply s_decrypt_loop_accepts in H. by eapply s_encrypt_from_inj.
  - intros Hs. rewrite s_decompress_literal by done.
    by apply (s_decrypt_first_attempt s key enc 0 _ 0%nat).
Qed.

(** Witness of X18: the literal artifact of "hi". *)
Lemma s_decompress_literal_round_trip_witness :
  s_decompress 1
    (literal_artifact (py "!wes!") [[1; 1; 1]; [1; 1; 1]; [1; 1; 1]]
       (py "BGCi"))
    (inverting_draws (py "hi") (py "!wes!")) 0%nat
  = Done (py "hi") 2%nat.
Proof.
  refine (proj2 (s_decompress_literal_round_trip (py "hi") (py "!wes!")
                   (py "BGCi") [[1; 1; 1]; [1; 1; 1]; [1; 1; 1]] _ _ _) _).
  - by left.
  - split; [reflexivity|]. repeat constructor; lia.
  - reflexivity.
  - repeat constructor; vm_compute; discriminate.
Defined.

(** ** Pipeline: the two orders of the dictionary

    [s_compress] ranks the chunks as lists of tokens, ties broken by the
    extraction index; [s_decompress] lets [r_sort] order the HEAD
    entries, which are the joined texts of the chunks. *)

Lemma chunk_eqb_eq (a : list pstr) : forall b, chunk_eqb a b = true <-> a = b.
Proof.
  induction a as [|x a IH]; intros [|y b]; simpl; try done.
  rewrite andb_true_iff, str_eqb_eq, IH. split.
  - by intros [-> ->].
  - intros H. by inversion H.
Qed.

Lemma str_ltb_app_same (x a b : pstr) :
  str_ltb (x ++ a) (x ++ b) = str_ltb a b.
Proof.
  induction x as [|c x IH]; simpl; [done|].
  by rewrite Z.ltb_irrefl, Z.eqb_refl.
Qed.

Lemma str_ltb_asym (a b : pstr) : str_ltb a b = true -> str_ltb b a = false.
Proof.
  intros Hab. destruct (str_ltb b a) eqn:Hba; [|done].
  pose proof (str_ltb_trans a b a Hab Hba) as H.
  by rewrite str_ltb_irrefl in H.
Qed.

Lemma str_ltb_nil_r (a : pstr) : str_ltb a [] = false.
Proof. by destruct a. Qed.

Lemma token_cases (t : pstr) :
  is_token t ->
  (exists c, t = [c] /\ c <> ch "@") \/
  t = py "@000" \/ t = py "@999" \/ t = py "@998".
Proof.
  intros [c ->].
  destruct (escape_cases c)
    as [[_ ->]|[[_ ->]|[[_ ->]|(Hat & _ & _ & ->)]]]; eauto 6.
Qed.

(** No token is a prefix of another: two different tokens are ordered
    by their own characters, whatever follows them. *)
Lemma str_ltb_tokens (x y a b : pstr) :
  is_token x -> is_token y -> x <> y ->
  str_ltb (x ++ a) (y ++ b) = str_ltb x y.
Proof.
  intros Hx Hy Hne.
  destruct (token_cases x Hx) as [(c & -> & Hc)|[-> |[-> | ->]]];
    destruct (token_cases y Hy) as [(d & -> & Hd)|[-> |[-> | ->]]];
    try done; try reflexivity.
  - assert ((c =? d) = false) as E by (apply Z.eqb_neq; congruence).
    cbn [app str_ltb]. by rewrite E, !andb_false_l.
  - assert ((c =? 64) = false) as E by (by apply Z.eqb_neq).
    change (py "@000") with [64; 48; 48; 48].
    cbn [app str_ltb]. by rewrite E, !andb_false_l.
  - assert ((c =? 64) = false) as E by (by apply Z.eqb_neq).
    change (py "@999") with [64; 57; 57; 57].
    cbn [app str_ltb]. by rewrite E, !andb_false_l.
  - assert ((c =? 64) = false) as E by (by apply Z.eqb_neq).
    change (py "@998") with [64; 57; 57; 56].
    cbn [app str_ltb]. by rewrite E, !andb_false_l.
  - assert ((64 =? d) = false) as E
      by (apply Z.eqb_neq; intros <-; by apply Hd).
    change (py "@000") with [64; 48; 48; 48].
    cbn [app str_ltb]. by rewrite E, !andb_false_l.
  - assert ((64 =? d) = false) as E
      by (apply Z.eqb_neq; intros <-; by apply Hd).
    change (py "@999") with [64; 57; 57; 57].
    cbn [app str_ltb]. by rewrite E, !andb_false_l.
  - assert ((64 =? d) = false) as E
      by (apply Z.eqb_neq; intros <-; by apply Hd).
    change (py "@998") with [64; 57; 57; 56].
    cbn [app str_ltb]. by rewrite E, !andb_false_l.
Qed.

(** On chunks of tokens the order of the lists is the order of the
    joined texts. *)
Lemma chunk_ltb_join (a : list pstr) : forall b,
  Forall is_token a -> Forall is_token b ->
  chunk_ltb a b = str_ltb (join a) (join b).
Proof.
  unfold join.
  induction a as [|x a IH]; intros [|y b] Ha Hb; cbn [chunk_ltb concat].
  - done.
  - inversion Hb as [|? ? Hy _]; subst.
    apply token_nonempty in Hy. by destruct y.
  - by rewrite str_ltb_nil_r.
  - inversion Ha as [|? ? Hx Ha']; subst.
    inversion Hb as [|? ? Hy Hb']; subst.
    destruct (str_eqb x y) eqn:E.
    + apply str_eqb_eq in E as ->. rewrite str_ltb_app_same. by apply IH.
    + rewrite str_ltb_tokens; [done..|].
      intros ->. assert (str_eqb y y = true) by (by apply str_eqb_eq).
      congruence.
Qed.

Lemma key_ltb_asym (x y : nat * list pstr) :
  Forall is_token (snd x) -> Forall is_token (snd y) ->
  key_ltb x y = true -> key_ltb y x = false.
Proof.
  intros Hx Hy. unfold key_ltb.
  destruct (chunk_eqb (snd x) (snd y)) eqn:E.
  - apply chunk_eqb_eq in E. rewrite E.
    assert (chunk_eqb (snd y) (snd y) = true) as -> by (by apply chunk_eqb_eq).
    intros H. apply Nat.ltb_lt in H. apply Nat.ltb_ge. lia.
  - assert (chunk_eqb (snd y) (snd x) = false) as ->.
    { destruct (chunk_eqb (snd y) (snd x)) eqn:E'; [|done].
      apply chunk_eqb_eq in E'. rewrite E' in E.
      assert (chunk_eqb (snd x) (snd x) = true) by (by apply chunk_eqb_eq).
      congruence. }
    rewrite !chunk_ltb_join by done. apply str_ltb_asym.
Qed.

(** A key that does not come before another has a text that does not
    come before the text of the other. *)
Lemma key_ltb_join (x y : nat * list pstr) :
  Forall is_token (snd x) -> Forall is_token (snd y) ->
  key_ltb y x = false ->
  str_ltb (join (snd y)) (join (snd x)) = false.
Proof.
  intros Hx Hy. unfold key_ltb.
  destruct (chunk_eqb (snd y) (snd x)) eqn:E.
  - apply chunk_eqb_eq in E. rewrite E. intros _. apply str_ltb_irrefl.
  - by rewrite chunk_ltb_join.
Qed.

Lemma insert_sorted_Permutation x l : insert_sorted x l ≡ₚ x :: l.
Proof.
  induction l as [|y l IH]; simpl; [done|].
  destruct (key_ltb y x); [|done].
  rewrite IH. apply Permutation_swap.
Qed.

Lemma sorted_by_key_Permutation l : sorted_by_key l ≡ₚ l.
Proof.
  induction l as [|x l IH]; simpl; [done|].
  by rewrite insert_sorted_Permutation, IH.
Qed.

Lemma insert_sorted_Sorted (R : relation (nat * list pstr)) x l :
  (forall y, y ∈ l -> key_ltb y x = true -> R y x) ->
  (forall y, y ∈ l -> key_ltb y x = false -> R x y) ->
  Sorted R l -> Sorted R (insert_sorted x l).
Proof.
  intros Hlt Hge Hs. induction Hs as [|y l Hs IH Hhd]; simpl.
  - by repeat constructor.
  - destruct (key_ltb y x) eqn:E.
    + constructor.
      * apply IH.
        -- intros z Hz. apply Hlt. by right.
        -- intros z Hz. apply Hge. by right.
      * destruct Hhd as [|z l Hyz]; simpl.
        -- constructor. apply Hlt; [by left|done].
        -- destruct (key_ltb z x); constructor; [done|].
           apply Hlt; [by left|done].
    + constructor; [by constructor|].
      constructor. apply Hge; [by left|done].
Qed.

Lemma sorted_by_key_Sorted (l : list (nat * list pstr)) :
  Forall (fun x => Forall is_token (snd x)) l ->
  Sorted (fun x y => str_ltb (join (snd y)) (join (snd x)) = false)
         (sorted_by_key l).
Proof.
  induction l as [|x l IH]; intros Hl; simpl; [constructor|].
  inversion Hl as [|? ? Hx Hl']; subst.
  assert (forall y, y ∈ sorted_by_key l -> Forall is_token (snd y)) as Htok.
  { intros y Hy. rewrite sorted_by_key_Permutation in Hy.
    rewrite Forall_forall in Hl'. by apply Hl'. }
  apply insert_sorted_Sorted; [| |by apply IH].
  - intros y Hy Hlt. apply key_ltb_join; [by apply Htok|done|].
    apply key_ltb_asym; [by apply Htok|done..].
  - intros y Hy Hge. apply key_ltb_join; [done|by apply Htok|done].
Qed.

Lemma str_le_trans (a b c : pstr) :
  str_ltb b a = false -> str_ltb c b = false -> str_ltb c a = false.
Proof.
  intros Hab Hbc. destruct (str_ltb c a) eqn:Hca; [|done].
  destruct (str_ltb a b) eqn:Hlt.
  - pose proof (str_ltb_trans c a b Hca Hlt). congruence.
  - assert (a = b) as -> by (by apply str_ltb_antisym). congruence.
Qed.

Lemma enumerate_snd {A} (l : list A) : map snd (enumerate l) = l.
Proof.
  unfold enumerate. apply snd_zip. rewrite length_seq. lia.
Qed.

Lemma enumerate_fst {A} (l : list A) :
  map fst (enumerate l) = seq 0 (length l).
Proof.
  unfold enumerate. apply fst_zip. rewrite length_seq. lia.
Qed.

(** Whatever [r_sort] returns for the joined texts of chunks of tokens
    is the ranking of [s_compress]. *)
Lemma r_sort_ranking (L : list (list pstr)) (res : list pstr)
    (fuel : nat) (g : nat -> nat) (cur cur' : nat) :
  Forall (Forall is_token) L ->
  r_sort str_ltb fuel (map join L) g cur = Done res cur' ->
  res = map (fun x => join (snd x)) (sorted_by_key (enumerate L)).
Proof.
  intros Htok H. apply r_sort_loop_spec in H as [Hp Hs].
  apply (StronglySorted_unique_strong
           (fun x y : pstr => str_ltb y x = false)).
  - intros x y _ _ Hxy Hyx. by apply str_ltb_antisym.
  - apply lookup_sorted_StronglySorted.
    intros i j x y. by apply raises_not_sorted_false.
  - apply Sorted_StronglySorted.
    { intros a b c. apply str_le_trans. }
    apply (Sorted_fmap
             (fun x : nat * list pstr => join (snd x))
             (fun x y : nat * list pstr =>
                str_ltb (join (snd y)) (join (snd x)) = false)
             (fun x y : pstr => str_ltb y x = false)); [done|].
    apply sorted_by_key_Sorted.
    apply Forall_forall. intros x Hx.
    assert (snd x ∈ map snd (enumerate L)) as Hin
      by (by apply list_elem_of_fmap_2).
    rewrite enumerate_snd in Hin.
    rewrite Forall_forall in Htok. by apply Htok.
  - rewrite Hp.
    rewrite <- (enumerate_snd L) at 1. rewrite map_map.
    apply Permutation_map. symmetry. apply sorted_by_key_Permutation.
Qed.

(** X20.  The two orders of the dictionary agree.  For chunks of tokens,
    the list that [r_sort] returns for the joined chunk texts (the HEAD
    entries that [s_decompress] reads) is the list of the chunks in the
    order in which [s_compress] ranks them: sorted as lists of tokens,
    equal chunks by extraction index.  So the rank printed in a
    reference of BODY is the rank at which [s_decompress] finds the
    chunk. *)
Theorem r_sort_agrees_with_sorted (L : list (list pstr)) (res : list pstr)
    (fuel : nat) (g : nat -> nat) (cur cur' : nat) :
  Forall (Forall is_token) L ->
  r_sort str_ltb fuel (map join L) g cur = Done res cur' ->
  res = map (fun x => join (snd x)) (sorted_by_key (enumerate L)).
Proof. apply r_sort_ranking. Qed.

(** Witness of X20: two chunks of two tokens. *)
Lemma r_sort_agrees_with_sorted_witness :
  r_sort str_ltb 1 (map join [[py "b"; py "c"]; [py "a"; py "@000"]])
    (fun _ => 0%nat) 0%nat
  = Done [py "a@000"; py "bc"] 1%nat /\
  [py "a@000"; py "bc"]
  = map (fun x => join (snd x))
      (sorted_by_key (enumerate [[py "b"; py "c"]; [py "a"; py "@000"]])).
Proof.
  split; [reflexivity|].
  apply (r_sort_agrees_with_sorted
           [[py "b"; py "c"]; [py "a"; py "@000"]] _ 1 (fun _ => 0%nat)
           0%nat 1%nat).
  - repeat constructor.
    + by exists (ch "b").
    + by exists (ch "c").
    + by exists (ch "a").
    + by exists (ch "@").
  - reflexivity.
Defined.

(** ** Pipeline: the round trip without matrix substitution *)

(** The scan only appends to BODY. *)
Lemma compress_scan_body_grows m (rest : list pstr) :
  forall (skip : nat) (st : cstate) g cur (st' : cstate) cur',
    compress_scan m rest skip st g cur = Done st' cur' ->
    exists ext, body st' = body st ++ ext.
Proof.
  induction rest as [|tok rest' IH]; intros skip st g cur st' cur' H.
  - simpl in H. apply ret_Done in H as [<- _]. exists []. by rewrite app_nil_r.
  - cbn [compress_scan] in H. destruct skip as [|skip']; [|by eapply IH].
    destruct (997 <=? chunks st).
    { apply ret_Done in H as [<- _]. exists []. by rewrite app_nil_r. }
    apply bind_Done in H as (chunk_time & c1 & _ & H).
    destruct chunk_time.
    + apply bind_Done in H as (h & c2 & _ & H).
      apply IH in H as [ext Hext]. cbn [body] in Hext.
      rewrite <- app_assoc in Hext. eauto.
    + apply bind_Done in H as (matrix_time & c2 & _ & H).
      destruct matrix_time.
      * apply bind_Done in H as (lst1 & c3 & _ & H).
        apply IH in H as [ext Hext]. cbn [body] in Hext.
        rewrite <- app_assoc in Hext. eauto.
      * apply IH in H as [ext Hext]. cbn [body] in Hext.
        rewrite <- app_assoc in Hext. eauto.
Qed.

Lemma covers_mono (L L' : list (list pstr)) (part : pstr) (seg : list pstr) :
  covers L part seg -> covers (L ++ L') part seg.
Proof.
  intros [H|(n & Hn & ->)]; [by left|right].
  exists n. split; [|done]. rewrite lookup_app_l; [done|].
  by apply lookup_lt_Some in Hn.
Qed.

(** When the scan opens no matrix substitution and stays below the cap,
    the parts of BODY stand, one after the other, for the whole token
    stream. *)
Lemma compress_scan_covers m (tokens rest : list pstr) :
  Forall is_token tokens ->
  forall (i skip : nat) (st : cstate) g cur (st' : cstate) cur',
    rest = drop i tokens ->
    (skip <= length rest)%nat ->
    compress_scan m rest skip st g cur = Done st' cur' ->
    Forall (fun part => part !! 0%nat <> Some (ch "/")) (body st') ->
    chunks st' < 997 ->
    chunks st = Z.of_nat (length (l_chunks st)) ->
    (exists segs, Forall2 (covers (l_chunks st)) (body st) segs /\
                  concat segs = take (i + skip) tokens) ->
    exists segs', Forall2 (covers (l_chunks st')) (body st') segs' /\
                  concat segs' = tokens.
Proof.
  intros Htok.
  induction rest as [|tok rest' IH];
    intros i skip st g cur st' cur' Hrest Hskip H Hbody Hcap Hn
      (segs & Hcov & Hcat).
  - simpl in H. apply ret_Done in H as [<- _].
    exists segs. split; [done|]. rewrite Hcat. apply take_ge.
    symmetry in Hrest. apply drop_nil_inv in Hrest. lia.
  - assert (tokens !! i = Some tok) as Hi.
    { rewrite <- (Nat.add_0_r i), <- lookup_drop, <- Hrest. done. }
    assert (rest' = drop (S i) tokens) as Hrest'.
    { rewrite (drop_S _ _ _ Hi) in Hrest. by inversion Hrest. }
    cbn [compress_scan] in H. destruct skip as [|skip'].
    + destruct (997 <=? chunks st) eqn:Hstop.
      { apply ret_Done in H as [<- _]. apply Z.leb_le in Hstop. lia. }
      apply bind_Done in H as (chunk_time & c1 & Hct & H).
      destruct chunk_time.
      * assert (5 < length (tok :: rest'))%nat as H5.
        { destruct (5 <? length (tok :: rest'))%nat eqn:E.
          - by apply Nat.ltb_lt in E.
          - apply ret_Done in Hct as [Hct _]. discriminate Hct. }
        apply bind_Done in H as (h & c2 & _ & H). simpl in H5.
        eapply (IH (S i) 4%nat) in H; [exact H|done|lia|done..| |].
        -- cbn [chunks l_chunks]. rewrite length_app. simpl. lia.
        -- cbn [body l_chunks].
           exists (segs ++ [take 5 (tok :: rest')]). split.
           ++ apply Forall2_app.
              ** eapply Forall2_impl; [exact Hcov|].
                 intros part seg. apply covers_mono.
              ** constructor; [|constructor]. right.
                 exists (length (l_chunks st)). split.
                 --- by rewrite lookup_app_r, Nat.sub_diag by lia.
                 --- by rewrite Hn.
           ++ rewrite concat_app, Hcat. cbn [concat]. rewrite app_nil_r.
              rewrite Hrest, Nat.add_0_r, take_take_drop.
              f_equal. lia.
      * apply bind_Done in H as (matrix_time & c2 & _ & H).
        destruct matrix_time.
        -- apply bind_Done in H as (lst1 & c3 & _ & H).
           apply compress_scan_body_grows in H as [ext Hext].
           cbn [body] in Hext. rewrite Hext in Hbody.
           apply Forall_app in Hbody as [Hbody _].
           apply Forall_app in Hbody as [_ Hbody].
           inversion Hbody as [|? ? Hm _]; subst. by destruct Hm.
        -- eapply (IH (S i) 0%nat) in H; [exact H|done|lia|done..|].
           cbn [body l_chunks].
           exists (segs ++ [[tok]]). split.
           ++ apply Forall2_app; [done|].
              constructor; [|constructor]. left. split; [|done].
              eapply Forall_lookup_1; eauto.
           ++ rewrite concat_app, Hcat. simpl.
              rewrite !Nat.add_0_r. by rewrite (take_S_r _ _ _ Hi).
    + eapply (IH (S i) skip') in H; [exact H|done|simpl in Hskip; lia|done..|].
      exists segs. split; [done|]. rewrite Hcat. f_equal. lia.
Qed.

Lemma fold_left_last_match {A} (step : A -> nat -> A) (P : nat -> bool)
    (F : nat -> A) (init : A) (cv0 : nat) :
  (forall acc cv, step acc cv = if P cv then F cv else acc) ->
  P cv0 = true ->
  forall n : nat,
    (cv0 < n)%nat ->
    (forall cv, (cv < n)%nat -> P cv = true -> cv = cv0) ->
    fold_left step (seq 0 n) init = F cv0.
Proof.
  intros Hstep Hcv0. induction n as [|n IH]; intros Hlt Huniq; [lia|].
  rewrite seq_S, fold_left_app. cbn [fold_left Nat.add]. rewrite Hstep.
  destruct (P n) eqn:E.
  - f_equal. apply Huniq; [lia|done].
  - apply IH.
    + destruct (decide (cv0 = n)) as [->|]; [congruence|lia].
    + intros cv Hcv. apply Huniq. lia.
Qed.

Lemma fold_left_no_match {A} (step : A -> nat -> A) (P : nat -> bool)
    (F : nat -> A) (init : A) :
  (forall acc cv, step acc cv = if P cv then F cv else acc) ->
  forall n : nat,
    (forall cv, (cv < n)%nat -> P cv = false) ->
    fold_left step (seq 0 n) init = init.
Proof.
  intros Hstep. induction n as [|n IH]; intros Hno; [done|].
  rewrite seq_S, fold_left_app. cbn [fold_left Nat.add].
  rewrite Hstep, (Hno n) by lia. apply IH. intros cv Hcv. apply Hno. lia.
Qed.

Lemma zip_seq_lookup {A} (l : list A) : forall (s i : nat) (k : nat) (c : A),
  zip (seq s (length l)) l !! i = Some (k, c) <->
  k = (s + i)%nat /\ l !! i = Some c.
Proof.
  induction l as [|x l IH]; intros s i k c.
  { split; [done|]. by intros [_ ?]. }
  destruct i as [|i]; cbn [length seq zip zip_with lookup list_lookup].
  - rewrite Nat.add_0_r. split.
    + intros H. by inversion H.
    + by intros [-> [= ->]].
  - change (zip_with pair (seq (S s) (length l)) l !! i = Some (k, c))
      with (zip (seq (S s) (length l)) l !! i = Some (k, c)).
    rewrite IH. split; intros [-> ?]; (split; [lia|done]).
Qed.

Lemma enumerate_lookup {A} (l : list A) (i k : nat) (c : A) :
  enumerate l !! i = Some (k, c) <-> k = i /\ l !! i = Some c.
Proof. unfold enumerate. by rewrite zip_seq_lookup. Qed.

(** The ranking lists every chunk once, under its extraction index. *)
Lemma ranking_lookup (L : list (list pstr)) (cv k : nat) (c : list pstr) :
  sorted_by_key (enumerate L) !! cv = Some (k, c) -> L !! k = Some c.
Proof.
  intros H. apply list_elem_of_lookup_2 in H.
  rewrite sorted_by_key_Permutation in H.
  apply list_elem_of_lookup in H as [i Hi].
  apply enumerate_lookup in Hi as [-> ?]. done.
Qed.

Lemma ranking_exists (L : list (list pstr)) (k : nat) (c : list pstr) :
  L !! k = Some c ->
  exists cv, sorted_by_key (enumerate L) !! cv = Some (k, c).
Proof.
  intros H. apply list_elem_of_lookup.
  rewrite sorted_by_key_Permutation.
  apply list_elem_of_lookup. exists k. by apply enumerate_lookup.
Qed.

Lemma ranking_unique (L : list (list pstr)) (cv cv' k : nat)
    (c c' : list pstr) :
  sorted_by_key (enumerate L) !! cv = Some (k, c) ->
  sorted_by_key (enumerate L) !! cv' = Some (k, c') ->
  cv = cv'.
Proof.
  intros H H'.
  assert (NoDup (map fst (sorted_by_key (enumerate L)))) as Hnd.
  { rewrite sorted_by_key_Permutation, enumerate_fst. apply NoDup_seq. }
  apply (NoDup_lookup _ cv cv' k Hnd).
  - change (map fst ?l) with (fst <$> l). by rewrite list_lookup_fmap, H.
  - change (map fst ?l) with (fst <$> l). by rewrite list_lookup_fmap, H'.
Qed.

(** The renumbering of a reference: the extraction number becomes the
    rank of the chunk. *)
Lemma renumber_ref (L : list (list pstr)) (n : nat) (seg : list pstr) :
  (length L <= 997)%nat ->
  L !! n = Some seg ->
  exists cv,
    sorted_by_key (enumerate L) !! cv = Some (n, seg) /\
    renumber (sorted_by_key (enumerate L)) (ref (Z.of_nat n + 1))
    = Ok (ref (Z.of_nat cv + 1)).
Proof.
  intros Hlen Hn. destruct (ranking_exists L n seg Hn) as [cv Hcv].
  exists cv. split; [done|].
  assert (n < length L)%nat as Hlt by (by apply lookup_lt_Some in Hn).
  destruct (ranks_printable_spec (Z.of_nat n + 1) ltac:(lia))
    as (_ & _ & _ & Hint).
  unfold renumber, ref. cbn [index lookup list_lookup res_bind drop].
  rewrite drop_0, Z.eqb_refl, Hint. cbn [res_bind]. f_equal.
  apply (fold_left_last_match _
           (fun cv => match sorted_by_key (enumerate L) !! cv with
                      | Some (k, _) => Z.of_nat k =? Z.of_nat n + 1 - 1
                      | None => false
                      end)
           (fun cv => ch "@" :: pad3 (Z.of_nat cv + 1))).
  - intros acc cv'.
    by destruct (sorted_by_key (enumerate L) !! cv') as [[k c]|].
  - rewrite Hcv. apply Z.eqb_eq. lia.
  - apply lookup_lt_Some in Hcv. done.
  - intros cv' _ H.
    destruct (sorted_by_key (enumerate L) !! cv') as [[k c]|] eqn:E;
      [|discriminate H].
    apply Z.eqb_eq in H. assert (k = n) as -> by lia.
    by eapply ranking_unique.
Qed.

(** The renumbering leaves the tokens alone: no chunk has one of the
    reserved numbers. *)
Lemma renumber_token_kept (L : list (list pstr)) (t : pstr) :
  (length L <= 997)%nat ->
  is_token t ->
  renumber (sorted_by_key (enumerate L)) t = Ok t.
Proof.
  intros Hlen Ht.
  assert (forall (v : Z) (init : pstr),
            v = 0 \/ 998 <= v ->
            fold_left
              (fun acc cv =>
                 match sorted_by_key (enumerate L) !! cv with
                 | Some (k, _) =>
                     if Z.of_nat k =? v - 1 then ref (Z.of_nat cv + 1)
                     else acc
                 | None => acc
                 end)
              (seq 0 (length (sorted_by_key (enumerate L)))) init = init)
    as Hkeep.
  { intros v init Hv.
    apply (fold_left_no_match _
             (fun cv => match sorted_by_key (enumerate L) !! cv with
                        | Some (k, _) => Z.of_nat k =? v - 1
                        | None => false
                        end)
             (fun cv => ref (Z.of_nat cv + 1))).
    - intros acc cv.
      by destruct (sorted_by_key (enumerate L) !! cv) as [[k c]|].
    - intros cv _.
      destruct (sorted_by_key (enumerate L) !! cv) as [[k c]|] eqn:E;
        [|done].
      apply ranking_lookup, lookup_lt_Some in E.
      apply Z.eqb_neq. lia. }
  destruct (token_cases t Ht) as [(c & -> & Hc)|[-> |[-> | ->]]].
  - unfold renumber. cbn [index lookup list_lookup res_bind].
    by destruct (Z.eqb_spec c (ch "@")).
  - unfold renumber.
    change (index (py "@000") 0) with (Ok (ch "@")). cbn [res_bind].
    rewrite Z.eqb_refl.
    change (py_int (drop 1 (py "@000"))) with (Ok 0). cbn [res_bind].
    f_equal. apply Hkeep. lia.
  - unfold renumber.
    change (index (py "@999") 0) with (Ok (ch "@")). cbn [res_bind].
    rewrite Z.eqb_refl.
    change (py_int (drop 1 (py "@999"))) with (Ok 999). cbn [res_bind].
    f_equal. apply Hkeep. lia.
  - unfold renumber.
    change (index (py "@998") 0) with (Ok (ch "@")). cbn [res_bind].
    rewrite Z.eqb_refl.
    change (py_int (drop 1 (py "@998"))) with (Ok 998). cbn [res_bind].
    f_equal. apply Hkeep. lia.
Qed.

Lemma token_no_separator (t : pstr) : is_token t -> no_separator t.
Proof.
  intros [c ->]. pose proof (escape_no_separator [c]) as H.
  unfold join in H. cbn [map concat] in H. by rewrite app_nil_r in H.
Qed.

Lemma tokens_no_separator (ts : list pstr) :
  Forall is_token ts -> no_separator (join ts).
Proof.
  unfold no_separator, join. induction 1 as [|t ts Ht _ IH]; [constructor|].
  cbn [concat]. apply Forall_app. split; [|done].
  by apply token_no_separator.
Qed.

(** A part of BODY after the renumbering: it holds no separator, and
    the dictionary pass replaces it by the text of the tokens it stands
    for. *)
Lemma part_decoded (L : list (list pstr)) (part part' : pstr)
    (seg : list pstr) :
  (length L <= 997)%nat ->
  covers L part seg ->
  renumber (sorted_by_key (enumerate L)) part = Ok part' ->
  no_separator part' /\
  forall rest : pstr,
    sub_at (replace (map (fun x => join (snd x))
                         (sorted_by_key (enumerate L))))
           (part' ++ rest)
    = (let? t := sub_at (replace (map (fun x => join (snd x))
                                      (sorted_by_key (enumerate L))))
                        rest in
       Ok (join seg ++ t))%res.
Proof.
  intros Hlen [[Htok ->]|(n & Hn & ->)] Hren.
  - rewrite (renumber_token_kept L part Hlen Htok) in Hren.
    inversion Hren; subst part'. split.
    { by apply token_no_separator. }
    intros rest. unfold join. cbn [concat]. rewrite app_nil_r.
    destruct (token_cases part Htok) as [(c & -> & Hc)|[-> |[-> | ->]]].
    + cbn [app]. by apply sub_at_other.
    + change (py "@000" ++ rest) with (ch "@" :: 48 :: 48 :: 48 :: rest).
      by rewrite sub_at_match.
    + change (py "@999" ++ rest) with (ch "@" :: 57 :: 57 :: 57 :: rest).
      by rewrite sub_at_match.
    + change (py "@998" ++ rest) with (ch "@" :: 57 :: 57 :: 56 :: rest).
      by rewrite sub_at_match.
  - destruct (renumber_ref L n seg Hlen Hn) as (cv & Hcv & Hren').
    rewrite Hren' in Hren. inversion Hren; subst part'. clear Hren Hren'.
    assert (cv < length L)%nat as Hlt.
    { apply lookup_lt_Some in Hcv.
      by rewrite sorted_by_key_length, enumerate_length in Hcv. }
    destruct (ranks_printable_spec (Z.of_nat cv + 1) ltac:(lia))
      as (Hres & Hl3 & Hdig & Hint).
    unfold ref.
    destruct (pad3 (Z.of_nat cv + 1)) as [|d1 [|d2 [|d3 [|? ?]]]];
      try discriminate Hl3.
    cbn [forallb] in Hdig.
    apply andb_true_iff in Hdig as [Hd1 Hdig].
    apply andb_true_iff in Hdig as [Hd2 Hdig].
    apply andb_true_iff in Hdig as [Hd3 _].
    split.
    { apply Forall_cons_2; [by split|].
      apply digits_no_separator. by repeat constructor. }
    intros rest. cbn [app]. rewrite sub_at_match by done.
    assert (replace (map (fun x => join (snd x))
                         (sorted_by_key (enumerate L))) [d1; d2; d3]
            = Ok (join seg)) as ->; [|done].
    unfold replace. rewrite Hres, Hint. cbn [res_bind].
    assert ((0 <=? Z.of_nat cv + 1 - 1) = true) as ->
      by (apply Z.leb_le; lia).
    replace (Z.to_nat (Z.of_nat cv + 1 - 1)) with cv by lia.
    apply index_Ok.
    change (map ?f ?l) with (f <$> l). by rewrite list_lookup_fmap, Hcv.
Qed.

(** The BODY after the renumbering holds no separator, and the
    dictionary pass turns it into the text of the token stream. *)
Lemma body_decoded (L : list (list pstr)) (parts : list pstr)
    (segs : list (list pstr)) :
  (length L <= 997)%nat ->
  Forall2 (covers L) parts segs ->
  forall bd : list pstr,
    res_map (renumber (sorted_by_key (enumerate L))) parts = Ok bd ->
    no_separator (join bd) /\
    sub_at (replace (map (fun x => join (snd x))
                         (sorted_by_key (enumerate L))))
           (join bd)
    = Ok (join (concat segs)).
Proof.
  intros Hlen Hcov.
  induction Hcov as [|part seg parts segs Hc _ IH]; intros bd Hbd.
  - inversion Hbd; subst. split; [constructor|done].
  - cbn [res_map] in Hbd.
    apply res_bind_Ok in Hbd as (part' & Hpart & Hbd).
    apply res_bind_Ok in Hbd as (bd' & Hbd' & Hbd).
    inversion Hbd; subst bd. clear Hbd.
    destruct (IH bd' Hbd') as [Hnl Hsub].
    destruct (part_decoded L part part' seg Hlen Hc Hpart) as [Hnl' Hdec].
    unfold join, no_separator in *. cbn [concat]. split.
    + by apply Forall_app.
    + rewrite Hdec, Hsub. cbn [res_bind]. by rewrite concat_app.
Qed.

(** A part of BODY that starts with a slash is not renumbered. *)
Lemma renumber_slash (indices : list (nat * list pstr)) (part part' : pstr) :
  part !! 0%nat = Some (ch "/") ->
  renumber indices part = Ok part' -> part' = part.
Proof.
  intros H0 H. unfold renumber, index in H. rewrite H0 in H.
  cbn [res_bind] in H. change (ch "/" =? ch "@") with false in H.
  by inversion H.
Qed.

Lemma body_without_slash (indices : list (nat * list pstr))
    (parts : list pstr) : forall bd : list pstr,
  res_map (renumber indices) parts = Ok bd ->
  Forall (fun c => c <> ch "/") (join bd) ->
  Forall (fun part => part !! 0%nat <> Some (ch "/")) parts.
Proof.
  unfold join.
  induction parts as [|part parts IH]; intros bd Hbd Hns; [constructor|].
  cbn [res_map] in Hbd.
  apply res_bind_Ok in Hbd as (part' & Hpart & Hbd).
  apply res_bind_Ok in Hbd as (bd' & Hbd' & Hbd).
  inversion Hbd; subst bd. clear Hbd.
  cbn [concat] in Hns. apply Forall_app in Hns as [Hp Hns].
  constructor; [|by eapply IH].
  intros H0. rewrite (renumber_slash _ _ _ H0 Hpart) in Hp.
  destruct part as [|c part]; [done|]. inversion H0; subst c.
  inversion Hp as [|? ? Hc _]; subst. by destruct Hc.
Qed.

Lemma securehash_loop_bytes (plaintext : list Z) :
  forall (i : nat) (hsh hsh' : list Z),
    Forall is_byte hsh ->
    securehash_loop i plaintext hsh = Ok hsh' ->
    Forall is_byte hsh'.
Proof.
  induction plaintext as [|byte rest IH]; intros i hsh hsh' Hb H.
  - by inversion H; subst.
  - cbn [securehash_loop] in H.
    apply res_bind_Ok in H as (d & _ & H).
    apply res_bind_Ok in H as (t & _ & H).
    apply res_bind_Ok in H as (old & _ & H).
    apply res_bind_Ok in H as (hsh1 & Hset & H).
    eapply IH; [|exact H].
    unfold bytearray_set in Hset.
    destruct ((0 <=? Z.lxor old t) && (Z.lxor old t <? 256)) eqn:E;
      [|discriminate Hset].
    apply andb_true_iff in E as [E1 E2].
    apply Z.leb_le in E1. apply Z.ltb_lt in E2.
    destruct (hsh !! (i mod 15)%nat); [|discriminate Hset].
    inversion Hset; subst hsh1. by apply Forall_insert.
Qed.

(** A digest holds no newline. *)
Lemma s_securehash_no_newline (p h : pstr) :
  s_securehash p = Ok h -> Forall (fun c => c <> 10) h.
Proof.
  unfold s_securehash. intros H.
  apply res_bind_Ok in H as (p' & _ & H).
  apply res_bind_Ok in H as (hsh0 & Hset & H).
  apply res_bind_Ok in H as (hsh & Hloop & H).
  inversion H; subst h. clear H.
  assert (Forall is_byte hsh0) as Hb0.
  { unfold bytearray_set in Hset.
    destruct ((0 <=? Z.of_nat (length p')) && (Z.of_nat (length p') <? 256))
      eqn:E; [|discriminate Hset].
    apply andb_true_iff in E as [E1 E2].
    apply Z.leb_le in E1. apply Z.ltb_lt in E2.
    destruct (replicate 16 0 !! 15%nat); [|discriminate Hset].
    inversion Hset; subst hsh0. unfold is_byte.
    repeat constructor; lia. }
  pose proof (securehash_loop_bytes _ _ _ _ Hb0 Hloop) as Hb.
  eapply Forall_impl; [exact (hexlify_hex hsh Hb)|].
  intros c [v Hv] ->. discriminate Hv.
Qed.

(** The HEAD entries are read back as the joined chunk texts, followed
    by the empty field after the last slash. *)
Lemma split_head_entries (L : list (list pstr)) :
  Forall (Forall is_token) L ->
  split (ch "/") (join (map head_entry L)) = map join L ++ [[]].
Proof.
  unfold join at 1. induction 1 as [|c L Hc _ IH]; [done|].
  cbn [map concat]. unfold head_entry at 1.
  change (py "/") with [ch "/"]. rewrite <- app_assoc. cbn [app].
  rewrite split_app_sep.
  - by rewrite IH.
  - eapply Forall_impl; [by apply tokens_no_separator|]. by intros x [? _].
Qed.

Lemma head_entries_no_newline (L : list (list pstr)) :
  Forall (Forall is_token) L ->
  Forall (fun c => c <> 10) (join (map head_entry L)).
Proof.
  unfold join at 1. induction 1 as [|c L Hc _ IH]; [constructor|].
  cbn [map concat]. unfold head_entry at 1.
  apply Forall_app. split; [|done]. apply Forall_app. split.
  - eapply Forall_impl; [by apply tokens_no_separator|]. by intros x [_ ?].
  - by repeat constructor.
Qed.

(** The chunks that the scan cuts are chunks of tokens. *)
Lemma extracted_tokens (tokens : list pstr) (ps : list nat)
    (L : list (list pstr)) :
  Forall is_token tokens ->
  extracted_at tokens ps L ->
  Forall (Forall is_token) L.
Proof.
  intros Htok (-> & _ & _). apply Forall_forall. intros c Hc.
  apply list_elem_of_In, in_map_iff in Hc as (p & <- & _).
  by apply Forall_take, Forall_drop.
Qed.

(** A returning run of [s_compress], step by step. *)
Lemma s_compress_parts_run plaintext g cur hd bd ft cur' :
  s_compress_parts plaintext g cur = Done (hd, bd, ft) cur' ->
  exists key enc m st c1 c2 bound,
    In key KEYS /\
    s_encrypt plaintext key = Ok enc /\
    key_matrix m /\
    compress_scan m (map escape enc) 0
      {| head := [py "001"; key ++ py "/"; repr_matrix m ++ py "/"];
         body := []; foot := []; chunks := 0; l_chunks := [] |} g c1
    = Done st c2 /\
    scan_inv (map escape enc)
      [py "001"; key ++ py "/"; repr_matrix m ++ py "/"] bound st /\
    hd = head st /\ ft = foot st /\
    res_map (renumber (sorted_by_key (enumerate (l_chunks st)))) (body st)
    = Ok bd.
Proof.
  unfold s_compress_parts. intros H.
  apply bind_Done in H as (key & c1 & Hkey & H).
  apply bind_Done in H as (enc & c2 & Henc & H).
  apply lift_Done in Henc as [Henc ->].
  apply bind_Done in H as (m & c3 & Hm & H).
  apply bind_Done in H as (st & c4 & Hscan & H).
  apply bind_Done in H as (bd' & c5 & Hbd & H).
  apply lift_Done in Hbd as [Hbd ->].
  apply ret_Done in H as [H _]. inversion H; subst; clear H.
  apply choice_Done in Hkey as [Hkey _].
  pose proof Hscan as Hinv.
  eapply (compress_scan_inv (map escape enc)
            [py "001"; key ++ py "/"; repr_matrix m ++ py "/"])
    with (i := 0%nat) in Hinv as [bound Hinv].
  - exists key, enc, m, st, c3, c4, bound. split_and!; try done.
    + apply list_elem_of_In. by eapply list_elem_of_lookup_2.
    + by eapply rand_matrix_range; [|exact Hm].
  - apply Forall_forall. intros t Ht.
    apply list_elem_of_In, in_map_iff in Ht as (c & <- & _). by exists c.
  - done.
  - constructor; simpl; try done.
    exists []. split; [|by intros p []].
    split_and!; [done|by intros p []|]. intros a b p q _ Ha. done.
Qed.

(** [s_decompress] on an artifact of the shape that [s_compress]
    writes: the fields of HEAD are read back and the four steps run on
    BODY. *)
Lemma s_decompress_artifact (key : pstr) (m : matrix) (L : list (list pstr))
    (bd_text ft_text : pstr) (fuel : nat) g c :
  no_separator key ->
  key_matrix m ->
  Forall (Forall is_token) L ->
  Forall (fun x => x <> 10) bd_text ->
  Forall (fun x => x <> 10) ft_text ->
  s_decompress fuel
    (join ([py "001"; key ++ py "/"; repr_matrix m ++ py "/"]
           ++ map head_entry L)
     ++ [10] ++ bd_text ++ [10] ++ ft_text) g c
  = (let* sorted_chunks := r_sort str_ltb fuel (map join L) in
     let* body1 := sub_matrix fuel m 0 bd_text in
     let* body2 := lift (sub_at (replace sorted_chunks) body1) in
     let* body3 := lift (sub_at replace_special body2) in
     s_decrypt fuel body3 key) g c.
Proof.
  intros Hkey Hm HL Hbd Hft.
  destruct (key_matrix_text m Hm) as [Heval Hrepr].
  unfold no_separator in *.
  assert (join ([py "001"; key ++ py "/"; repr_matrix m ++ py "/"]
                ++ map head_entry L)
          = py "001" ++ (key ++ ch "/" :: repr_matrix m
                         ++ ch "/" :: join (map head_entry L))) as Hhead.
  { unfold join. cbn [app concat]. change (py "/") with [ch "/"].
    repeat first [rewrite <- app_assoc | progress cbn [app]]. done. }
  rewrite Hhead, <- app_assoc. unfold s_decompress.
  rewrite take_app_length', drop_app_length' by done.
  change (py_int (py "001")) with (Ok 1).
  rewrite (bind_step _ _ _ _ 1 c) by done.
  rewrite split_sections; [|
    |done|done].
  - rewrite (split_app_sep (ch "/") key)
      by (eapply Forall_impl; [exact Hkey|]; by intros x [? _]).
    rewrite (split_app_sep (ch "/") (repr_matrix m))
      by (eapply Forall_impl; [exact Hrepr|]; by intros x [? _]).
    rewrite (split_head_entries L HL), removelast_last.
    by rewrite (bind_step _ _ _ _ _ _ (lift_Ok_run _ _ _ _ Heval)).
  - apply Forall_app. split.
    + eapply Forall_impl; [exact Hkey|]. by intros x [_ ?].
    + constructor; [done|]. apply Forall_app. split.
      * eapply Forall_impl; [exact Hrepr|]. by intros x [_ ?].
      * constructor; [done|]. by apply head_entries_no_newline.
Qed.

(** The shuffle of [r_sort] sorts at its first round when the first
    draws are the sorting draws. *)
Lemma r_sort_first_shuffle (lst : list pstr) (fuel : nat) g :
  (forall t, (t < length lst - 1)%nat -> g t = sorting_draws str_ltb lst t) ->
  exists res,
    r_sort str_ltb (S fuel) lst g 0%nat = Done res (length lst - 1)%nat.
Proof.
  intros Hg. unfold r_sort. cbn [r_sort_loop]. unfold shuffle.
  destruct lst as [|a lst].
  - simpl. by eexists.
  - destruct (shuffle_from_sorting str_ltb str_ltb_irrefl str_ltb_trans
                (length (a :: lst) - 1) (a :: lst) g 0%nat)
      as (y & Hy & Hys).
    + simpl. lia.
    + intros t Ht. rewrite Nat.add_0_l. by apply Hg.
    + intros p q a' b' Hp Hq Ha' Hb'. apply lookup_lt_Some in Ha'.
      simpl in *. lia.
    + rewrite (bind_step _ _ _ _ _ _ Hy).
      rewrite (sorted_above_not_raised _ y Hys). by eexists.
Qed.

Lemma bind_ext_Done {A B} (m : M A) (k1 k2 : A -> M B) g cur :
  (forall a c1, m g cur = Done a c1 -> k1 a g c1 = k2 a g c1) ->
  bind m k1 g cur = bind m k2 g cur.
Proof. intros H. unfold bind. destruct (m g cur); auto. Qed.

(** X21.  The round trip without matrix substitution.  When the BODY of
    an artifact of [s_compress] holds no slash (the scan replaced no
    token by a matrix literal) and fewer than 997 chunks were cut, every
    run of [s_decompress] on the artifact that returns, returns the
    plaintext: the HEAD entries are sorted into the ranking of
    [s_compress], every reference is replaced by the chunk that was cut
    at its place, the escapes are undone and the ciphertext is
    decrypted.  And there are draws on which [s_decompress] returns it
    with one shuffle and one attempt. *)
Theorem round_trip_without_matrix (s : pstr) (g : nat -> nat)
    (cur cur' : nat) (hd bd ft : list pstr) :
  s_compress_parts s g cur = Done (hd, bd, ft) cur' ->
  Forall (fun c => c <> ch "/") (join bd) ->
  (length ft < 997)%nat ->
  (forall fuel g' c p c',
     s_decompress fuel (join hd ++ [10] ++ join bd ++ [10] ++ join ft) g' c
     = Done p c' ->
     p = s) /\
  (Forall code_point s ->
   exists g' c',
     s_decompress 1 (join hd ++ [10] ++ join bd ++ [10] ++ join ft) g' 0%nat
     = Done s c').
Proof.
  intros Hrun Hns Hft.
  apply s_compress_parts_run in Hrun
    as (key & enc & m & st & c1 & c2 & bound & Hkey & Henc & Hm & Hscan
        & Hinv & -> & -> & Hbd).
  destruct Hinv as [(ps & Hps & _) Hh Hf Hc Hcap _ _].
  assert (Forall is_token (map escape enc)) as Htok.
  { apply Forall_forall. intros t Ht.
    apply list_elem_of_In, in_map_iff in Ht as (c & <- & _). by exists c. }
  pose proof (extracted_tokens _ _ _ Htok Hps) as HL.
  pose proof (Forall2_length _ _ _ Hf) as Hlen.
  pose proof (body_without_slash _ _ _ Hbd Hns) as Hbody.
  destruct (compress_scan_covers m (map escape enc) (map escape enc) Htok
              0%nat 0%nat _ g c1 st c2 eq_refl ltac:(lia) Hscan Hbody)
    as (segs & Hcov & Hcat).
  { lia. }
  { done. }
  { exists []. by split. }
  destruct (body_decoded (l_chunks st) (body st) segs ltac:(lia) Hcov bd Hbd)
    as [Hsep Hsub].
  assert (Forall (fun x => x <> 10) (join bd)) as Hnl.
  { eapply Forall_impl; [exact Hsep|]. by intros x [_ ?]. }
  rewrite Hcat in Hsub.
  assert (Forall (fun x => x <> 10) (join (foot st))) as Hfoot.
  { unfold join. clear -Hf.
    induction Hf as [|c h L ft Hh _ IH]; [constructor|].
    cbn [concat]. apply Forall_app. split; [|done].
    by eapply s_securehash_no_newline. }
  apply keys_no_separator in Hkey.
  assert (forall fuel g' c,
            s_decompress fuel
              (join (head st) ++ [10] ++ join bd ++ [10] ++ join (foot st))
              g' c
            = (let* sorted_chunks := r_sort str_ltb fuel
                                       (map join (l_chunks st)) in
               s_decrypt fuel enc key) g' c) as Hdec.
  { intros fuel g' c. rewrite Hh.
    rewrite (s_decompress_artifact key m (l_chunks st) _ _ fuel g' c
               Hkey Hm HL Hnl Hfoot).
    apply bind_ext_Done. intros res k1 Hsort.
    apply r_sort_ranking in Hsort; [|done]. subst res.
    rewrite (bind_step _ _ _ _ _ _
               (sub_matrix_no_slash fuel m (join bd) g' k1 Hns)).
    rewrite Hsub.
    rewrite (bind_step _ _ _ _ (join (map escape enc)) k1) by done.
    rewrite sub_at_special_escaped.
    by rewrite (bind_step _ _ _ _ enc k1). }
  split.
  - intros fuel g' c p c' H. rewrite Hdec in H.
    apply bind_Done in H as (res & k1 & _ & H).
    apply s_decrypt_loop_accepts in H. by eapply s_encrypt_from_inj.
  - intros Hs.
    exists (sorting_then_inverting_draws (map join (l_chunks st)) s key).
    exists (length (map join (l_chunks st)) - 1 + length s)%nat.
    rewrite Hdec.
    destruct (r_sort_first_shuffle (map join (l_chunks st)) 0
                (sorting_then_inverting_draws
                   (map join (l_chunks st)) s key)) as [res Hres].
    { intros t Ht. unfold sorting_then_inverting_draws.
      by apply Nat.ltb_lt in Ht as ->. }
    rewrite (bind_step _ _ _ _ _ _ Hres).
    apply s_decrypt_first_attempt; [done..|].
    intros t. unfold sorting_then_inverting_draws.
    assert ((length (map join (l_chunks st)) - 1 + t
             <? length (map join (l_chunks st)) - 1)%nat = false) as ->
      by (apply Nat.ltb_ge; lia).
    f_equal. lia.
Qed.

(** Witness of X21: the run that cuts two chunks out of "aa0aaa". *)
Lemma round_trip_without_matrix_witness :
  exists hd bd ft cur',
    s_compress_parts (py "aa0aaa") two_chunk_draws 0%nat
    = Done (hd, bd, ft) cur' /\
    exists g' c',
      s_decompress 1 (join hd ++ [10] ++ join bd ++ [10] ++ join ft) g' 0%nat
      = Done (py "aa0aaa") c'.
Proof.
  eexists _, _, _, _. split; [vm_compute; reflexivity|].
  refine (proj2 (round_trip_without_matrix (py "aa0aaa") two_chunk_draws
                   0%nat 14%nat _ _ _ _ _ _) _).
  - vm_compute. reflexivity.
  - vm_compute. repeat constructor; discriminate.
  - simpl. lia.
  - repeat constructor; vm_compute; discriminate.
Defined.

(** ** Pipeline: the matrix substitution under an invertible key *)

(** A row vector is determined by its products with the columns of a
    matrix whose determinant is not zero. *)
Lemma row_cancel (a b c d e f g h i x y z p q t : Z) :
  a * (e * i - f * h) - b * (d * i - f * g) + c * (d * h - e * g) <> 0 ->
  p * a + q * d + t * g = x * a + y * d + z * g ->
  p * b + q * e + t * h = x * b + y * e + z * h ->
  p * c + q * f + t * i = x * c + y * f + z * i ->
  p = x /\ q = y /\ t = z.
Proof.
  intros Hdet H1 H2 H3.
  set (det := a * (e * i - f * h) - b * (d * i - f * g) + c * (d * h - e * g))
    in *.
  assert ((p - x) * a + (q - y) * d + (t - z) * g = 0) as E1 by lia.
  assert ((p - x) * b + (q - y) * e + (t - z) * h = 0) as E2 by lia.
  assert ((p - x) * c + (q - y) * f + (t - z) * i = 0) as E3 by lia.
  assert ((p - x) * det = 0) as Hu.
  { replace ((p - x) * det)
      with (((p - x) * a + (q - y) * d + (t - z) * g) * (e * i - f * h)
            - ((p - x) * b + (q - y) * e + (t - z) * h) * (d * i - f * g)
            + ((p - x) * c + (q - y) * f + (t - z) * i) * (d * h - e * g))
      by (unfold det; ring).
    rewrite E1, E2, E3. ring. }
  assert ((q - y) * det = 0) as Hv.
  { replace ((q - y) * det)
      with (- ((p - x) * a + (q - y) * d + (t - z) * g) * (b * i - c * h)
            + ((p - x) * b + (q - y) * e + (t - z) * h) * (a * i - c * g)
            - ((p - x) * c + (q - y) * f + (t - z) * i) * (a * h - b * g))
      by (unfold det; ring).
    rewrite E1, E2, E3. ring. }
  assert ((t - z) * det = 0) as Hw.
  { replace ((t - z) * det)
      with (((p - x) * a + (q - y) * d + (t - z) * g) * (b * f - c * e)
            - ((p - x) * b + (q - y) * e + (t - z) * h) * (a * f - c * d)
            + ((p - x) * c + (q - y) * f + (t - z) * i) * (a * e - b * d))
      by (unfold det; ring).
    rewrite E1, E2, E3. ring. }
  apply Z.mul_eq_0 in Hu as [Hu|Hu]; [|done].
  apply Z.mul_eq_0 in Hv as [Hv|Hv]; [|done].
  apply Z.mul_eq_0 in Hw as [Hw|Hw]; [|done].
  lia.
Qed.

Lemma key_matrix_shape (m : matrix) :
  key_matrix m ->
  exists a b c d e f g h i,
    m = [[a; b; c]; [d; e; f]; [g; h; i]] /\
    Forall (fun x => 1 <= x <= 3) [a; b; c] /\
    Forall (fun x => 1 <= x <= 3) [d; e; f] /\
    Forall (fun x => 1 <= x <= 3) [g; h; i].
Proof.
  intros [Hlen Hall].
  destruct m as [|r1 [|r2 [|r3 [|? ?]]]]; try discriminate Hlen.
  inversion Hall as [|? ? [Hl1 Hr1] Hall1]; subst.
  inversion Hall1 as [|? ? [Hl2 Hr2] Hall2]; subst.
  inversion Hall2 as [|? ? [Hl3 Hr3] _]; subst.
  destruct r1 as [|a [|b [|c [|? ?]]]]; try discriminate Hl1.
  destruct r2 as [|d [|e [|f [|? ?]]]]; try discriminate Hl2.
  destruct r3 as [|g [|h [|i [|? ?]]]]; try discriminate Hl3.
  by exists a, b, c, d, e, f, g, h, i.
Qed.

(** Under an invertible key the quotient that [matdiv] returns starts
    with the row that was multiplied. *)
Lemma matdiv_first_row (m : matrix) (x y z : Z) (rows soln : matrix)
    (fuel : nat) g cur cur' :
  key_matrix m ->
  det3 m <> 0 ->
  matdiv fuel (matmul ([x; y; z] :: rows) m) m g cur = Done soln cur' ->
  exists rest, soln = [x; y; z] :: rest.
Proof.
  intros Hm Hdet H.
  destruct (key_matrix_shape m Hm)
    as (a & b & c & d & e & f & g0 & h & i & -> & _).
  unfold matdiv in H.
  apply matdiv_loop_solves in H as (Hmul & Hlen & Hall); [|lia].
  destruct soln as [|r0 rest]; [discriminate Hlen|].
  inversion Hall as [|? ? [Hl0 _] _]; subst.
  destruct r0 as [|p [|q [|t [|? ?]]]]; try discriminate Hl0.
  exists rest. f_equal.
  unfold matmul in Hmul. cbn [map zip_star zip_with] in Hmul.
  inversion Hmul as [[H1 H2 H3 Hrest]]. clear Hmul Hrest.
  unfold dot in H1, H2, H3. cbn [zip_with fold_left] in H1, H2, H3.
  unfold det3 in Hdet.
  destruct (row_cancel a b c d e f g0 h i x y z p q t Hdet) as (-> & -> & ->);
    [lia..|done].
Qed.

(** The tokens of supported text and their seed matrices. *)
Lemma supported_token_cases (t : pstr) :
  supported_token t ->
  (exists c, t = [c] /\ printable c /\ c <> ch "@" /\
             seed_matrix t = Ok [[c; 0; 0]; [1; 2; 3]; [3; 2; 1]]) \/
  (t = py "@000" /\
   seed_matrix t = Ok [[10; 10; 10]; [1; 2; 3]; [3; 2; 1]]) \/
  (t = py "@999" /\
   seed_matrix t = Ok [[19; 19; 19]; [1; 2; 3]; [3; 2; 1]]) \/
  (t = py "@998" /\
   seed_matrix t = Ok [[19; 19; 18]; [1; 2; 3]; [3; 2; 1]]).
Proof.
  intros (c & Hc & ->).
  destruct (escape_cases c)
    as [[_ ->]|[[_ ->]|[[_ ->]|(Hat & Hnl & _ & ->)]]].
  - right; left. by split.
  - right; right; left. by split.
  - right; right; right. by split.
  - left. exists c. destruct Hc as [Hc|Hc]; [|done].
    split_and!; try done.
    unfold seed_matrix. cbn [index lookup list_lookup res_bind].
    by destruct (Z.eqb_spec c (ch "@")).
Qed.

(** The product that the matrix substitution prints is a small
    matrix. *)
Lemma seed_product_small (m : matrix) (x y z : Z) :
  key_matrix m ->
  0 <= x <= 127 -> 0 <= y <= 19 -> 0 <= z <= 19 ->
  (y = 0 /\ z = 0) \/ x <= 19 ->
  small_matrix (matmul [[x; y; z]; [1; 2; 3]; [3; 2; 1]] m).
Proof.
  intros Hm Hx Hy Hz Hcase.
  destruct (key_matrix_shape m Hm)
    as (a & b & c & d & e & f & g & h & i & -> & Ha & Hd & Hg).
  inversion Ha as [|? ? Ha1 Ha']; subst.
  inversion Ha' as [|? ? Ha2 Ha'']; subst.
  inversion Ha'' as [|? ? Ha3 _]; subst.
  inversion Hd as [|? ? Hd1 Hd']; subst.
  inversion Hd' as [|? ? Hd2 Hd'']; subst.
  inversion Hd'' as [|? ? Hd3 _]; subst.
  inversion Hg as [|? ? Hg1 Hg']; subst.
  inversion Hg' as [|? ? Hg2 Hg'']; subst.
  inversion Hg'' as [|? ? Hg3 _]; subst.
  clear Ha Ha' Ha'' Hd Hd' Hd'' Hg Hg' Hg''.
  assert (forall u v w p q r,
            0 <= u <= 127 -> 0 <= v <= 19 -> 0 <= w <= 19 ->
            (v = 0 /\ w = 0) \/ u <= 19 ->
            1 <= p <= 3 -> 1 <= q <= 3 -> 1 <= r <= 3 ->
            0 <= 0 + u * p + v * q + w * r <= 400) as Hbound.
  { intros u v w p q r Hu Hv Hw Huvw Hp Hq Hr.
    assert (0 <= u * p <= u * 3) by (split; [lia|apply Z.mul_le_mono_nonneg_l; lia]).
    assert (0 <= v * q <= v * 3) by (split; [lia|apply Z.mul_le_mono_nonneg_l; lia]).
    assert (0 <= w * r <= w * 3) by (split; [lia|apply Z.mul_le_mono_nonneg_l; lia]).
    destruct Huvw as [[-> ->]|Hu']; lia. }
  split; [done|].
  unfold matmul. cbn [map zip_star zip_with]. unfold dot.
  cbn [zip_with fold_left].
  repeat (constructor; [split; [done|]; repeat (constructor; [apply Hbound; lia|]); constructor|]).
  constructor.
Qed.

(** The seed matrix of a supported token, and what [matrix_fix] makes
    of its first row. *)
Lemma seed_cases (tok : pstr) (lst1 : matrix) :
  supported_token tok ->
  seed_matrix tok = Ok lst1 ->
  exists x y z,
    lst1 = [[x; y; z]; [1; 2; 3]; [3; 2; 1]] /\
    0 <= x <= 127 /\ 0 <= y <= 19 /\ 0 <= z <= 19 /\
    ((y = 0 /\ z = 0) \/ x <= 19) /\
    (forall g0 c0,
       (let* s01 := lift (index [x; y; z] 1) in
        if s01 =? 0 then
          let* s00 := lift (index [x; y; z] 0) in
          let* c := lift (chr s00) in
          ret [c]
        else
          ret (ch "@" :: join (map (fun i => str_of_int (i - 10))
                                   [x; y; z]))) g0 c0
       = Done tok c0).
Proof.
  intros Htok Hseed.
  destruct (supported_token_cases tok Htok)
    as [(c & -> & Hp & Hat & Hs)|[[-> Hs]|[[-> Hs]|[-> Hs]]]];
    rewrite Hs in Hseed; inversion Hseed; subst lst1.
  - exists c, 0, 0. unfold printable in Hp.
    split_and!; try done; try lia. intros g0 c0.
    cbn [index lookup list_lookup lift]. unfold bind at 1, ret at 1.
    cbn [Z.eqb]. unfold bind at 1, ret at 1.
    assert (chr c = Ok c) as ->
      by (apply chr_Ok; unfold code_point; lia).
    reflexivity.
  - exists 10, 10, 10. split_and!; try done; try lia.
  - exists 19, 19, 19. split_and!; try done; try lia.
  - exists 19, 19, 18. split_and!; try done; try lia.
Qed.

(** Under an invertible key [matrix_fix] gives the token back from the
    matrix literal that the substitution printed for it. *)
Lemma matrix_fix_token (m : matrix) (tok : pstr) (lst1 : matrix)
    (fuel : nat) g cur (r : pstr) cur' :
  key_matrix m ->
  det3 m <> 0 ->
  supported_token tok ->
  seed_matrix tok = Ok lst1 ->
  small_matrix (matmul lst1 m) /\
  (matrix_fix fuel m (repr_matrix (matmul lst1 m)) g cur = Done r cur' ->
   r = tok).
Proof.
  intros Hm Hdet Htok Hseed.
  destruct (seed_cases tok lst1 Htok Hseed)
    as (x & y & z & -> & Hx & Hy & Hz & Hc & Hfix).
  pose proof (seed_product_small m x y z Hm Hx Hy Hz Hc) as Hsmall.
  split; [done|].
  intros H. unfold matrix_fix in H.
  destruct (small_matrix_text _ Hsmall) as [Heval _].
  rewrite (bind_step _ _ _ _ _ _ (lift_Ok_run _ _ _ _ Heval)) in H.
  apply bind_Done in H as (soln & c1 & Hdiv & H).
  apply matdiv_first_row in Hdiv as [rest ->]; [|done..].
  cbn [index lookup list_lookup] in H.
  change (lift (Ok [x; y; z])) with (@ret (list Z) [x; y; z]) in H.
  rewrite (bind_step _ _ _ _ [x; y; z] c1) in H by done.
  rewrite (Hfix g c1) in H. by inversion H.
Qed.

(** *** The matrix pass over the parts of BODY *)

Lemma sub_matrix_copy (fuel : nat) (mkey : matrix) (p rest : pstr) g cur :
  Forall (fun c => c <> ch "/") p ->
  sub_matrix fuel mkey 0 (p ++ rest) g cur
  = (let* t := sub_matrix fuel mkey 0 rest in ret (p ++ t)) g cur.
Proof.
  induction p as [|c p IH]; intros Hp.
  - cbn [app]. unfold bind, ret.
    by destruct (sub_matrix fuel mkey 0 rest g cur).
  - inversion Hp as [|? ? Hc Hp']; subst.
    cbn [app sub_matrix].
    assert (match_matrix (c :: p ++ rest) = None) as ->.
    { unfold match_matrix. destruct (p ++ rest) as [|c1 s']; [done|].
      by destruct (Z.eqb_spec c (ch "/")). }
    unfold bind at 1. rewrite (IH Hp'). unfold bind, ret.
    by destruct (sub_matrix fuel mkey 0 rest g cur).
Qed.

Lemma sub_matrix_skip (fuel : nat) (mkey : matrix) (p rest : pstr) g cur :
  sub_matrix fuel mkey (length p) (p ++ rest) g cur
  = sub_matrix fuel mkey 0 rest g cur.
Proof.
  induction p as [|c p IH]; [done|]. cbn [app length sub_matrix]. exact IH.
Qed.

Lemma lazy_group_text (text rest : pstr) :
  no_separator text ->
  lazy_group (text ++ ch "/" :: rest) = Some text.
Proof.
  induction text as [|c text IH]; intros Ht.
  - cbn [app lazy_group]. by rewrite Z.eqb_refl.
  - inversion Ht as [|? ? [Hs Hn] Ht']; subst.
    cbn [app lazy_group].
    destruct (Z.eqb_spec c (ch "/")); [done|].
    destruct (Z.eqb_spec c 10); [done|].
    by rewrite (IH Ht').
Qed.

(** A matrix literal between slashes is one match of ['/(.+?)/']. *)
Lemma sub_matrix_literal (fuel : nat) (mkey : matrix) (text rest : pstr)
    g cur :
  text <> [] ->
  no_separator text ->
  sub_matrix fuel mkey 0 (py "/" ++ text ++ py "/" ++ rest) g cur
  = (let* r := matrix_fix fuel mkey text in
     let* t := sub_matrix fuel mkey 0 rest in
     ret (r ++ t)) g cur.
Proof.
  intros Hne Ht. change (py "/") with [ch "/"]. cbn [app sub_matrix].
  destruct text as [|c1 text]; [done|].
  inversion Ht as [|? ? [Hs Hn] Ht']; subst.
  assert (match_matrix (ch "/" :: (c1 :: text) ++ ch "/" :: rest)
          = Some (c1 :: text)) as ->.
  { cbn [app match_matrix]. rewrite Z.eqb_refl.
    destruct (Z.eqb_spec c1 10); [done|]. cbn [negb andb].
    by rewrite (lazy_group_text text rest Ht'). }
  apply bind_ext_Done. intros r c1' _.
  assert (forall g0 c0,
            sub_matrix fuel mkey (length (c1 :: text) + 1)
              ((c1 :: text) ++ ch "/" :: rest) g0 c0
            = sub_matrix fuel mkey 0 rest g0 c0) as Hskip.
  { intros g0 c0.
    replace ((c1 :: text) ++ ch "/" :: rest)
      with (((c1 :: text) ++ [ch "/"]) ++ rest) by (by rewrite <- app_assoc).
    replace (length (c1 :: text) + 1)%nat
      with (length ((c1 :: text) ++ [ch "/"]))
      by (rewrite length_app; simpl; lia).
    apply sub_matrix_skip. }
  unfold bind. by rewrite Hskip.
Qed.

(** *** The parts of BODY when matrices are substituted *)

Lemma stands_for_mono (m : matrix) (L L' : list (list pstr)) (part : pstr)
    (seg : list pstr) :
  stands_for m L part seg -> stands_for m (L ++ L') part seg.
Proof.
  intros [H|H]; [left; by apply covers_mono|by right].
Qed.

(** Below the cap, the parts of BODY stand, one after the other, for
    the whole token stream. *)
Lemma compress_scan_stands m (tokens rest : list pstr) :
  Forall supported_token tokens ->
  forall (i skip : nat) (st : cstate) g cur (st' : cstate) cur',
    rest = drop i tokens ->
    (skip <= length rest)%nat ->
    compress_scan m rest skip st g cur = Done st' cur' ->
    chunks st' < 997 ->
    chunks st = Z.of_nat (length (l_chunks st)) ->
    (exists segs, Forall2 (stands_for m (l_chunks st)) (body st) segs /\
                  concat segs = take (i + skip) tokens) ->
    exists segs', Forall2 (stands_for m (l_chunks st')) (body st') segs' /\
                  concat segs' = tokens.
Proof.
  intros Htok.
  induction rest as [|tok rest' IH];
    intros i skip st g cur st' cur' Hrest Hskip H Hcap Hn
      (segs & Hcov & Hcat).
  - simpl in H. apply ret_Done in H as [<- _].
    exists segs. split; [done|]. rewrite Hcat. apply take_ge.
    symmetry in Hrest. apply drop_nil_inv in Hrest. lia.
  - assert (tokens !! i = Some tok) as Hi.
    { rewrite <- (Nat.add_0_r i), <- lookup_drop, <- Hrest. done. }
    assert (rest' = drop (S i) tokens) as Hrest'.
    { rewrite (drop_S _ _ _ Hi) in Hrest. by inversion Hrest. }
    assert (supported_token tok) as Hst
      by (eapply Forall_lookup_1; eauto).
    cbn [compress_scan] in H. destruct skip as [|skip'].
    + destruct (997 <=? chunks st) eqn:Hstop.
      { apply ret_Done in H as [<- _]. apply Z.leb_le in Hstop. lia. }
      apply bind_Done in H as (chunk_time & c1 & Hct & H).
      destruct chunk_time.
      * assert (5 < length (tok :: rest'))%nat as H5.
        { destruct (5 <? length (tok :: rest'))%nat eqn:E.
          - by apply Nat.ltb_lt in E.
          - apply ret_Done in Hct as [Hct _]. discriminate Hct. }
        apply bind_Done in H as (h & c2 & _ & H). simpl in H5.
        eapply (IH (S i) 4%nat) in H; [exact H|done|lia|done| |].
        -- cbn [chunks l_chunks]. rewrite length_app. simpl. lia.
        -- cbn [body l_chunks].
           exists (segs ++ [take 5 (tok :: rest')]). split.
           ++ apply Forall2_app.
              ** eapply Forall2_impl; [exact Hcov|].
                 intros part seg. apply stands_for_mono.
              ** constructor; [|constructor]. left. right.
                 exists (length (l_chunks st)). split.
                 --- by rewrite lookup_app_r, Nat.sub_diag by lia.
                 --- by rewrite Hn.
           ++ rewrite concat_app, Hcat. cbn [concat]. rewrite app_nil_r.
              rewrite Hrest, Nat.add_0_r, take_take_drop.
              f_equal. lia.
      * apply bind_Done in H as (matrix_time & c2 & _ & H).
        destruct matrix_time.
        -- apply bind_Done in H as (lst1 & c3 & Hseed & H).
           apply lift_Done in Hseed as [Hseed ->].
           eapply (IH (S i) 0%nat) in H; [exact H|done|lia|done..|].
           cbn [body l_chunks].
           exists (segs ++ [[tok]]). split.
           ++ apply Forall2_app; [done|].
              constructor; [|constructor]. right.
              exists tok. split_and!; [done..|]. by exists lst1.
           ++ rewrite concat_app, Hcat. simpl.
              rewrite !Nat.add_0_r. by rewrite (take_S_r _ _ _ Hi).
        -- eapply (IH (S i) 0%nat) in H; [exact H|done|lia|done..|].
           cbn [body l_chunks].
           exists (segs ++ [[tok]]). split.
           ++ apply Forall2_app; [done|].
              constructor; [|constructor]. left. left. split; [|done].
              by apply supported_token_is_token.
           ++ rewrite concat_app, Hcat. simpl.
              rewrite !Nat.add_0_r. by rewrite (take_S_r _ _ _ Hi).
    + eapply (IH (S i) skip') in H; [exact H|done|simpl in Hskip; lia|done..|].
      exists segs. split; [done|]. rewrite Hcat. f_equal. lia.
Qed.

(** The renumbered BODY against the BODY that the same run would have
    without matrix substitution: a part is the same text without a
    separator, or the matrix part of a token. *)
Lemma body_split (m : matrix) (L : list (list pstr)) (parts : list pstr)
    (segs : list (list pstr)) :
  (length L <= 997)%nat ->
  Forall2 (stands_for m L) parts segs ->
  forall bd : list pstr,
    res_map (renumber (sorted_by_key (enumerate L))) parts = Ok bd ->
    exists parts0 bd0,
      Forall2 (covers L) parts0 segs /\
      res_map (renumber (sorted_by_key (enumerate L))) parts0 = Ok bd0 /\
      Forall2 (fun part part0 =>
                 (part = part0 /\ no_separator part) \/
                 (supported_token part0 /\ matrix_part m part0 part))
              bd bd0.
Proof.
  intros Hlen Hst.
  induction Hst as [|part seg parts segs Hp _ IH]; intros bd Hbd.
  - inversion Hbd; subst. exists [], []. by repeat constructor.
  - cbn [res_map] in Hbd.
    apply res_bind_Ok in Hbd as (part' & Hpart & Hbd).
    apply res_bind_Ok in Hbd as (bd' & Hbd' & Hbd).
    inversion Hbd; subst bd. clear Hbd.
    destruct (IH bd' Hbd') as (parts0 & bd0 & Hcov & Hren & HR).
    destruct Hp as [Hc|(tok & Htok & -> & Hmp)].
    + destruct (part_decoded L part part' seg Hlen Hc Hpart) as [Hsep _].
      exists (part :: parts0), (part' :: bd0). split_and!.
      * by constructor.
      * cbn [res_map]. by rewrite Hpart, Hren.
      * constructor; [by left|done].
    + assert (part' = part) as ->.
      { eapply renumber_slash; [|exact Hpart].
        by destruct Hmp as (lst1 & _ & ->). }
      exists (tok :: parts0), (tok :: bd0). split_and!.
      * constructor; [|done]. left. split; [|done].
        by apply supported_token_is_token.
      * cbn [res_map].
        rewrite (renumber_token_kept L tok Hlen
                   (supported_token_is_token tok Htok)), Hren. done.
      * constructor; [by right|done].
Qed.

(** Under an invertible key the matrix pass puts the tokens back. *)
Lemma sub_matrix_parts (m : matrix) (fuel : nat) (bd bd0 : list pstr) :
  key_matrix m ->
  det3 m <> 0 ->
  Forall2 (fun part part0 =>
             (part = part0 /\ no_separator part) \/
             (supported_token part0 /\ matrix_part m part0 part))
          bd bd0 ->
  Forall (fun c => c <> 10) (join bd) /\
  forall g c body1 c',
    sub_matrix fuel m 0 (join bd) g c = Done body1 c' ->
    body1 = join bd0.
Proof.
  intros Hm Hdet HR. unfold join.
  induction HR as [|part part0 bd bd0 Hp _ [IHnl IH]].
  - split; [constructor|]. intros g c body1 c' H. by inversion H.
  - cbn [concat]. destruct Hp as [[-> Hsep]|(Htok & lst1 & Hseed & ->)].
    + split.
      { apply Forall_app. split; [|done].
        eapply Forall_impl; [exact Hsep|]. by intros x [_ ?]. }
      intros g c body1 c' H.
      rewrite sub_matrix_copy in H
        by (eapply Forall_impl; [exact Hsep|]; by intros x [? _]).
      apply bind_Done in H as (t & c1 & Ht & H).
      apply ret_Done in H as [<- _]. f_equal. by eapply IH.
    + destruct (matrix_fix_token m part0 lst1 fuel (fun _ => 0%nat) 0%nat
                  [] 0%nat Hm Hdet Htok Hseed) as [Hsmall _].
      destruct (small_matrix_text _ Hsmall) as [_ Hsep].
      split.
      { apply Forall_app. split; [|done].
        apply Forall_app. split; [by repeat constructor|].
        apply Forall_app. split; [|by repeat constructor].
        eapply Forall_impl; [exact Hsep|]. by intros x [_ ?]. }
      intros g c body1 c' H.
      rewrite <- !app_assoc in H.
      rewrite sub_matrix_literal in H; [|by destruct (matmul lst1 m)|done].
      apply bind_Done in H as (r & c1 & Hr & H).
      apply bind_Done in H as (t & c2 & Ht & H).
      apply ret_Done in H as [<- _].
      destruct (matrix_fix_token m part0 lst1 fuel g c r c1 Hm Hdet Htok Hseed)
        as [_ Hfix].
      rewrite (Hfix Hr). f_equal. by eapply IH.
Qed.


(** *** The search of [matdiv] under an invertible key

    On draws that spell the entries of the matrix that was multiplied,
    every candidate of a round is that matrix cut down to the current
    bound; the first candidate that solves is the matrix itself. *)

Lemma quotient_draws_period (a : matrix) (j k : nat) :
  length a = 3%nat ->
  quotient_draws a 3 (9 * j + k) = quotient_draws a 3 k.
Proof.
  intros Ha. unfold quotient_draws. rewrite Ha.
  change (3 * 3)%nat with 9%nat.
  replace (9 * j + k)%nat with (k + j * 9)%nat by lia.
  by rewrite Nat.Div0.mod_add.
Qed.

Section SeedSearch.
Context (m : matrix) (x y z : Z).
Hypothesis key : key_matrix m.
Hypothesis invertible : det3 m <> 0.
Hypothesis x_pos : 0 <= x.
Hypothesis y_pos : 0 <= y.
Hypothesis z_pos : 0 <= z.
Let lst1 : matrix := [[x; y; z]; [1; 2; 3]; [3; 2; 1]].

(** The candidate at the bound [v]. *)
Let cut (v : Z) : matrix := map (map (fun e => e mod (v + 1))) lst1.

Lemma rand_matrix_cut (v : Z) g cur :
  (forall n, (n < 9)%nat -> g (cur + n)%nat = quotient_draws lst1 3 n) ->
  rand_matrix 3 3 0 v g cur = Done (cut v) (cur + 9)%nat.
Proof.
  intros Hg. rewrite rand_matrix_run. f_equal.
  assert (forall r k, (r < 3)%nat -> (k < 3)%nat ->
            Z.of_nat (g (cur + r * 3 + k)%nat)
            = nth k (nth r lst1 []) 0) as Hentry.
  { intros r k Hr Hk.
    replace (cur + r * 3 + k)%nat with (cur + (r * 3 + k))%nat by lia.
    rewrite Hg by lia.
    pose proof (quotient_draws_aligned lst1 lst1 0 r k Hr Hk) as Hq.
    change (length lst1) with 3%nat in Hq. cbn [Nat.mul Nat.add] in Hq.
    rewrite Hq. apply Z2Nat.id.
    destruct r as [|[|[|r]]]; [| | |lia];
      destruct k as [|[|[|k]]]; simpl; lia. }
  cbn [seq map cut lst1].
  rewrite !Hentry by lia. reflexivity.
Qed.

(** The matrix that was multiplied is the only quotient. *)
Lemma quotient_unique (cand : matrix) :
  length cand = 3%nat ->
  Forall (fun r => length r = 3%nat) cand ->
  matmul cand m = matmul lst1 m ->
  cand = lst1.
Proof.
  intros Hlen Hall Hmul.
  destruct (key_matrix_shape m key)
    as (a & b & c & d & e & f & g0 & h & i & Hmeq & _).
  destruct cand as [|r0 [|r1 [|r2 [|? ?]]]]; try discriminate Hlen.
  inversion Hall as [|? ? Hl0 Hall1]; subst.
  inversion Hall1 as [|? ? Hl1 Hall2]; subst.
  inversion Hall2 as [|? ? Hl2 _]; subst.
  destruct r0 as [|p0 [|q0 [|t0 [|? ?]]]]; try discriminate Hl0.
  destruct r1 as [|p1 [|q1 [|t1 [|? ?]]]]; try discriminate Hl1.
  destruct r2 as [|p2 [|q2 [|t2 [|? ?]]]]; try discriminate Hl2.
  unfold matmul, lst1 in Hmul. cbn [map zip_star zip_with] in Hmul.
  unfold dot in Hmul. cbn [zip_with fold_left] in Hmul.
  inversion Hmul as [[A1 A2 A3 B1 B2 B3 C1 C2 C3]]. clear Hmul.
  unfold det3 in invertible.
  destruct (row_cancel a b c d e f g0 h i x y z p0 q0 t0 invertible)
    as (-> & -> & ->); [lia..|].
  destruct (row_cancel a b c d e f g0 h i 1 2 3 p1 q1 t1 invertible)
    as (-> & -> & ->); [lia..|].
  destruct (row_cancel a b c d e f g0 h i 3 2 1 p2 q2 t2 invertible)
    as (-> & -> & ->); [lia..|].
  done.
Qed.

Lemma cut_solves (v : Z) :
  mat_eqb (matmul (cut v) m) (matmul lst1 m) = true -> cut v = lst1.
Proof.
  intros H. apply mat_eqb_eq in H. apply quotient_unique; [done| |done].
  by repeat constructor.
Qed.

Lemma cut_large (v : Z) :
  x <= v -> y <= v -> z <= v -> 3 <= v -> cut v = lst1.
Proof.
  intros Hx Hy Hz Hv. unfold cut, lst1. cbn [map].
  rewrite !Z.mod_small by lia. done.
Qed.

(** A round in which the candidate does not solve uses all its tries. *)
Lemma matdiv_tries_miss (v : Z) (n : nat) : forall g cur,
  mat_eqb (matmul (cut v) m) (matmul lst1 m) = false ->
  (forall k, (k < 9 * n)%nat -> g (cur + k)%nat = quotient_draws lst1 3 k) ->
  matdiv_tries n (matmul lst1 m) m 3 3 v g cur = Done None (cur + 9 * n)%nat.
Proof.
  intros g cur Hmiss. revert cur.
  induction n as [|n IH]; intros cur Hg.
  - cbn [matdiv_tries]. unfold ret. f_equal. lia.
  - cbn [matdiv_tries].
    rewrite (bind_step _ _ _ _ _ _ (rand_matrix_cut v g cur
                                      ltac:(intros k Hk; apply Hg; lia))).
    rewrite Hmiss. rewrite IH.
    + f_equal. lia.
    + intros k Hk. replace (cur + 9 + k)%nat with (cur + (9 * 1 + k))%nat by lia.
      rewrite Hg by lia. by apply quotient_draws_period.
Qed.

(** A round in which the candidate solves returns it at once. *)
Lemma matdiv_tries_hit_cut (v : Z) (n : nat) g cur :
  mat_eqb (matmul (cut v) m) (matmul lst1 m) = true ->
  (forall k, (k < 9)%nat -> g (cur + k)%nat = quotient_draws lst1 3 k) ->
  matdiv_tries (S n) (matmul lst1 m) m 3 3 v g cur
  = Done (Some (cut v)) (cur + 9)%nat.
Proof.
  intros Hhit Hg. cbn [matdiv_tries].
  rewrite (bind_step _ _ _ _ _ _ (rand_matrix_cut v g cur Hg)).
  by rewrite Hhit.
Qed.

(** The search returns the matrix that was multiplied, after a number
    of draws that does not depend on the stream. *)
Lemma matdiv_loop_finds (fuel : nat) : forall maxv : Z,
  0 <= maxv ->
  x <= maxv + Z.of_nat fuel -> y <= maxv + Z.of_nat fuel ->
  z <= maxv + Z.of_nat fuel -> 3 <= maxv + Z.of_nat fuel ->
  (1 <= fuel)%nat ->
  exists D : nat,
    forall g cur,
      (forall k, (k < D)%nat -> g (cur + k)%nat = quotient_draws lst1 3 k) ->
      matdiv_loop fuel (matmul lst1 m) m 3 3 maxv g cur
      = Done lst1 (cur + D)%nat.
Proof.
  induction fuel as [|fuel IH]; intros maxv Hmax Hx Hy Hz H3 Hf; [lia|].
  set (n := Z.to_nat ((maxv + 1) ^ 2 * Z.of_nat 3 * Z.of_nat 3 + 10)).
  assert (exists n', n = S n') as [n' Hn].
  { exists (Nat.pred n). unfold n.
    assert (0 <= (maxv + 1) ^ 2) by (apply Z.pow_nonneg; lia). lia. }
  destruct (mat_eqb (matmul (cut (maxv + 1)) m) (matmul lst1 m)) eqn:E.
  - exists 9%nat. intros g cur Hg.
    cbn [matdiv_loop]. cbv zeta. fold n. rewrite Hn.
    rewrite (bind_step _ _ _ _ _ _
               (matdiv_tries_hit_cut (maxv + 1) n' g cur E Hg)).
    unfold ret. f_equal. by apply cut_solves.
  - assert (1 <= fuel)%nat as Hf'.
    { destruct fuel as [|fuel']; [|lia].
      rewrite cut_large in E by lia.
      assert (mat_eqb (matmul lst1 m) (matmul lst1 m) = true)
        by (by apply mat_eqb_eq).
      congruence. }
    destruct (IH (maxv + 1)) as [D HD]; try lia.
    exists (9 * n + D)%nat. intros g cur Hg.
    cbn [matdiv_loop]. cbv zeta. fold n.
    rewrite (bind_step _ _ _ _ _ _
               (matdiv_tries_miss (maxv + 1) n g cur E
                  ltac:(intros k Hk; apply Hg; lia))).
    rewrite HD.
    + f_equal. lia.
    + intros k Hk.
      replace (cur + 9 * n + k)%nat with (cur + (9 * n + k))%nat by lia.
      rewrite Hg by lia. by apply quotient_draws_period.
Qed.
End SeedSearch.

(** With enough rounds [matrix_fix] returns the token, on draws that
    spell its seed matrix. *)
Lemma matrix_fix_finds (m : matrix) (tok : pstr) (lst1 : matrix)
    (fuel : nat) :
  key_matrix m ->
  det3 m <> 0 ->
  supported_token tok ->
  seed_matrix tok = Ok lst1 ->
  (127 <= fuel)%nat ->
  exists D : nat,
    forall g cur,
      (forall k, (k < D)%nat -> g (cur + k)%nat = quotient_draws lst1 3 k) ->
      matrix_fix fuel m (repr_matrix (matmul lst1 m)) g cur
      = Done tok (cur + D)%nat.
Proof.
  intros Hm Hdet Htok Hseed Hfuel.
  destruct (seed_cases tok lst1 Htok Hseed)
    as (x & y & z & -> & Hx & Hy & Hz & Hc & Hfix).
  pose proof (seed_product_small m x y z Hm Hx Hy Hz Hc) as Hsmall.
  destruct (small_matrix_text _ Hsmall) as [Heval _].
  destruct (matdiv_loop_finds m x y z Hm Hdet ltac:(lia) ltac:(lia)
              ltac:(lia) fuel 0) as [D HD]; try lia.
  exists D. intros g cur Hg. unfold matrix_fix.
  rewrite (bind_step _ _ _ _ _ _ (lift_Ok_run _ _ _ _ Heval)).
  assert (matdiv fuel (matmul [[x; y; z]; [1; 2; 3]; [3; 2; 1]] m) m g cur
          = Done [[x; y; z]; [1; 2; 3]; [3; 2; 1]] (cur + D)%nat) as Hdiv.
  { destruct (key_matrix_shape m Hm)
      as (a & b & c & d & e & f & g0 & h & i & Hmeq & _).
    subst m. unfold matdiv. cbn [length]. by apply HD. }
  rewrite (bind_step _ _ _ _ _ _ Hdiv).
  cbn [index lookup list_lookup].
  change (lift (Ok [x; y; z])) with (@ret (list Z) [x; y; z]).
  rewrite (bind_step _ _ _ _ [x; y; z] (cur + D)%nat) by done.
  apply Hfix.
Qed.

(** There are draws on which the matrix pass returns the BODY with
    every token put back, whatever is to follow in the stream. *)
Lemma sub_matrix_finds (m : matrix) (fuel : nat) (bd bd0 : list pstr) :
  key_matrix m ->
  det3 m <> 0 ->
  (127 <= fuel)%nat ->
  Forall2 (fun part part0 =>
             (part = part0 /\ no_separator part) \/
             (supported_token part0 /\ matrix_part m part0 part))
          bd bd0 ->
  forall final : nat -> nat,
  exists (G : nat -> nat) (d : nat),
    (forall n, G (d + n)%nat = final n) /\
    forall g cur,
      (forall n, (n < d)%nat -> g (cur + n)%nat = G n) ->
      sub_matrix fuel m 0 (join bd) g cur = Done (join bd0) (cur + d)%nat.
Proof.
  intros Hm Hdet Hfuel HR final. unfold join.
  induction HR as [|part part0 bd bd0 Hp _ (G & d & Hfin & IH)].
  - exists final, 0%nat. split; [done|]. intros g cur _.
    cbn [concat sub_matrix]. unfold ret. f_equal. lia.
  - cbn [concat]. destruct Hp as [[-> Hsep]|(Htok & lst1 & Hseed & ->)].
    + exists G, d. split; [done|]. intros g cur Hg.
      rewrite sub_matrix_copy
        by (eapply Forall_impl; [exact Hsep|]; by intros x [? _]).
      by rewrite (bind_step _ _ _ _ _ _ (IH g cur Hg)).
    + destruct (matrix_fix_finds m part0 lst1 fuel Hm Hdet Htok Hseed Hfuel)
        as [D HD].
      destruct (matrix_fix_token m part0 lst1 fuel (fun _ => 0%nat) 0%nat
                  [] 0%nat Hm Hdet Htok Hseed) as [Hsmall _].
      destruct (small_matrix_text _ Hsmall) as [_ Hsep].
      exists (fun n => if (n <? D)%nat then quotient_draws lst1 3 n
                       else G (n - D)%nat), (D + d)%nat.
      split.
      { intros n.
        assert ((D + d + n <? D)%nat = false) as -> by (apply Nat.ltb_ge; lia).
        rewrite <- Hfin. f_equal. lia. }
      intros g cur Hg. rewrite <- !app_assoc.
      rewrite sub_matrix_literal; [|by destruct (matmul lst1 m)|done].
      rewrite (bind_step _ _ _ _ part0 (cur + D)%nat).
      * rewrite (bind_step _ _ _ _ (concat bd0) (cur + D + d)%nat).
        -- unfold ret. f_equal. lia.
        -- apply IH. intros n Hn.
           replace (cur + D + n)%nat with (cur + (D + n))%nat by lia.
           rewrite Hg by lia.
           assert ((D + n <? D)%nat = false) as -> by (apply Nat.ltb_ge; lia).
           f_equal. lia.
      * apply HD. intros k Hk. rewrite Hg by lia.
        by apply Nat.ltb_lt in Hk as ->.
Qed.

(** X22.  The round trip under an invertible matrix key.  For a text of
    printable ASCII characters and newlines, when the matrix key that
    [s_compress] wrote in HEAD has a determinant other than zero and
    fewer than 997 chunks were cut, every run of [s_decompress] on the
    artifact that returns, returns the plaintext: [matdiv] can only
    return the matrix that was multiplied, so [matrix_fix] puts every
    substituted token back, and the rest goes as without matrix
    substitution.  And there are draws on which [s_decompress] returns
    it, with 127 rounds for each search. *)
Theorem round_trip_with_invertible_key (s : pstr) (g : nat -> nat)
    (cur cur' : nat) (hd bd ft : list pstr) (m : matrix) :
  Forall supported s ->
  s_compress_parts s g cur = Done (hd, bd, ft) cur' ->
  key_matrix m ->
  hd !! 2%nat = Some (repr_matrix m ++ py "/") ->
  det3 m <> 0 ->
  (length ft < 997)%nat ->
  (forall fuel g' c p c',
     s_decompress fuel (join hd ++ [10] ++ join bd ++ [10] ++ join ft) g' c
     = Done p c' ->
     p = s) /\
  (exists g' c',
     s_decompress 127 (join hd ++ [10] ++ join bd ++ [10] ++ join ft) g' 0%nat
     = Done s c').
Proof.
  intros Hs Hrun Hm Hhd Hdet Hft.
  apply s_compress_parts_run in Hrun
    as (key & enc & m' & st & c1 & c2 & bound & Hkey & Henc & Hm' & Hscan
        & Hinv & -> & -> & Hbd).
  destruct Hinv as [(ps & Hps & _) Hh Hf Hc Hcap _ _].
  assert (m' = m) as ->.
  { rewrite Hh in Hhd.
    change (Some (repr_matrix m' ++ py "/") = Some (repr_matrix m ++ py "/"))
      in Hhd.
    assert (repr_matrix m' ++ py "/" = repr_matrix m ++ py "/") as Heq
      by congruence.
    apply app_inv_tail in Heq.
    destruct (key_matrix_text m Hm) as [E _].
    destruct (key_matrix_text m' Hm') as [E' _].
    rewrite Heq in E'. congruence. }
  destruct (keys_shape key Hkey) as [Hne Hkeyc].
  destruct (s_encrypt_from_supported s 0 key Hne Hkeyc Hs)
    as (enc' & Henc' & Hsup).
  pose proof Henc as Henc0. unfold s_encrypt in Henc0.
  rewrite Henc0 in Henc'. inversion Henc'; subst enc'. clear Henc' Henc0.
  assert (Forall supported_token (map escape enc)) as Htok.
  { apply Forall_forall. intros t Ht.
    apply list_elem_of_In, in_map_iff in Ht as (x & <- & Hx).
    exists x. split; [|done]. rewrite Forall_forall in Hsup.
    apply Hsup. by apply list_elem_of_In. }
  assert (Forall is_token (map escape enc)) as Htok'.
  { eapply Forall_impl; [exact Htok|]. apply supported_token_is_token. }
  pose proof (extracted_tokens _ _ _ Htok' Hps) as HL.
  pose proof (Forall2_length _ _ _ Hf) as Hlen.
  destruct (compress_scan_stands m (map escape enc) (map escape enc) Htok
              0%nat 0%nat _ g c1 st c2 eq_refl ltac:(lia) Hscan)
    as (segs & Hst & Hcat).
  { lia. }
  { done. }
  { exists []. by split. }
  destruct (body_split m (l_chunks st) (body st) segs ltac:(lia) Hst bd Hbd)
    as (parts0 & bd0 & Hcov & Hren & HR).
  destruct (body_decoded (l_chunks st) parts0 segs ltac:(lia) Hcov bd0 Hren)
    as [_ Hsub].
  rewrite Hcat in Hsub.
  assert (Forall (fun x => x <> 10) (join (foot st))) as Hfoot.
  { unfold join. clear -Hf.
    induction Hf as [|ch h L ft Hh _ IH]; [constructor|].
    cbn [concat]. apply Forall_app. split; [|done].
    by eapply s_securehash_no_newline. }
  apply keys_no_separator in Hkey.
  rewrite Hh. split.
  - intros fuel g' c p c' H.
    destruct (sub_matrix_parts m fuel bd bd0 Hm Hdet HR) as [Hnl Hpass].
    rewrite (s_decompress_artifact key m (l_chunks st) _ _ fuel g' c
               Hkey Hm HL Hnl Hfoot) in H.
    apply bind_Done in H as (res & k1 & Hsort & H).
    apply r_sort_ranking in Hsort; [|done]. subst res.
    apply bind_Done in H as (body1 & k2 & Hb1 & H).
    apply Hpass in Hb1. subst body1.
    rewrite Hsub in H.
    rewrite (bind_step _ _ _ _ (join (map escape enc)) k2) in H by done.
    rewrite sub_at_special_escaped in H.
    rewrite (bind_step _ _ _ _ enc k2) in H by done.
    apply s_decrypt_loop_accepts in H. by eapply s_encrypt_from_inj.
  - destruct (sub_matrix_parts m 127 bd bd0 Hm Hdet HR) as [Hnl _].
    destruct (sub_matrix_finds m 127 bd bd0 Hm Hdet ltac:(lia) HR
                (inverting_draws s key)) as (G & d & Hfin & Hfind).
    set (k1 := (length (map join (l_chunks st)) - 1)%nat).
    set (g' := fun n => if (n <? k1)%nat
                        then sorting_draws str_ltb (map join (l_chunks st)) n
                        else G (n - k1)%nat).
    exists g', (k1 + d + length s)%nat.
    rewrite (s_decompress_artifact key m (l_chunks st) _ _ 127 g' 0%nat
               Hkey Hm HL Hnl Hfoot).
    destruct (r_sort_first_shuffle (map join (l_chunks st)) 126 g')
      as [res Hres].
    { intros t Ht. unfold g'. fold k1 in Ht.
      by apply Nat.ltb_lt in Ht as ->. }
    rewrite (bind_step _ _ _ _ _ _ Hres).
    apply r_sort_ranking in Hres; [|done]. subst res. fold k1.
    rewrite (bind_step _ _ _ _ (join bd0) (k1 + d)%nat).
    + rewrite Hsub.
      rewrite (bind_step _ _ _ _ (join (map escape enc)) (k1 + d)%nat)
        by done.
      rewrite sub_at_special_escaped.
      rewrite (bind_step _ _ _ _ enc (k1 + d)%nat) by done.
      apply (s_decrypt_first_attempt s key enc 126 g' (k1 + d)%nat);
        [|done|].
      * eapply Forall_impl; [exact Hs|].
        intros x [Hx| ->]; unfold printable, code_point in *; lia.
      * intros t. unfold g'.
        assert ((k1 + d + t <? k1)%nat = false) as ->
          by (apply Nat.ltb_ge; lia).
        rewrite <- Hfin. f_equal. lia.
    + apply Hfind. intros n Hn. unfold g'.
      assert ((k1 + n <? k1)%nat = false) as -> by (apply Nat.ltb_ge; lia).
      f_equal. lia.
Qed.

(** Witness of X22: a run under the matrix key
    [[1, 1, 2], [1, 2, 1], [2, 1, 1]] that substitutes a matrix for the
    first token of "hi". *)
Lemma round_trip_with_invertible_key_witness :
  exists hd bd ft cur',
    s_compress_parts (py "hi") invertible_key_draws 0%nat
    = Done (hd, bd, ft) cur' /\
    bd !! 0%nat = Some (py "/[[66, 66, 132], [9, 8, 7], [7, 8, 9]]/") /\
    exists g' c',
      s_decompress 127 (join hd ++ [10] ++ join bd ++ [10] ++ join ft) g'
        0%nat
      = Done (py "hi") c'.
Proof.
  eexists _, _, _, _. split; [vm_compute; reflexivity|].
  split; [vm_compute; reflexivity|].
  refine (proj2 (round_trip_with_invertible_key (py "hi")
                   invertible_key_draws 0%nat 14%nat _ _ _
                   [[1; 1; 2]; [1; 2; 1]; [2; 1; 1]] _ _ _ _ _ _)).
  - repeat constructor; vm_compute; discriminate.
  - vm_compute. reflexivity.
  - split; [reflexivity|]. repeat constructor; lia.
  - vm_compute. reflexivity.
  - vm_compute. discriminate.
  - simpl. lia.
Defined.

(* ===================================================================== *)
(** * Part IV: the search of the cipher, the dictionary and the passes    *)
(* ===================================================================== *)

(** ** StreamCipher: the candidates of [s_decrypt] *)

Lemma pick_lookup (k c : pchar) (r : nat) :
  possibilities k c !! (r mod length (possibilities k c))%nat
  = Some (pick k c r).
Proof.
  unfold pick.
  assert (length (possibilities k c) <> 0)%nat as Hne.
  { unfold possibilities. rewrite !length_app. simpl. lia. }
  pose proof (Nat.mod_upper_bound r _ Hne) as Hlt.
  apply lookup_lt_is_Some_2 in Hlt as [x Hx].
  rewrite Hx. f_equal. symmetry. by apply nth_lookup_Some with (d := c).
Qed.

(** One pass of the loop never fails under a non-empty key: it takes one
    draw for each payload byte and places the pick of that draw. *)
Lemma decrypt_attempt_picks enc : forall j key g cur,
  key <> [] ->
  exists p,
    decrypt_attempt (2 * j) enc key g cur
    = Done p (cur + length (odd_indexed enc))%nat /\
    length p = length (odd_indexed enc) /\
    forall t c,
      odd_indexed enc !! t = Some c ->
      exists k, key !! ((j + t) mod length key)%nat = Some k /\
                p !! t = Some (pick k c (g (cur + t)%nat)).
Proof.
  induction enc as [| x0 | x0 y enc IH] using list_pair_ind;
    intros j key g cur Hkey.
  - exists []. simpl. unfold ret. rewrite Nat.add_0_r. done.
  - exists []. rewrite decrypt_attempt_single. simpl. unfold ret.
    rewrite Nat.add_0_r. done.
  - assert (length key <> 0)%nat as Hlen by (by destruct key).
    pose proof (Nat.mod_upper_bound j _ Hlen) as Hlt.
    apply lookup_lt_is_Some_2 in Hlt as [k Hk].
    destruct (IH (S j) key g (S cur) Hkey) as (ps & Hps & Hl & Hc).
    exists (pick k y (g cur) :: ps).
    rewrite decrypt_attempt_pair. split_and!.
    + rewrite (bind_step _ _ g cur (j mod length key)%nat cur).
      2:{ apply lift_Ok_run. by apply py_mod_Ok. }
      rewrite (bind_step _ _ g cur k cur).
      2:{ apply lift_Ok_run. by apply index_Ok. }
      rewrite (bind_step _ _ g cur (pick k y (g cur)) (S cur)).
      2:{ apply choice_run. apply pick_lookup. }
      rewrite (bind_step _ _ g (S cur) ps
                 (S cur + length (odd_indexed enc))%nat Hps).
      unfold ret. f_equal. simpl. lia.
    + simpl. by rewrite Hl.
    + intros [|t] c; simpl; intros Ht.
      * inversion Ht; subst. exists k. by rewrite !Nat.add_0_r.
      * destruct (Hc t c Ht) as (k' & Hk' & Hp).
        exists k'. replace (j + S t)%nat with (S j + t)%nat by lia.
        by replace (cur + S t)%nat with (S cur + t)%nat by lia.
Qed.

Lemma possibilities_length (k c : pchar) :
  (length (possibilities k c) <> 0)%nat.
Proof. unfold possibilities. rewrite !length_app. simpl. lia. Qed.

(** Over one period of raw draws the picks run through the list of
    possibilities, position by position. *)
Lemma pick_period (k c : pchar) :
  map (pick k c) (seq 0 (length (possibilities k c))) = possibilities k c /\
  forall r, pick k c (r + length (possibilities k c)) = pick k c r.
Proof.
  split.
  - apply list_eq. intros i. rewrite list_lookup_fmap.
    destruct (decide (i < length (possibilities k c))%nat) as [Hlt|Hge].
    + rewrite lookup_seq_lt by done. simpl.
      rewrite <- (pick_lookup k c i). by rewrite Nat.mod_small.
    + rewrite lookup_seq_ge by lia. simpl.
      symmetry. apply lookup_ge_None. lia.
  - intros r. unfold pick.
    replace (r + length (possibilities k c))%nat
      with (r + 1 * length (possibilities k c))%nat by lia.
    by rewrite Nat.Div0.mod_add.
Qed.

(** Counterexample to C4 as stated.  The payload bytes are the ones at
    the odd indices ([payload_at_even_indices_fails]); and the members of
    the candidate set are not equally likely: under the key character
    'l' the payload byte '6' has the possibilities ['6', chr(162), '6'],
    so that '6' is drawn twice as often as chr(162). *)
Lemma decrypt_search_as_specified_fails :
  ~ payload_at_even_indices /\ ~ members_chosen_uniformly.
Proof.
  split; [exact payload_at_even_indices_fails|].
  intros H.
  specialize (H (ch "l") (ch "6") (ch "6") 162).
  assert (weight (ch "l") (ch "6") (ch "6") = 2%nat) as H2 by reflexivity.
  assert (weight (ch "l") (ch "6") 162 = 1%nat) as H1 by reflexivity.
  rewrite H2, H1 in H.
  assert (2 = 1)%nat as Habs; [|discriminate Habs].
  apply H.
  - unfold code_point. vm_compute. split; [discriminate|reflexivity].
  - unfold code_point. vm_compute. split; [discriminate|reflexivity].
  - vm_compute. auto.
  - vm_compute. auto.
Qed.

(** C4, amended.  In [s_decrypt] the even-indexed bytes (counting from 0)
    are the tags and play no part in building a candidate; the odd-indexed
    bytes are the payload.  Under a non-empty key one pass of the loop
    always yields a candidate and takes one draw for each payload byte:
    for the payload byte [c] at stream index [i] the character at
    position [i/2] of the candidate is the element that
    [random.choice] picks, by that draw, from the list of the
    representable ones among [chr(k - c)], [chr(k + c)], [c] with
    [k = key[(i/2) % len(key)]].  The choice is uniform over the positions
    of that list: over one period of draws the picks run through the
    list.  A candidate is returned as soon as it encrypts to the
    ciphertext; otherwise the next candidate is built from scratch. *)
Theorem s_decrypt_searches_odd_payload :
  (forall (enc enc' key : pstr) g cur,
     odd_indexed enc = odd_indexed enc' ->
     decrypt_attempt 0 enc key g cur = decrypt_attempt 0 enc' key g cur) /\
  (forall (enc key : pstr) g cur,
     key <> [] ->
     exists p : pstr,
       decrypt_attempt 0 enc key g cur = Done p (cur + length enc / 2)%nat /\
       length p = (length enc / 2)%nat /\
       forall (i : nat) (c : pchar),
         (i mod 2 = 1)%nat ->
         enc !! i = Some c ->
         exists k, key !! ((i / 2) mod length key)%nat = Some k /\
                   p !! (i / 2)%nat
                   = Some (pick k c (g (cur + i / 2)%nat))) /\
  (forall k c x : pchar,
     In x (possibilities k c) <->
     (x = k - c /\ code_point (k - c)) \/
     (x = k + c /\ code_point (k + c)) \/
     x = c) /\
  (forall k c : pchar,
     map (pick k c) (seq 0 (length (possibilities k c))) = possibilities k c /\
     forall r, pick k c (r + length (possibilities k c)) = pick k c r) /\
  (forall fuel (enc key : pstr) g cur (p : pstr) cur',
     s_decrypt fuel enc key g cur = Done p cur' ->
     s_encrypt p key = Ok enc) /\
  (forall fuel (enc key p0 : pstr) g cur,
     s_encrypt p0 key = Ok enc ->
     s_decrypt_loop fuel enc key p0 g cur = Done p0 cur) /\
  (forall fuel (enc key p0 again : pstr),
     s_encrypt p0 key = Ok again ->
     again <> enc ->
     s_decrypt_loop (S fuel) enc key p0 =
     (let* cand := decrypt_attempt 0 enc key in
      s_decrypt_loop fuel enc key cand)).
Proof.
  split_and!.
  - intros enc enc' key g cur Hodd.
    by apply (decrypt_attempt_ignores_tags enc enc' 0).
  - intros enc key g cur Hkey.
    destruct (decrypt_attempt_picks enc 0 key g cur Hkey)
      as (p & Hrun & Hlen & Hpick).
    rewrite odd_indexed_length in Hrun, Hlen.
    exists p. split_and!; [done..|].
    intros i c Hi Hc.
    assert (i = 2 * (i / 2) + 1)%nat as Hi2.
    { pose proof (Nat.div_mod_eq i 2). lia. }
    apply (Hpick (i / 2)%nat c).
    rewrite odd_indexed_lookup. by rewrite <- Hi2.
  - apply possibilities_In.
  - apply pick_period.
  - intros fuel enc key g cur p cur' H.
    by apply s_decrypt_loop_accepts in H.
  - intros fuel enc key p0 g cur Hp0.
    by rewrite (s_decrypt_loop_accept fuel enc key p0 Hp0).
  - intros fuel enc key p0 again Hp0 Hne.
    rewrite s_decrypt_loop_S, Hp0.
    destruct (str_eqb enc again) eqn:Heq; [|done].
    apply str_eqb_eq in Heq. congruence.
Qed.

(** Witness of the amended C4 on the stream "Ca" with key "!": the
    possibilities of the payload byte 'a' are [chr(130), 'a'], and the
    one draw, 0, picks position 0. *)
Lemma s_decrypt_searches_odd_payload_witness :
  exists p : pstr,
    decrypt_attempt 0 (py "Ca") (py "!") (fun _ => 0%nat) 0%nat
    = Done p 1%nat /\
    p = [130].
Proof.
  destruct s_decrypt_searches_odd_payload as (_ & H & _).
  destruct (H (py "Ca") (py "!") (fun _ => 0%nat) 0%nat ltac:(discriminate))
    as (p & Hrun & _ & _).
  exists p. split; [exact Hrun|].
  vm_compute in Hrun. by inversion Hrun.
Defined.

(** ** Pipeline: what the parts of BODY stand for *)

Lemma scan_part_mono (m : matrix) (L L' : list (list pstr)) (part : pstr)
    (seg : list pstr) :
  scan_part m L part seg -> scan_part m (L ++ L') part seg.
Proof.
  intros [H|[H|(n & Hn & Hp)]]; [by left|by right; left|].
  right; right. exists n. split; [|done].
  by apply lookup_app_l_Some.
Qed.

(** The parts of BODY stand, one after the other, for the tokens that
    the scan has passed: for all of them below the cap of 997 chunks. *)
Lemma compress_scan_parts m (tokens rest : list pstr) :
  Forall is_token tokens ->
  forall (i skip : nat) (st : cstate) g cur (st' : cstate) cur',
    rest = drop i tokens ->
    (skip <= length rest)%nat ->
    compress_scan m rest skip st g cur = Done st' cur' ->
    chunks st = Z.of_nat (length (l_chunks st)) ->
    (exists segs, Forall2 (scan_part m (l_chunks st)) (body st) segs /\
                  concat segs = take (i + skip) tokens) ->
    exists segs', Forall2 (scan_part m (l_chunks st')) (body st') segs' /\
                  (exists k, concat segs' = take k tokens) /\
                  (chunks st' < 997 -> concat segs' = tokens).
Proof.
  intros Htok.
  induction rest as [|tok rest' IH];
    intros i skip st g cur st' cur' Hrest Hskip H Hn (segs & Hcov & Hcat).
  - simpl in H. apply ret_Done in H as [<- _].
    exists segs. split_and!; [done|by eauto|].
    intros _. rewrite Hcat. apply take_ge.
    symmetry in Hrest. apply drop_nil_inv in Hrest. lia.
  - assert (tokens !! i = Some tok) as Hi.
    { rewrite <- (Nat.add_0_r i), <- lookup_drop, <- Hrest. done. }
    assert (rest' = drop (S i) tokens) as Hrest'.
    { rewrite (drop_S _ _ _ Hi) in Hrest. by inversion Hrest. }
    assert (is_token tok) as Hst by (eapply Forall_lookup_1; eauto).
    cbn [compress_scan] in H. destruct skip as [|skip'].
    + destruct (997 <=? chunks st) eqn:Hstop.
      { apply ret_Done in H as [<- _]. apply Z.leb_le in Hstop.
        exists segs. split_and!; [done|by eauto|lia]. }
      apply bind_Done in H as (chunk_time & c1 & Hct & H).
      destruct chunk_time.
      * assert (5 < length (tok :: rest'))%nat as H5.
        { destruct (5 <? length (tok :: rest'))%nat eqn:E.
          - by apply Nat.ltb_lt in E.
          - apply ret_Done in Hct as [Hct _]. discriminate Hct. }
        apply bind_Done in H as (h & c2 & _ & H). simpl in H5.
        eapply (IH (S i) 4%nat) in H; [exact H|done|lia| |].
        -- cbn [chunks l_chunks]. rewrite length_app. simpl. lia.
        -- cbn [body l_chunks].
           exists (segs ++ [take 5 (tok :: rest')]). split.
           ++ apply Forall2_app.
              ** eapply Forall2_impl; [exact Hcov|].
                 intros part seg. apply scan_part_mono.
              ** constructor; [|constructor]. right; right.
                 exists (length (l_chunks st)). split.
                 --- by rewrite lookup_app_r, Nat.sub_diag by lia.
                 --- by rewrite Hn.
           ++ rewrite concat_app, Hcat. cbn [concat]. rewrite app_nil_r.
              rewrite Hrest, Nat.add_0_r, take_take_drop.
              f_equal. lia.
      * apply bind_Done in H as (matrix_time & c2 & _ & H).
        destruct matrix_time.
        -- apply bind_Done in H as (lst1 & c3 & Hseed & H).
           apply lift_Done in Hseed as [Hseed ->].
           eapply (IH (S i) 0%nat) in H; [exact H|done|lia|done|].
           cbn [body l_chunks].
           exists (segs ++ [[tok]]). split.
           ++ apply Forall2_app; [done|].
              constructor; [|constructor]. right; left.
              exists tok. split; [done|]. by exists lst1.
           ++ rewrite concat_app, Hcat. simpl.
              rewrite !Nat.add_0_r. by rewrite (take_S_r _ _ _ Hi).
        -- eapply (IH (S i) 0%nat) in H; [exact H|done|lia|done|].
           cbn [body l_chunks].
           exists (segs ++ [[tok]]). split.
           ++ apply Forall2_app; [done|].
              constructor; [|constructor]. by left.
           ++ rewrite concat_app, Hcat. simpl.
              rewrite !Nat.add_0_r. by rewrite (take_S_r _ _ _ Hi).
    + eapply (IH (S i) skip') in H; [exact H|done|simpl in Hskip; lia|done|].
      exists segs. split; [done|]. rewrite Hcat. f_equal. lia.
Qed.

(** A sorted permutation of the joined chunk texts is the ranking of
    [s_compress]. *)
Lemma sorted_dictionary_ranking (L : list (list pstr)) (res : list pstr) :
  Forall (Forall is_token) L ->
  sorted_dictionary (map join L) res ->
  res = map (fun x => join (snd x)) (sorted_by_key (enumerate L)).
Proof.
  intros Htok [Hp Hs].
  apply (StronglySorted_unique_strong
           (fun x y : pstr => str_ltb y x = false)).
  - intros x y _ _ Hxy Hyx. by apply str_ltb_antisym.
  - by apply lookup_sorted_StronglySorted.
  - apply Sorted_StronglySorted.
    { intros a b c. apply str_le_trans. }
    apply (Sorted_fmap
             (fun x : nat * list pstr => join (snd x))
             (fun x y : nat * list pstr =>
                str_ltb (join (snd y)) (join (snd x)) = false)
             (fun x y : pstr => str_ltb y x = false)); [done|].
    apply sorted_by_key_Sorted.
    apply Forall_forall. intros x Hx.
    assert (snd x ∈ map snd (enumerate L)) as Hin
      by (by apply list_elem_of_fmap_2).
    rewrite enumerate_snd in Hin.
    rewrite Forall_forall in Htok. by apply Htok.
  - rewrite Hp.
    rewrite <- (enumerate_snd L) at 1. rewrite map_map.
    apply Permutation_map. symmetry. apply sorted_by_key_Permutation.
Qed.

Lemma Forall2_through {A B C} (P : A -> C -> Prop) (Q : A -> B -> Prop)
    (R : B -> C -> Prop) (xs : list A) :
  (forall x y s, P x s -> Q x y -> R y s) ->
  forall (ys : list B) (ss : list C),
    Forall2 P xs ss -> Forall2 Q xs ys -> Forall2 R ys ss.
Proof.
  intros H. induction xs as [|x xs IH]; intros ys ss HP HQ.
  - inversion HP; inversion HQ; subst. constructor.
  - inversion HP; inversion HQ; subst. constructor; eauto.
Qed.

(** The renumbering keeps tokens and matrix literals and prints, for a
    reference, the rank of its chunk in the sorted dictionary. *)
Lemma part_ranked (m : matrix) (L : list (list pstr)) (part part' : pstr)
    (seg : list pstr) :
  Forall (Forall is_token) L ->
  (length L <= 997)%nat ->
  scan_part m L part seg ->
  renumber (sorted_by_key (enumerate L)) part = Ok part' ->
  ranked_part m L part' seg /\ consistent_part m L part' seg.
Proof.
  intros Htok Hcap [[Ht ->]|[(tok & -> & Hm)|(n & Hn & ->)]] Hren.
  - rewrite (renumber_token_kept L part Hcap Ht) in Hren.
    inversion Hren; subst. split; by left.
  - assert (part' = part) as ->.
    { eapply renumber_slash; [|exact Hren].
      by destruct Hm as (lst1 & _ & ->). }
    split; right; left; by exists tok.
  - destruct (renumber_ref L n seg Hcap Hn) as (cv & Hcv & Hr).
    rewrite Hr in Hren. inversion Hren; subst part'.
    assert (cv < length L)%nat as Hlt.
    { apply lookup_lt_Some in Hcv.
      by rewrite sorted_by_key_length, enumerate_length in Hcv. }
    assert (In seg L) as Hin.
    { apply list_elem_of_In. by eapply list_elem_of_lookup_2. }
    split; right; right.
    + exists cv. split_and!; [done..|].
      intros res Hres.
      rewrite (sorted_dictionary_ranking L res Htok Hres).
      by rewrite list_lookup_fmap, Hcv.
    + exists (Z.of_nat cv + 1).
      destruct (ranks_printable_spec (Z.of_nat cv + 1) ltac:(lia))
        as (? & ? & ? & ?).
      split_and!; try done; lia.
Qed.

(** The run of [s_compress], with what every part of the returned BODY
    stands for. *)
Lemma s_compress_body_parts plaintext g cur hd bd ft cur' :
  s_compress_parts plaintext g cur = Done (hd, bd, ft) cur' ->
  exists (key enc : pstr) (m : matrix) (ps : list nat)
         (L : list (list pstr)) (segs : list (list pstr)),
    In key KEYS /\
    s_encrypt plaintext key = Ok enc /\
    key_matrix m /\
    extracted_at (map escape enc) ps L /\
    hd = [py "001"; key ++ py "/"; repr_matrix m ++ py "/"]
         ++ map head_entry L /\
    Forall2 hashed L ft /\
    (length L <= 997)%nat /\
    Forall2 (fun part seg =>
               ranked_part m L part seg /\ consistent_part m L part seg)
            bd segs /\
    (exists k, concat segs = take k (map escape enc)) /\
    ((length L < 997)%nat -> concat segs = map escape enc).
Proof.
  intros H.
  apply s_compress_parts_run in H
    as (key & enc & m & st & c1 & c2 & bound & Hkey & Henc & Hm & Hscan
        & Hinv & -> & -> & Hbd).
  destruct Hinv as [(ps & Hps & _) Hh Hf Hc Hcap _ _].
  assert (Forall is_token (map escape enc)) as Htoks.
  { apply Forall_forall. intros t Ht.
    apply list_elem_of_In, in_map_iff in Ht as (c & <- & _). by exists c. }
  assert (Forall (Forall is_token) (l_chunks st)) as HL
    by (by eapply extracted_tokens).
  assert (length (l_chunks st) <= 997)%nat as Hlen by lia.
  eapply (compress_scan_parts m (map escape enc) (map escape enc) Htoks
            0%nat 0%nat) in Hscan as (segs & Hsegs & Hk & Hall);
    [|done|lia|done|by exists []].
  exists key, enc, m, ps, (l_chunks st), segs.
  split_and!; try done.
  - apply res_map_Ok in Hbd.
    eapply Forall2_through; [|exact Hsegs|exact Hbd].
    intros x y s Hx Hy. by eapply part_ranked.
  - intros Hlt. apply Hall. lia.
Qed.

(** C2, amended.  HEAD lists the dictionary chunk texts in extraction
    order: the chunks are runs of five tokens cut from the escaped token
    stream at increasing, non-overlapping positions, and HEAD holds them
    in the order of these positions.  FOOT holds the checksums in the
    same order: its i-th entry is [s_securehash] of the tripled text of
    the i-th chunk of HEAD.  Only the references of BODY follow the
    sorted order: the parts of BODY stand, one after the other, for the
    tokens of the stream (for all of them below the cap of 997 chunks),
    a token or a matrix literal for one token and a reference for a
    chunk, and the number of a reference is the rank of its chunk in the
    sorted dictionary, counted from 1. *)
Theorem s_compress_head_in_extraction_order (plaintext : pstr)
    (g : nat -> nat) (cur cur' : nat) (hd bd ft : list pstr) :
  s_compress_parts plaintext g cur = Done (hd, bd, ft) cur' ->
  exists (key enc : pstr) (m : matrix) (ps : list nat)
         (chunks_ : list (list pstr)) (segs : list (list pstr)),
    In key KEYS /\
    s_encrypt plaintext key = Ok enc /\
    extracted_at (map escape enc) ps chunks_ /\
    hd = [py "001"; key ++ py "/"; repr_matrix m ++ py "/"]
         ++ map head_entry chunks_ /\
    Forall2 hashed chunks_ ft /\
    Forall2 (ranked_part m chunks_) bd segs /\
    (exists k, concat segs = take k (map escape enc)) /\
    ((length chunks_ < 997)%nat -> concat segs = map escape enc).
Proof.
  intros H.
  apply s_compress_body_parts in H
    as (key & enc & m & ps & L & segs & Hkey & Henc & _ & Hps & Hhd & Hft
        & _ & Hbd & Hk & Hall).
  exists key, enc, m, ps, L, segs. split_and!; try done.
  eapply Forall2_impl; [exact Hbd|]. by intros part seg [? _].
Qed.

(** Witness of the amended C2: the run of the counterexample. *)
Lemma s_compress_head_in_extraction_order_witness :
  exists hd bd ft cur',
    s_compress_parts (py "aa0aaa") two_chunk_draws 0%nat
    = Done (hd, bd, ft) cur' /\
    exists (key enc : pstr) (m : matrix) (ps : list nat)
           (chunks_ : list (list pstr)) (segs : list (list pstr)),
      In key KEYS /\
      s_encrypt (py "aa0aaa") key = Ok enc /\
      extracted_at (map escape enc) ps chunks_ /\
      hd = [py "001"; key ++ py "/"; repr_matrix m ++ py "/"]
           ++ map head_entry chunks_ /\
      Forall2 hashed chunks_ ft /\
      Forall2 (ranked_part m chunks_) bd segs /\
      (exists k, concat segs = take k (map escape enc)) /\
      ((length chunks_ < 997)%nat -> concat segs = map escape enc).
Proof.
  eexists _, _, _, _. split; [vm_compute; reflexivity|].
  eapply (s_compress_head_in_extraction_order (py "aa0aaa") two_chunk_draws
            0%nat 14%nat).
  vm_compute. reflexivity.
Defined.

(** C7.  In any artifact that [s_compress] produces, HEAD is the
    version, the key, the matrix key and at most 997 dictionary entries,
    and FOOT has as many entries as the dictionary.  The parts of BODY
    stand, one after the other, for the tokens of the escaped stream:
    a part that stands for a chunk of the dictionary is a reference, an
    '@' and the three digits of a rank between 1 and the number of
    dictionary entries, and these digits are none of the reserved codes
    000, 998, 999; every other part is a token (among them the reserved
    escapes) or a matrix literal.  So a part of BODY that starts with
    '@' is a reserved escape or such a reference. *)
Theorem s_compress_dictionary_consistent (plaintext : pstr)
    (g : nat -> nat) (cur cur' : nat) (hd bd ft : list pstr) :
  s_compress_parts plaintext g cur = Done (hd, bd, ft) cur' ->
  exists (key enc : pstr) (m : matrix) (entries : list (list pstr))
         (segs : list (list pstr)),
    s_encrypt plaintext key = Ok enc /\
    hd = [py "001"; key ++ py "/"; repr_matrix m ++ py "/"]
         ++ map head_entry entries /\
    (length entries <= 997)%nat /\
    length ft = length entries /\
    Forall2 (consistent_part m entries) bd segs /\
    (exists k, concat segs = take k (map escape enc)) /\
    ((length entries < 997)%nat -> concat segs = map escape enc) /\
    (forall num, In (ch "@" :: num) bd ->
       reserved num = true \/
       exists rank,
         1 <= rank <= Z.of_nat (length entries) /\
         num = pad3 rank /\ py_int num = Ok rank /\
         reserved num = false).
Proof.
  intros H.
  apply s_compress_body_parts in H
    as (key & enc & m & ps & L & segs & _ & Henc & _ & _ & Hhd & Hft
        & Hcap & Hbd & Hk & Hall).
  exists key, enc, m, L, segs. split_and!; try done.
  - symmetry. by eapply Forall2_length.
  - eapply Forall2_impl; [exact Hbd|]. by intros part seg [_ ?].
  - intros num Hin.
    apply list_elem_of_In, list_elem_of_lookup in Hin as [i Hi].
    destruct (Forall2_lookup_l _ _ _ _ _ Hbd Hi) as (seg & _ & _ & Hc).
    destruct Hc as [[Ht _]|[(tok & _ & lst1 & _ & Hp)|(rank & Hp & Hr & _
      & Hres & _ & _ & Hint)]].
    + left. destruct (token_cases _ Ht) as [(c & Hc & Hne)|[Hc|[Hc|Hc]]].
      * inversion Hc; subst. done.
      * by inversion Hc.
      * by inversion Hc.
      * by inversion Hc.
    + discriminate Hp.
    + inversion Hp; subst num. right. by exists rank.
Qed.

(** Witness of C7: a run that cuts two chunks out of twelve tokens. *)
Lemma s_compress_dictionary_consistent_witness :
  exists hd bd ft cur',
    s_compress_parts (py "aa0aaa") two_chunk_draws 0%nat
    = Done (hd, bd, ft) cur' /\
    exists (key enc : pstr) (m : matrix) (entries : list (list pstr))
           (segs : list (list pstr)),
      s_encrypt (py "aa0aaa") key = Ok enc /\
      hd = [py "001"; key ++ py "/"; repr_matrix m ++ py "/"]
           ++ map head_entry entries /\
      (length entries <= 997)%nat /\
      length ft = length entries /\
      Forall2 (consistent_part m entries) bd segs /\
      (exists k, concat segs = take k (map escape enc)) /\
      ((length entries < 997)%nat -> concat segs = map escape enc) /\
      (forall num, In (ch "@" :: num) bd ->
         reserved num = true \/
         exists rank,
           1 <= rank <= Z.of_nat (length entries) /\
           num = pad3 rank /\ py_int num = Ok rank /\
           reserved num = false).
Proof.
  eexists _, _, _, _. split; [vm_compute; reflexivity|].
  apply (s_compress_dictionary_consistent (py "aa0aaa") two_chunk_draws
           0%nat 14%nat).
  vm_compute. reflexivity.
Defined.

(** ** Pipeline: the fields of an artifact *)

Lemma split_entries (entries : list pstr) :
  Forall no_separator entries ->
  split (ch "/") (join (map (fun e => e ++ py "/") entries))
  = entries ++ [[]].
Proof.
  induction entries as [|e entries IH]; intros H; [done|].
  inversion H as [|? ? He Hes]; subst.
  cbn [map join concat app]. unfold join in IH.
  rewrite <- app_assoc. change (py "/") with [ch "/"]. cbn [app].
  rewrite split_app_sep
    by (eapply Forall_impl; [exact He|]; by intros x [? _]).
  f_equal. exact (IH Hes).
Qed.

Lemma entries_no_newline (entries : list pstr) :
  Forall no_separator entries ->
  Forall (fun c => c <> 10) (join (map (fun e => e ++ py "/") entries)).
Proof.
  induction entries as [|e entries IH]; intros H; [constructor|].
  inversion H as [|? ? He Hes]; subst.
  cbn [map join concat]. apply Forall_app. split; [|by apply IH].
  apply Forall_app. split.
  - eapply Forall_impl; [exact He|]. by intros x [_ ?].
  - by constructor.
Qed.

(** [s_decompress] finds the fields of an artifact again and runs the
    three passes over its BODY. *)
Lemma s_decompress_fields (v key mkey_text : pstr) (entries : list pstr)
    (bd ft : pstr) (mkey : matrix) (fuel : nat) g cur :
  fields_ok v key mkey_text entries ft mkey ->
  Forall (fun c => c <> 10) bd ->
  s_decompress fuel (artifact v key mkey_text entries bd ft) g cur
  = (let* sorted_chunks := r_sort str_ltb fuel entries in
     let* body1 := sub_matrix fuel mkey 0 bd in
     let* body2 := lift (sub_at (replace sorted_chunks) body1) in
     let* body3 := lift (sub_at replace_special body2) in
     s_decrypt fuel body3 key) g cur.
Proof.
  intros [[Hv [n Hn]] Hkey [Hmt Heval] Hent Hft] Hbd.
  unfold artifact, s_decompress, no_separator in *.
  rewrite take_app_length', drop_app_length' by done.
  rewrite Hn. rewrite (bind_step _ _ _ _ n cur) by done.
  rewrite split_sections; [| |done|done].
  - change (py "/") with [ch "/"]. cbn [app].
    rewrite (split_app_sep (ch "/") key)
      by (eapply Forall_impl; [exact Hkey|]; by intros x [? _]).
    rewrite (split_app_sep (ch "/") mkey_text)
      by (eapply Forall_impl; [exact Hmt|]; by intros x [? _]).
    change [ch "/"] with (py "/").
    rewrite (split_entries entries Hent), removelast_last.
    by rewrite (bind_step _ _ _ _ _ _ (lift_Ok_run _ _ _ _ Heval)).
  - apply Forall_app. split.
    + eapply Forall_impl; [exact Hkey|]. by intros x [_ ?].
    + constructor; [done|]. apply Forall_app. split.
      * eapply Forall_impl; [exact Hmt|]. by intros x [_ ?].
      * constructor; [done|]. by apply entries_no_newline.
Qed.

(** ** Pipeline: the three passes, piece by piece *)

Lemma lazy_group_none (s : pstr) :
  Forall (fun x => x <> ch "/") s -> lazy_group s = None.
Proof.
  induction s as [|c s IH]; intros H; [done|].
  inversion H as [|? ? Hc Hs]; subst. cbn [lazy_group].
  destruct (Z.eqb_spec c (ch "/")); [done|].
  destruct (c =? 10); [done|]. by rewrite (IH Hs).
Qed.

Lemma forallb_not_slash (s : pstr) :
  forallb (fun x => negb (x =? ch "/")) s = true ->
  Forall (fun x => x <> ch "/") s.
Proof.
  intros H. apply Forall_forall. intros x Hx.
  rewrite forallb_forall in H. apply list_elem_of_In in Hx.
  specialize (H x Hx). apply negb_true_iff in H. by apply Z.eqb_neq.
Qed.

Lemma forallb_no_separator (s : pstr) :
  forallb (fun x => negb (x =? ch "/") && negb (x =? 10)) s = true ->
  no_separator s.
Proof.
  intros H. apply Forall_forall. intros x Hx.
  rewrite forallb_forall in H. apply list_elem_of_In in Hx.
  specialize (H x Hx). apply andb_true_iff in H as [H1 H2].
  apply negb_true_iff in H1, H2. split; by apply Z.eqb_neq.
Qed.

(** A slash, a group that starts with any character but the newline and
    goes on to the next slash: one match of ['/(.+?)/']. *)
Lemma sub_matrix_group (fuel : nat) (mkey : matrix) (c1 : pchar)
    (group rest : pstr) g cur :
  c1 <> 10 ->
  no_separator group ->
  sub_matrix fuel mkey 0 (py "/" ++ (c1 :: group) ++ py "/" ++ rest) g cur
  = (let* r := matrix_fix fuel mkey (c1 :: group) in
     let* t := sub_matrix fuel mkey 0 rest in
     ret (r ++ t)) g cur.
Proof.
  intros Hc1 Ht. change (py "/") with [ch "/"]. cbn [app sub_matrix].
  assert (match_matrix (ch "/" :: c1 :: group ++ ch "/" :: rest)
          = Some (c1 :: group)) as ->.
  { cbn [match_matrix]. rewrite Z.eqb_refl.
    destruct (Z.eqb_spec c1 10); [done|]. cbn [negb andb].
    by rewrite (lazy_group_text group rest Ht). }
  apply bind_ext_Done. intros r c1' _.
  assert (forall g0 c0,
            sub_matrix fuel mkey (length (c1 :: group) + 1)
              (c1 :: group ++ ch "/" :: rest) g0 c0
            = sub_matrix fuel mkey 0 rest g0 c0) as Hskip.
  { intros g0 c0.
    replace (c1 :: group ++ ch "/" :: rest)
      with (((c1 :: group) ++ [ch "/"]) ++ rest)
      by (by rewrite <- app_assoc).
    replace (length (c1 :: group) + 1)%nat
      with (length ((c1 :: group) ++ [ch "/"]))
      by (rewrite length_app; simpl; lia).
    apply sub_matrix_skip. }
  unfold bind. by rewrite Hskip.
Qed.

(** The first pass replaces the matrix literals of BODY, from left to
    right, by what [matrix_fix] returns, and copies the rest. *)
Lemma sub_matrix_view (fuel : nat) (mkey : matrix) (ps : list mpiece) :
  matrix_view ps = true ->
  Forall (fun c => c <> 10) (mtext ps) /\
  forall g cur,
    sub_matrix fuel mkey 0 (mtext ps) g cur = fix_all fuel mkey ps g cur.
Proof.
  induction ps as [|[c|group] ps IH]; intros Hv; cbn [matrix_view] in Hv.
  - split; [constructor|done].
  - apply andb_true_iff in Hv as [Hv Hps].
    apply andb_true_iff in Hv as [Hc Hslash].
    destruct (IH Hps) as [Hnl Hrun].
    apply negb_true_iff, Z.eqb_neq in Hc.
    split; [by constructor|].
    intros g cur. unfold mtext in *. cbn [map concat mpiece_text app].
    cbn [sub_matrix fix_all].
    assert (match_matrix (c :: concat (map mpiece_text ps)) = None) as ->.
    { unfold match_matrix.
      destruct (concat (map mpiece_text ps)) as [|c1 s'] eqn:Hs; [done|].
      destruct (Z.eqb_spec c (ch "/")) as [->|Hne]; [|done].
      cbn [negb orb tail] in Hslash.
      apply forallb_not_slash in Hslash.
      rewrite (lazy_group_none s' Hslash).
      by destruct (negb (c1 =? 10)). }
    unfold bind. by rewrite Hrun.
  - apply andb_true_iff in Hv as [Hg Hps].
    destruct group as [|c1 group]; [done|].
    apply andb_true_iff in Hg as [Hc1 Hg].
    apply negb_true_iff, Z.eqb_neq in Hc1.
    apply forallb_no_separator in Hg.
    destruct (IH Hps) as [Hnl Hrun].
    split.
    + unfold mtext in *. cbn [map concat mpiece_text].
      apply Forall_app. split; [|done].
      change (py "/") with [ch "/"].
      constructor; [done|]. constructor; [done|].
      apply Forall_app. split; [|by constructor].
      eapply Forall_impl; [exact Hg|]. by intros x [_ ?].
    + intros g cur. unfold mtext in *. cbn [map concat mpiece_text fix_all].
      rewrite <- !app_assoc.
      rewrite (sub_matrix_group fuel mkey c1 group _ g cur Hc1 Hg).
      apply bind_ext_Done. intros r c1' _.
      unfold bind. by rewrite Hrun.
Qed.

Lemma sub_at_copy (f : pstr -> res pstr) (c : pchar) (s : pstr) :
  (c =? ch "@") && starts_with_digits s = false ->
  sub_at f (c :: s) = (let? t := sub_at f s in Ok (c :: t))%res.
Proof.
  intros H. cbn [sub_at].
  destruct s as [|d1 [|d2 [|d3 s']]]; try done.
  cbn [starts_with_digits] in H.
  rewrite !andb_assoc in H. by rewrite H.
Qed.

(** A pass of [re.sub('@([0-9]{3})', f, text)] calls [f] on every code
    of the text and copies the other characters. *)
Lemma sub_at_view (f : pstr -> res pstr) (ps : list piece) :
  code_view ps = true ->
  sub_at f (ptext ps)
  = (let? parts := res_map (apply_code f) ps in Ok (join parts))%res.
Proof.
  induction ps as [|[c|d1 d2 d3] ps IH]; intros Hv; cbn [code_view] in Hv.
  - done.
  - apply andb_true_iff in Hv as [Hc Hps]. apply negb_true_iff in Hc.
    unfold ptext in *. cbn [map concat piece_text app res_map apply_code].
    rewrite (sub_at_copy f c _ Hc), (IH Hps). cbn [res_bind].
    by destruct (res_map (apply_code f) ps).
  - apply andb_true_iff in Hv as [Hd Hps].
    apply andb_true_iff in Hd as [Hd H3].
    apply andb_true_iff in Hd as [H1 H2].
    unfold ptext in *. cbn [map concat piece_text app res_map apply_code].
    rewrite (sub_at_match f d1 d2 d3 _ H1 H2 H3), (IH Hps).
    destruct (f [d1; d2; d3]); [|done]. cbn [res_bind].
    by destruct (res_map (apply_code f) ps).
Qed.

Lemma res_map_ext {A B} (f f' : A -> res B) (l : list A) :
  Forall (fun x => f x = f' x) l -> res_map f l = res_map f' l.
Proof.
  induction 1 as [|x l Hx Hl IH]; [done|]. simpl. by rewrite Hx, IH.
Qed.

Lemma code_view_digits (ps : list piece) :
  code_view ps = true ->
  Forall (fun p => match p with
                   | PChar _ => True
                   | PCode d1 d2 d3 =>
                       is_digit d1 = true /\ is_digit d2 = true /\
                       is_digit d3 = true
                   end) ps.
Proof.
  induction ps as [|[c|d1 d2 d3] ps IH]; intros Hv; cbn [code_view] in Hv.
  - constructor.
  - apply andb_true_iff in Hv as [_ Hps]. constructor; auto.
  - apply andb_true_iff in Hv as [Hd Hps].
    apply andb_true_iff in Hd as [Hd H3].
    apply andb_true_iff in Hd as [H1 H2].
    constructor; auto.
Qed.

(** The second pass, piece by piece. *)
Lemma sub_at_resolve (sorted_chunks : list pstr) (ps : list piece) :
  code_view ps = true ->
  sub_at (replace sorted_chunks) (ptext ps)
  = (let? parts := res_map (resolve sorted_chunks) ps in
     Ok (join parts))%res.
Proof.
  intros Hv. rewrite (sub_at_view _ ps Hv).
  rewrite (res_map_ext (apply_code (replace sorted_chunks))
             (resolve sorted_chunks)); [done|].
  eapply Forall_impl; [exact (code_view_digits ps Hv)|].
  intros [c|d1 d2 d3]; [done|]. intros (H1 & H2 & H3).
  cbn [apply_code resolve].
  destruct (reserved [d1; d2; d3]) eqn:Hres.
  - by rewrite replace_reserved.
  - by rewrite replace_rank.
Qed.

(** The third pass, piece by piece. *)
Lemma sub_at_unescape (ps : list piece) :
  code_view ps = true ->
  sub_at replace_special (ptext ps) = Ok (concat (map unescape ps)).
Proof.
  intros Hv. rewrite (sub_at_view _ ps Hv).
  assert (res_map (apply_code replace_special) ps = Ok (map unescape ps))
    as ->; [|done].
  clear Hv. induction ps as [|[c|d1 d2 d3] ps IH]; [done|..].
  - cbn [res_map apply_code map unescape]. by rewrite IH.
  - cbn [res_map apply_code map unescape]. rewrite IH.
    unfold replace_special.
    destruct (str_eqb [d1; d2; d3] (py "000")); [done|].
    by destruct (str_eqb [d1; d2; d3] (py "998")).
Qed.

(** C8.  [s_decompress] runs three substitutions over BODY, in this
    order, and decrypts what the third returns.  The first replaces
    every matrix literal, from left to right, by what [matrix_fix]
    returns for it.  The second reads the text that the first returns:
    it puts every reserved code ('@000', '@998', '@999') back unchanged
    and replaces every other '@NNN' by the chunk at rank NNN, counted
    from 1, of the sorted dictionary, the list of the HEAD entries as
    [r_sort] returns it.  The third reads the text that the second
    returns: '@000' becomes '@', '@998' becomes '/', and every other
    code, '@999' among them, a newline. *)
Theorem s_decompress_three_passes
    (v key mkey_text ft : pstr) (entries : list pstr) (mkey : matrix)
    (p1 : list mpiece) (p2 p3 : list piece)
    (fuel : nat) (g : nat -> nat) (cur c1 c2 : nat)
    (sorted_chunks parts2 : list pstr) :
  fields_ok v key mkey_text entries ft mkey ->
  r_sort str_ltb fuel entries g cur = Done sorted_chunks c1 ->
  matrix_view p1 = true ->
  fix_all fuel mkey p1 g c1 = Done (ptext p2) c2 ->
  code_view p2 = true ->
  res_map (resolve sorted_chunks) p2 = Ok parts2 ->
  join parts2 = ptext p3 ->
  code_view p3 = true ->
  sorted_dictionary entries sorted_chunks /\
  s_decompress fuel (artifact v key mkey_text entries (mtext p1) ft) g cur
  = s_decrypt fuel (concat (map unescape p3)) key g c2.
Proof.
  intros Hf Hsort Hv1 Hfix Hv2 Hres Hjoin Hv3.
  destruct (sub_matrix_view fuel mkey p1 Hv1) as [Hnl Hrun].
  split.
  - destruct (r_sort_loop_spec str_ltb _ _ _ _ _ _ Hsort) as [Hperm Hsorted].
    split; [done|].
    intros i j a b. by apply raises_not_sorted_false.
  - rewrite (s_decompress_fields v key mkey_text entries _ ft mkey fuel g cur
               Hf Hnl).
    rewrite (bind_step _ _ g cur sorted_chunks c1 Hsort).
    rewrite (bind_step _ _ g c1 (ptext p2) c2)
      by (by rewrite Hrun).
    rewrite (sub_at_resolve sorted_chunks p2 Hv2), Hres. cbn [res_bind].
    rewrite (bind_step _ _ g c2 (join parts2) c2) by done.
    rewrite Hjoin, (sub_at_unescape p3 Hv3).
    by rewrite (bind_step _ _ g c2 (concat (map unescape p3)) c2).
Qed.

(** Witness of C8: under the key "!", the matrix key [[1], [1], [2]] and
    the dictionary ["B"], the BODY "@001/[[40]]/B!" with every draw equal
    to 10.  The first pass finds the quotient [[10, 10, 10]] and turns
    the matrix literal into "@000", the second turns "@001" into "B" and
    puts "@000" back, the third turns "@000" into "@", and "B@B!" is
    decrypted to "aB". *)
Lemma s_decompress_three_passes_witness :
  exists c2 : nat,
    fix_all 10 [[1]; [1]; [2]]
      [MChar (ch "@"); MChar (ch "0"); MChar (ch "0"); MChar (ch "1");
       MLit (py "[[40]]");
       MChar (ch "B"); MChar (ch "!")]
      (fun _ => 10%nat) 0%nat
    = Done (py "@001@000B!") c2 /\
    s_decrypt 10 (py "B@B!") (py "!") (fun _ => 10%nat) c2
    = Done (py "aB") (S (S c2)) /\
    sorted_dictionary [py "B"] [py "B"] /\
    s_decompress 10
      (artifact (py "001") (py "!") (py "[[1], [1], [2]]")
         [py "B"]
         (py "@001/[[40]]/B!") [])
      (fun _ => 10%nat) 0%nat
    = s_decrypt 10 (py "B@B!") (py "!") (fun _ => 10%nat) c2.
Proof.
  eexists. split; [vm_compute; reflexivity|].
  split; [vm_compute; reflexivity|].
  apply (s_decompress_three_passes
           (py "001") (py "!") (py "[[1], [1], [2]]") []
           [py "B"] [[1]; [1]; [2]]
           [MChar (ch "@"); MChar (ch "0"); MChar (ch "0"); MChar (ch "1");
            MLit (py "[[40]]");
            MChar (ch "B"); MChar (ch "!")]
           [PCode (ch "0") (ch "0") (ch "1"); PCode (ch "0") (ch "0") (ch "0");
            PChar (ch "B"); PChar (ch "!")]
           [PChar (ch "B"); PCode (ch "0") (ch "0") (ch "0");
            PChar (ch "B"); PChar (ch "!")]
           10%nat (fun _ => 10%nat) 0%nat 0%nat _
           [py "B"] [py "B"; py "@000"; py "B"; py "!"]).
  - constructor.
    + split; [reflexivity|]. exists 1. reflexivity.
    + vm_compute. repeat constructor; discriminate.
    + split; [vm_compute; repeat constructor; discriminate|reflexivity].
    + vm_compute. repeat constructor; discriminate.
    + constructor.
  - reflexivity.
  - reflexivity.
  - vm_compute. reflexivity.
  - reflexivity.
  - reflexivity.
  - reflexivity.
  - reflexivity.
Defined.

(** ** Errors of [s_decompress] on a malformed artifact *)

Lemma sub_at_prefix (f : pstr -> res pstr) (pre s : pstr) :
  Forall (fun c => c <> ch "@") pre ->
  sub_at f (pre ++ s) = (let? t := sub_at f s in Ok (pre ++ t))%res.
Proof.
  induction pre as [|c pre IH]; intros H.
  - cbn [app]. by destruct (sub_at f s).
  - inversion H as [|? ? Hc Hpre]; subst. cbn [app].
    rewrite (sub_at_other f c _ Hc), (IH Hpre).
    by destruct (sub_at f s).
Qed.

Lemma sub_at_no_reference (f : pstr -> res pstr) (s : pstr) :
  no_reference s = true -> sub_at f s = Ok s.
Proof.
  induction s as [|c s IH]; intros H; [done|].
  cbn [no_reference] in H. apply andb_true_iff in H as [Hc Hs].
  apply negb_true_iff in Hc.
  by rewrite (sub_at_copy f c s Hc), (IH Hs).
Qed.

(** C9, amended.  The module has no decode error of its own, and a
    malformed artifact makes [s_decompress] fail with a built-in
    exception or not at all.  A version field that [int] rejects, a
    number of sections other than three and a HEAD with fewer than two
    fields separated by '/' raise [ValueError].  In an artifact whose
    fields are found and whose BODY holds no matrix literal, the first
    reference whose rank is beyond the dictionary raises [IndexError],
    once [r_sort] has returned; and a BODY in which no '@' is followed
    by three digits raises nothing in the passes: it is decrypted as it
    is.  Whenever [s_decompress] fails without having called [int] or
    [eval] on a text that is not modelled, it fails with a built-in
    exception. *)
Theorem s_decompress_malformed_builtin_errors :
  (forall (x : pstr) fuel g cur,
     py_int (take 3 x) = Raise ValueError ->
     s_decompress fuel x g cur = Failed ValueError) /\
  (forall (x : pstr) fuel g cur n,
     py_int (take 3 x) = Ok n ->
     length (split 10 (drop 3 x)) <> 3%nat ->
     s_decompress fuel x g cur = Failed ValueError) /\
  (forall (x hd bd ft : pstr) fuel g cur n,
     py_int (take 3 x) = Ok n ->
     split 10 (drop 3 x) = [hd; bd; ft] ->
     (length (split (ch "/") hd) < 2)%nat ->
     s_decompress fuel x g cur = Failed ValueError) /\
  (forall (v key mkey_text ft : pstr) (entries : list pstr) (mkey : matrix)
          (pre rest : pstr) (d1 d2 d3 : pchar) fuel g cur
          (sorted_chunks : list pstr) c1,
     fields_ok v key mkey_text entries ft mkey ->
     Forall (fun c => c <> ch "/" /\ c <> 10 /\ c <> ch "@") pre ->
     no_separator rest ->
     is_digit d1 = true -> is_digit d2 = true -> is_digit d3 = true ->
     reserved [d1; d2; d3] = false ->
     Z.of_nat (length entries) < int_of_digits [d1; d2; d3] ->
     r_sort str_ltb fuel entries g cur = Done sorted_chunks c1 ->
     s_decompress fuel
       (artifact v key mkey_text entries
          (pre ++ ch "@" :: d1 :: d2 :: d3 :: rest) ft) g cur
     = Failed IndexError) /\
  (forall (v key mkey_text ft : pstr) (entries : list pstr) (mkey : matrix)
          (bd : pstr) fuel g cur (sorted_chunks : list pstr) c1,
     fields_ok v key mkey_text entries ft mkey ->
     no_separator bd ->
     no_reference bd = true ->
     r_sort str_ltb fuel entries g cur = Done sorted_chunks c1 ->
     s_decompress fuel (artifact v key mkey_text entries bd ft) g cur
     = s_decrypt fuel bd key g c1) /\
  (forall fuel (x : pstr) g cur e,
     s_decompress fuel x g cur = Failed e ->
     e <> Unmodelled ->
     builtin e).
Proof.
  split_and!.
  - intros x fuel g cur Hv. unfold s_decompress, bind. by rewrite Hv.
  - intros x fuel g cur n Hv Hsec. unfold s_decompress, bind. rewrite Hv.
    simpl lift. unfold ret at 1.
    destruct (split 10 (drop 3 x)) as [|hd [|bd [|ft [|? ?]]]]; try done.
  - intros x hd bd ft fuel g cur n Hv Hsec Hhd.
    unfold s_decompress, bind. rewrite Hv.
    simpl lift. unfold ret at 1. rewrite Hsec.
    destruct (split (ch "/") hd) as [|key [|mkey_text entries]]; try done.
    simpl in Hhd. lia.
  - intros v key mkey_text ft entries mkey pre rest d1 d2 d3 fuel g cur
      sorted_chunks c1 Hf Hpre Hrest H1 H2 H3 Hres Hlen Hsort.
    assert (is_digit (ch "/") = false /\ is_digit 10 = false) as [Hs Hn]
      by done.
    assert (no_separator (pre ++ ch "@" :: d1 :: d2 :: d3 :: rest)) as Hbd.
    { apply Forall_app. split.
      - eapply Forall_impl; [exact Hpre|]. by intros x (? & ? & _).
      - constructor; [done|].
        repeat (constructor; [split; intros ->; congruence|]). done. }
    rewrite (s_decompress_fields v key mkey_text entries _ ft mkey fuel g cur
               Hf)
      by (eapply Forall_impl; [exact Hbd|]; by intros x [_ ?]).
    rewrite (bind_step _ _ g cur sorted_chunks c1 Hsort).
    rewrite (bind_step _ _ g c1 _ c1)
      by (apply sub_matrix_no_slash;
          eapply Forall_impl; [exact Hbd|]; by intros x [? _]).
    assert (length sorted_chunks = length entries) as Hl.
    { apply r_sort_loop_spec in Hsort as [Hp _]. by rewrite Hp. }
    rewrite sub_at_prefix
      by (eapply Forall_impl; [exact Hpre|]; by intros x (_ & _ & ?)).
    rewrite sub_at_match, replace_rank by done.
    unfold index. rewrite lookup_ge_None_2 by lia. done.
  - intros v key mkey_text ft entries mkey bd fuel g cur sorted_chunks c1
      Hf Hbd Hno Hsort.
    rewrite (s_decompress_fields v key mkey_text entries _ ft mkey fuel g cur
               Hf)
      by (eapply Forall_impl; [exact Hbd|]; by intros x [_ ?]).
    rewrite (bind_step _ _ g cur sorted_chunks c1 Hsort).
    rewrite (bind_step _ _ g c1 bd c1)
      by (apply sub_matrix_no_slash;
          eapply Forall_impl; [exact Hbd|]; by intros x [? _]).
    rewrite (sub_at_no_reference _ bd Hno).
    rewrite (bind_step _ _ g c1 bd c1) by done.
    rewrite (sub_at_no_reference _ bd Hno).
    by rewrite (bind_step _ _ g c1 bd c1).
  - intros fuel x g cur e H Hne. apply s_decompress_Failed in H.
    by destruct e.
Qed.

(** Witness of the amended C9: a version field of letters, and under the
    dictionary ["B"] a BODY with the reference '@002'. *)
Lemma s_decompress_malformed_builtin_errors_witness :
  s_decompress 0 (py "abc") (fun _ => 0%nat) 0%nat = Failed ValueError /\
  s_decompress 1
    (artifact (py "001") (py "!") (py "[[1], [1], [2]]") [py "B"]
       (py "B!@002") [])
    (fun _ => 0%nat) 0%nat
  = Failed IndexError.
Proof.
  destruct s_decompress_malformed_builtin_errors as (Ha & _ & _ & Hd & _).
  split.
  - apply Ha. reflexivity.
  - apply (Hd (py "001") (py "!") (py "[[1], [1], [2]]") [] [py "B"]
             [[1]; [1]; [2]] (py "B!") [] (ch "0") (ch "0") (ch "2")
             1%nat (fun _ => 0%nat) 0%nat [py "B"] 0%nat).
    + constructor.
      * split; [reflexivity|]. exists 1. reflexivity.
      * vm_compute. repeat constructor; discriminate.
      * split; [vm_compute; repeat constructor; discriminate|reflexivity].
      * vm_compute. repeat constructor; discriminate.
      * constructor.
    + vm_compute. repeat constructor; discriminate.
    + constructor.
    + reflexivity.
    + reflexivity.
    + reflexivity.
    + reflexivity.
    + vm_compute. reflexivity.
    + reflexivity.
Defined.
